(** * A verified model of the /act evaluation harness

    The development embeds the two harness scripts of the repository,
    [eval.py] (task loading, response-shape validation, the single-run
    executor and its summary) and [compare_eval.py] (run specifications,
    their slug and the multi-run comparator), and proves the properties
    their specification states about them; then the endpoints of
    [agent.py] and [main.py], the price table of [pricing.py] and the
    gateway calls of [llm_gateway.py], with further properties of all.

    Conventions of the embedding:
    - a Python value that came out of [json.loads] is a [json]; a [dict] is
      a finite map from key to value ([gmap string json]);
    - a Python float is represented by its value: a rational when finite,
      or one of the non-finite values.  The rounding error of the binary
      representation is not modelled, except where a result depends on it
      by more than this error: [avg_latency_ms], which is rounded to two
      decimals, is computed on the doubles themselves ([to_double]);
    - a call that may raise returns a [result]: [Ok v] or [Raise e];
    - what Python's builtins do on strings ([repr], parsing a number out of
      a string, Unicode case mapping) is a parameter of the development,
      gathered in the class [PyBuiltins] and in a section variable. *)

From Stdlib Require Import ZArith QArith Qpower Qabs Lia Lqa List.
From Stdlib Require Import Ascii String DecimalString DecimalZ.
From stdpp Require Import base option list strings gmap sorting.

Local Open Scope Z_scope.
Local Open Scope string_scope.

(** ** Python values *)

#[local] Set Warnings "-register-all".
#[local] Set Warnings "-notation-incompatible-prefix".

Module Py.

(** The value of a Python [float]. *)
Inductive pyfloat : Type :=
| Finite (q : Q)
| Infinite (negative : bool)
| NaN.

(** The values [json.loads] produces.  ([json.loads] also accepts the
    literals [NaN], [Infinity] and [-Infinity].) *)
Inductive json : Type :=
| JNull
| JBool (b : bool)
| JInt (n : Z)
| JFloat (f : pyfloat)
| JStr (s : string)
| JList (l : list json)
| JDict (d : gmap string json).

(** Exceptions: the name of the class and [str(exc)]. *)
Record exn : Type := mk_exn { exn_class : string; exn_msg : string }.

Definition ValueError (msg : string) : exn := mk_exn "ValueError" msg.
Definition TypeError (msg : string) : exn := mk_exn "TypeError" msg.
Definition OverflowError (msg : string) : exn := mk_exn "OverflowError" msg.
Definition AttributeError (msg : string) : exn := mk_exn "AttributeError" msg.

Inductive result (A : Type) : Type :=
| Ok (a : A)
| Raise (e : exn).
Arguments Ok {A} a.
Arguments Raise {A} e.

(** Sequencing: the first exception raised ends the computation.  With
    this instance [x ← r; k] is stdpp's notation for it. *)
#[global] Instance result_bind : MBind result :=
  fun A B (k : A -> result B) (r : result A) =>
    match r with
    | Ok a => k a
    | Raise e => Raise e
    end.
#[global] Instance result_ret : MRet result := fun A (a : A) => Ok a.

(** What the harness takes from Python's builtins on text. *)
Class PyBuiltins : Type := {
  (** [repr] of a float, a list or a dict (which is their [str]) *)
  repr_value : json -> string;
  (** [int(s)] for a string [s] *)
  int_of_str : string -> result Z;
  (** [float(s)] for a string [s] *)
  float_of_str : string -> result pyfloat
}.

(** [isinstance(v, dict)], [isinstance(v, list)], [isinstance(v, str)] *)
Definition is_dict (v : json) : bool :=
  match v with JDict _ => true | _ => false end.
Definition is_list (v : json) : bool :=
  match v with JList _ => true | _ => false end.
Definition is_str (v : json) : bool :=
  match v with JStr _ => true | _ => false end.

(** [type(v).__name__] *)
Definition type_name (v : json) : string :=
  match v with
  | JNull => "NoneType"
  | JBool _ => "bool"
  | JInt _ => "int"
  | JFloat _ => "float"
  | JStr _ => "str"
  | JList _ => "list"
  | JDict _ => "dict"
  end.

(** Truth value of a float: only zero is false. *)
Definition float_truthy (f : pyfloat) : bool :=
  match f with
  | Finite q => negb (Z.eqb (Qnum q) 0)
  | _ => true
  end.

(** [bool(v)]: [None], [False], zero and the empty string, list and dict
    are false. *)
Definition truthy (v : json) : bool :=
  match v with
  | JNull => false
  | JBool b => b
  | JInt n => negb (Z.eqb n 0)
  | JFloat f => float_truthy f
  | JStr s => negb (String.eqb s "")
  | JList l => match l with [] => false | _ => true end
  | JDict d => negb (Nat.eqb (size d) 0)
  end.

(** [d.get(k)]: the value, or [None] when the key is missing. *)
Definition dict_get (d : gmap string json) (k : string) : json :=
  default JNull (d !! k).

(** [x or y] *)
Definition py_or (x y : json) : json := if truthy x then x else y.

(** Decimal rendering of an integer, as [str(n)] and f-strings do. *)
Definition str_of_Z (n : Z) : string := NilEmpty.string_of_int (Z.to_int n).
Definition str_of_nat (n : nat) : string := str_of_Z (Z.of_nat n).

Section Builtins.
Context `{PyBuiltins}.

(** [str(v)] *)
Definition py_str (v : json) : string :=
  match v with
  | JNull => "None"
  | JBool true => "True"
  | JBool false => "False"
  | JInt n => str_of_Z n
  | JStr s => s
  | JFloat _ | JList _ | JDict _ => repr_value v
  end.

(** [int(v)]: a float is truncated towards zero. *)
Definition py_int (v : json) : result Z :=
  match v with
  | JInt n => Ok n
  | JBool b => Ok (if b then 1 else 0)
  | JFloat (Finite q) => Ok (Z.quot (Qnum q) (Z.pos (Qden q)))
  | JFloat (Infinite _) =>
      Raise (OverflowError "cannot convert float infinity to integer")
  | JFloat NaN => Raise (ValueError "cannot convert float NaN to integer")
  | JStr s => int_of_str s
  | JNull | JList _ | JDict _ =>
      Raise (TypeError ("int() argument must be a string, a bytes-like object or a real number, not '"
                          ++ type_name v ++ "'"))
  end.

(** The largest magnitude an [int] may have for [float(n)] not to overflow:
    below the midpoint between the largest double and [2^1024]. *)
Definition float_int_limit : Z := 2 ^ 1024 - 2 ^ 970.

(** [float(v)] *)
Definition py_float (v : json) : result pyfloat :=
  match v with
  | JFloat f => Ok f
  | JInt n =>
      if Z.ltb (Z.abs n) float_int_limit then Ok (Finite (inject_Z n))
      else Raise (OverflowError "int too large to convert to float")
  | JBool b => Ok (Finite (inject_Z (if b then 1 else 0)))
  | JStr s => float_of_str s
  | JNull | JList _ | JDict _ =>
      Raise (TypeError ("float() argument must be a string or a real number, not '"
                          ++ type_name v ++ "'"))
  end.

End Builtins.

End Py.

(** ** [eval.py]: tasks, shape validation, the single-run executor *)

Module Eval.
Import Py.

(** A task, as [_default_tasks] and [_load_tasks] build it (a dict with
    exactly these six keys). *)
Record Task : Type := mk_Task {
  task_id : string;
  prompt : string;
  url : string;
  snapshot_html : string;
  step_index : Z;
  history : list json
}.

(** [range(n)] for an integer [n] *)
Definition range (n : Z) : list nat := seq 0 (Z.to_nat n).

(** [enumerate(l)] *)
Definition enumerate {A : Type} (l : list A) : list (nat * A) :=
  zip (seq 0 (length l)) l.

Definition _default_tasks (num_tasks : Z) : list Task :=
  map (fun i : nat =>
         {| task_id := "template-task-" ++ str_of_nat i;
            prompt := "Template task for /act schema validation";
            url := "https://example.com";
            snapshot_html := "<html><body><button>Continue</button></body></html>";
            step_index := Z.of_nat i;
            history := [] |})
      (range (Z.max 1 num_tasks)).

Section Loading.
Context `{PyBuiltins}.

(** [json.loads(Path(path).read_text(encoding="utf-8"))]: the content of
    the file system when the tasks are loaded. *)
Variable read_json : string -> result json.

(** The dict built for the entry [item] found at position [i]. *)
Definition task_of_item (i : nat) (item : gmap string json) : result Task :=
  let tid := py_str (py_or (dict_get item "task_id") (JStr ("task-" ++ str_of_nat i))) in
  let p := py_str (py_or (dict_get item "prompt") (JStr "Template task")) in
  let u := py_str (py_or (dict_get item "url") (JStr "https://example.com")) in
  let html := py_str (py_or (dict_get item "snapshot_html") (JStr "<html></html>")) in
  step ← py_int (py_or (dict_get item "step_index") (JInt 0));
  mret {| task_id := tid;
          prompt := p;
          url := u;
          snapshot_html := html;
          step_index := step;
          history := match dict_get item "history" with
                     | JList h => h
                     | _ => []
                     end |}.

(** The loop over [enumerate(data)], [tasks] being the list built so far. *)
Fixpoint load_items (i : nat) (data : list json) (tasks : list Task)
  : result (list Task) :=
  match data with
  | [] => Ok tasks
  | JDict item :: rest =>
      t ← task_of_item i item;
      load_items (S i) rest (tasks ++ [t])
  | _ :: rest => load_items (S i) rest tasks
  end.

Definition bad_tasks_file : exn :=
  ValueError "tasks file must be a JSON list or {'tasks':[...]} object".

(** The entries of a parsed tasks file. *)
Definition tasks_data (raw : json) : result (list json) :=
  match raw with
  | JDict d =>
      match dict_get d "tasks" with
      | JList data => Ok data
      | _ => Raise bad_tasks_file
      end
  | JList data => Ok data
  | _ => Raise bad_tasks_file
  end.

Definition _load_tasks (path : option string) (fallback_num_tasks : Z)
  : result (list Task) :=
  match path with
  | None | Some "" => Ok (_default_tasks fallback_num_tasks)
  | Some p =>
      raw ← read_json p;
      data ← tasks_data raw;
      load_items 0 data []
  end.

End Loading.

(** [t is None] *)
Definition is_none (v : json) : bool :=
  match v with JNull => true | _ => false end.

(** The loop of [_validate_actions_shape] over [enumerate(actions)], from
    position [idx] on. *)
Fixpoint check_actions (idx : nat) (actions : list json) : bool * string :=
  match actions with
  | [] => (true, "ok")
  | JDict action :: rest =>
      let t := dict_get action "type" in
      if negb (is_none t) && negb (is_str t)
      then (false, "actions[" ++ str_of_nat idx ++ "].type must be a string when present")
      else check_actions (S idx) rest
  | _ :: _ => (false, "actions[" ++ str_of_nat idx ++ "] is not an object")
  end.

Definition _validate_actions_shape (payload : json) : bool * string :=
  match payload with
  | JDict d =>
      match dict_get d "actions" with
      | JList actions => check_actions 0 actions
      | _ => (false, "missing or invalid 'actions' list")
      end
  | _ => (false, "response is not an object (" ++ type_name payload ++ ")")
  end.

(** *** The executor *)

(** What [_call_act] returns. *)
Record Call : Type := mk_Call {
  call_status : Z;
  call_elapsed_ms : Z;
  call_body : json
}.

(** One episode: the [result] dict of [run_eval].  A key the dict does not
    have is [None] here. *)
Record CallResult : Type := mk_CallResult {
  repeat_index : nat;
  task_index : nat;
  result_task_id : string;
  ok : bool;
  status : option Z;
  elapsed_ms : option Z;
  shape_ok : option bool;
  shape_msg : option string;
  action_count : option nat;
  error : option string
}.

Record RunSummary : Type := mk_RunSummary {
  total_calls : Z;
  ok_calls : Z;
  ok_rate : Q;
  avg_latency_ms : Q
}.

Record RunResult : Type := mk_RunResult {
  agent_base_url : string;
  num_tasks : nat;
  repeat : Z;
  episodes : list CallResult;
  summary : RunSummary
}.

(** [s.rstrip('/')] *)
Fixpoint rstrip_slash (s : string) : string :=
  match s with
  | EmptyString => EmptyString
  | String c rest =>
      match rstrip_slash rest with
      | EmptyString => if Ascii.eqb c "/"%char then EmptyString else String c EmptyString
      | kept => String c kept
      end
  end.

(** The integer nearest to [x], a tie going to the even one. *)
Definition round_half_even (x : Q) : Z :=
  let d := Z.pos (Qden x) in
  let q := Z.div (Qnum x) d in
  let r := Z.modulo (Qnum x) d in
  match Z.compare (2 * r) d with
  | Lt => q
  | Gt => q + 1
  | Eq => if Z.even q then q else q + 1
  end.

(** The number of hundredths nearest to [x], a tie going to the even
    one. *)
Definition round2 (x : Q) : Q := Qmake (round_half_even (x * 100)) 100.

(** *** Doubles

    A double is a rational [m * 2^e] with [|m| <= 2^53] and [e >= -1074],
    of magnitude at most [max_double]. *)

Definition pow2 (e : Z) : Q := (2 ^ e)%Q.

(** The [k] with [2^k <= a < 2^(k+1)], for [a > 0]. *)
Definition floor_log2 (a : Q) : Z :=
  let k := Z.log2 (Qnum a) - Z.log2 (Z.pos (Qden a)) in
  if Qle_bool (pow2 k) a then k else k - 1.

(** The exponent of the last binary place of the doubles around [a > 0]:
    53 significant bits, and no place below [2^-1074]. *)
Definition quantum (a : Q) : Z := Z.max (floor_log2 a - 52) (-1074).

(** Rounding to nearest, a tie going to the even significand, of [a > 0]. *)
Definition nearest_double (a : Q) : Q :=
  (inject_Z (round_half_even (a / pow2 (quantum a))) * pow2 (quantum a))%Q.

(** The double nearest to [q]: what a correctly rounded operation of exact
    result [q] returns, as the division of two integers and the reading
    of a decimal do.  (A result beyond [max_double] is no double: Python
    raises [OverflowError] there.) *)
Definition to_double (q : Q) : Q :=
  match Qnum q with
  | Z0 => 0%Q
  | Z.pos _ => nearest_double q
  | Z.neg _ => (- nearest_double (- q))%Q
  end.

(** The largest double. *)
Definition max_double_int : Z := (2 ^ 53 - 1) * 2 ^ 971.
Definition max_double : Q := inject_Z max_double_int.

(** [round(x, 2)] for a double [x]: the exact value of [x] is rounded to a
    number of hundredths, and the double nearest to this decimal is
    returned. *)
Definition float_round2 (x : Q) : Q := to_double (round2 x).

(** [int(ep.get("elapsed_ms") or 0)] *)
Definition latency_of (ep : CallResult) : Z :=
  match elapsed_ms ep with
  | Some ms => ms
  | None => 0
  end.

(** [sum(...)] over a list of integers *)
Definition sum_Z (l : list Z) : Z := fold_left Z.add l 0.

(** The [summary] of [run_eval], computed from the episodes.
    [avg_latency] is the double the division of the two integers returns,
    and [avg_latency_ms] the double [round] returns on it; [ok_rate] is
    kept as the exact quotient, of which the code stores the nearest
    double.  (Every [elapsed_ms] is [int()] of a double, so of magnitude at
    most [max_double], and so is their mean: the division does not
    overflow.) *)
Definition summarize (episodes : list CallResult) : RunSummary :=
  let ok_count := sum_Z (map (fun _ => 1) (filter (fun ep => ok ep = true) episodes)) in
  let avg_latency :=
    match episodes with
    | [] => 0%Q
    | _ => to_double (inject_Z (sum_Z (map latency_of episodes))
                      / inject_Z (Z.of_nat (length episodes)))%Q
    end in
  {| total_calls := Z.of_nat (length episodes);
     ok_calls := ok_count;
     ok_rate := match episodes with
                | [] => 0%Q
                | _ => (inject_Z ok_count / inject_Z (Z.of_nat (length episodes)))%Q
                end;
     avg_latency_ms := float_round2 avg_latency |}.

Section Executor.

(** The world outside the harness: the evaluated agent, the network and
    the clock.  [post_json w timeout url task] is one POST of [task] as
    JSON to [url] under the session's total [timeout], the decoding of the
    answer's body as JSON whatever its content type, and the time this
    took in milliseconds; or the exception this raised. *)
Variable World : Type.
Variable post_json : World -> Q -> string -> Task -> result (Z * json * Z) * World.

Definition _call_act (w : World) (timeout : Q) (base_url : string) (payload : Task)
  : result Call * World :=
  match post_json w timeout (rstrip_slash base_url ++ "/act") payload with
  | (Ok (resp_status, body, elapsed), w') =>
      (Ok {| call_status := resp_status; call_elapsed_ms := elapsed; call_body := body |}, w')
  | (Raise e, w') => (Raise e, w')
  end.

(** The body of the inner loop: the episode of task [task], at position
    [idx] of repetition [r]. *)
Definition one_call (w : World) (timeout : Q) (base_url : string)
    (r idx : nat) (task : Task) : CallResult * World :=
  match _call_act w timeout base_url task with
  | (Ok call, w') =>
      let '(s_ok, s_msg) := _validate_actions_shape (call_body call) in
      let actions :=
        match call_body call with
        | JDict d => dict_get d "actions"
        | _ => JList []
        end in
      ({| repeat_index := r;
          task_index := idx;
          result_task_id := task_id task;
          ok := Z.eqb (call_status call) 200 && s_ok;
          status := Some (call_status call);
          elapsed_ms := Some (call_elapsed_ms call);
          shape_ok := Some s_ok;
          shape_msg := Some s_msg;
          action_count := Some (match actions with
                                | JList l => length l
                                | _ => 0%nat
                                end);
          error := None |}, w')
  | (Raise exc, w') =>
      ({| repeat_index := r;
          task_index := idx;
          result_task_id := task_id task;
          ok := false;
          status := None;
          elapsed_ms := None;
          shape_ok := None;
          shape_msg := None;
          action_count := None;
          error := Some (exn_msg exc) |}, w')
  end.

(** [for idx, task in enumerate(tasks)], appending to [episodes]. *)
Definition run_tasks (timeout : Q) (base_url : string) (tasks : list Task)
    (r : nat) (st : list CallResult * World) : list CallResult * World :=
  fold_left
    (fun (st : list CallResult * World) (it : nat * Task) =>
       let '(result, w') := one_call (snd st) timeout base_url r (fst it) (snd it) in
       ((fst st ++ [result])%list, w'))
    (enumerate tasks) st.

(** [for r in range(max(1, int(repeat)))] *)
Definition run_repeats (timeout : Q) (base_url : string) (tasks : list Task)
    (repeat : Z) (w : World) : list CallResult * World :=
  fold_left (fun st r => run_tasks timeout base_url tasks r st)
            (range (Z.max 1 repeat)) ([], w).

Definition run_eval (w : World) (agent_base_url : string) (tasks : list Task)
    (repeat : Z) (timeout_seconds : Q) : RunResult * World :=
  let '(episodes, w') := run_repeats timeout_seconds agent_base_url tasks repeat w in
  ({| agent_base_url := agent_base_url;
      num_tasks := length tasks;
      repeat := repeat;
      episodes := episodes;
      summary := summarize episodes |}, w').

End Executor.

(** The parsed command line of [eval.py]. *)
Record Args : Type := mk_Args {
  arg_agent_base_url : string;
  arg_tasks_file : option string;
  arg_num_tasks : Z;
  arg_repeat : Z;
  arg_timeout_seconds : Q;
  arg_out : string
}.

Section Main.
Context `{PyBuiltins}.
Variable read_json : string -> result json.
Variable World : Type.
Variable post_json : World -> Q -> string -> Task -> result (Z * json * Z) * World.

(** [main], once the command line is parsed: the result it writes as JSON
    to [--out], or the exception that leaves it.  (What it prints is left
    out.) *)
Definition main (w : World) (args : Args) : result RunResult * World :=
  match _load_tasks read_json (arg_tasks_file args) (arg_num_tasks args) with
  | Raise e => (Raise e, w)
  | Ok tasks =>
      let '(res, w') :=
        run_eval World post_json w (arg_agent_base_url args) tasks
                 (arg_repeat args) (arg_timeout_seconds args) in
      (Ok res, w')
  end.

End Main.

(** *** The vocabulary of the properties *)

(** An action is well formed: an object whose [type], when it has one that
    is not null, is a string. *)
Definition action_ok (a : json) : Prop :=
  ∃ m, a = JDict m ∧
       (m !! "type" = None ∨ m !! "type" = Some JNull ∨ ∃ s, m !! "type" = Some (JStr s)).

(** A body is well shaped: an object whose [actions] is a list of well
    formed actions. *)
Definition well_shaped (payload : json) : Prop :=
  ∃ d l, payload = JDict d ∧ d !! "actions" = Some (JList l) ∧ Forall action_ok l.

(** The reading under which a [type] that is present has to be a string,
    null included. *)
Definition action_ok_strict (a : json) : Prop :=
  ∃ m, a = JDict m ∧ ∀ t, m !! "type" = Some t → ∃ s, t = JStr s.

Definition well_shaped_strict (payload : json) : Prop :=
  ∃ d l, payload = JDict d ∧ d !! "actions" = Some (JList l) ∧ Forall action_ok_strict l.

(** The message for the action [a] found offending at position [i]. *)
Definition offending_msg (i : nat) (a : json) : string :=
  if is_dict a
  then "actions[" ++ str_of_nat i ++ "].type must be a string when present"
  else "actions[" ++ str_of_nat i ++ "] is not an object".

Definition action_okb (a : json) : bool :=
  match a with
  | JDict m => let t := dict_get m "type" in is_none t || is_str t
  | _ => false
  end.

(** The entries of [data] that are objects, each with its position in
    [data], positions being counted from [i]. *)
Definition entries_from (i : nat) (data : list json) : list (nat * gmap string json) :=
  omap (fun it : nat * json =>
          match snd it with
          | JDict d => Some (fst it, d)
          | _ => None
          end)
       (zip (seq i (length data)) data).

Definition object_entries (data : list json) : list (nat * gmap string json) :=
  entries_from 0 data.

Definition count_objects (data : list json) : nat :=
  length (filter (fun v => is_dict v = true) data).

(** The top-level value is neither a list nor an object with a list
    under [tasks]. *)
Definition bad_top_level (raw : json) : Prop :=
  is_list raw = false ∧ ∀ d, raw = JDict d → is_list (dict_get d "tasks") = false.

Section LoadingSpec.
Context `{PyBuiltins}.

(** [int(item.get("step_index") or 0)] yields an integer. *)
Definition step_index_readable (d : gmap string json) : Prop :=
  ∃ z, py_int (py_or (dict_get d "step_index") (JInt 0)) = Ok z.

(** How a text field [k] of an entry [d] is read into [got], [fallback]
    being its default: the default when the field is missing or false in
    Python's sense (null, [false], zero, an empty string, list or object),
    and [str()] of the field otherwise, which is the field itself when it
    is a string. *)
Definition text_field (d : gmap string json) (k fallback got : string) : Prop :=
  (d !! k = None → got = fallback)
  ∧ (∀ v, d !! k = Some v → truthy v = false → got = fallback)
  ∧ (∀ v, d !! k = Some v → truthy v = true → got = py_str v)
  ∧ (∀ s, d !! k = Some (JStr s) → s ≠ "" → got = s).

(** How [step_index] is read: 0 when the field is missing or false in
    Python's sense, [int()] of the field otherwise. *)
Definition step_field (d : gmap string json) (got : Z) : Prop :=
  (d !! "step_index" = None → got = 0)
  ∧ (∀ v, d !! "step_index" = Some v → truthy v = false → got = 0)
  ∧ (∀ v, d !! "step_index" = Some v → truthy v = true → py_int v = Ok got).

(** How [history] is read: the field when it is a list, the empty list
    when it is missing or anything else. *)
Definition history_field (d : gmap string json) (got : list json) : Prop :=
  (d !! "history" = None → got = [])
  ∧ (∀ v, d !! "history" = Some v → is_list v = false → got = [])
  ∧ (∀ l, d !! "history" = Some (JList l) → got = l).

(** The task [t] is the reading of the entry [d] found at position [i]. *)
Definition task_reads (i : nat) (d : gmap string json) (t : Task) : Prop :=
  text_field d "task_id" ("task-" ++ str_of_nat i) (task_id t)
  ∧ text_field d "prompt" "Template task" (prompt t)
  ∧ text_field d "url" "https://example.com" (url t)
  ∧ text_field d "snapshot_html" "<html></html>" (snapshot_html t)
  ∧ step_field d (step_index t)
  ∧ history_field d (history t).

End LoadingSpec.

(** The calls of a run, in order: for each repetition, each task with its
    position. *)
Definition schedule (tasks : list Task) (repeat : Z) : list (nat * nat * Task) :=
  flat_map (fun r => map (fun it : nat * Task => (r, fst it, snd it)) (enumerate tasks))
           (range (Z.max 1 repeat)).

Definition episode_key (ep : CallResult) : nat * nat * string :=
  (repeat_index ep, task_index ep, result_task_id ep).

Section ExecutorSpec.
Variable World : Type.
Variable post_json : World -> Q -> string -> Task -> result (Z * json * Z) * World.
Variables (timeout : Q) (base_url : string).

(** The calls of [sched] made one after the other, each in the world the
    one before left. *)
Fixpoint calls (sched : list (nat * nat * Task)) (w : World) : list CallResult * World :=
  match sched with
  | [] => ([], w)
  | (r, idx, task) :: rest =>
      let res := one_call World post_json w timeout base_url r idx task in
      let later := calls rest (snd res) in
      (fst res :: fst later, snd later)
  end.

(** What one call leaves in its episode. *)
Definition episode_of_call (w0 : World) (task : Task) (ep : CallResult) : Prop :=
  (ok ep = true ↔ status ep = Some 200 ∧ shape_ok ep = Some true)
  ∧ (∀ call w1, _call_act World post_json w0 timeout base_url task = (Ok call, w1) →
       status ep = Some (call_status call)
       ∧ elapsed_ms ep = Some (call_elapsed_ms call)
       ∧ shape_ok ep = Some (fst (_validate_actions_shape (call_body call)))
       ∧ error ep = None)
  ∧ (∀ exc w1, _call_act World post_json w0 timeout base_url task = (Raise exc, w1) →
       ok ep = false ∧ error ep = Some (exn_msg exc)
       ∧ status ep = None ∧ elapsed_ms ep = None).

End ExecutorSpec.

(** *** Inputs for the examples *)

(** An instance of the builtins for the examples: [int(s)] reads an
    optional sign and ASCII digits; the other two are not reached by any
    example. *)
Definition digit_of (c : ascii) : option Z :=
  let n := Z.of_N (N_of_ascii c) in
  if Z.leb 48 n && Z.leb n 57 then Some (n - 48) else None.

Fixpoint digits_value (acc : Z) (s : string) : option Z :=
  match s with
  | EmptyString => Some acc
  | String c rest =>
      match digit_of c with
      | Some d => digits_value (10 * acc + d) rest
      | None => None
      end
  end.

Definition ascii_int_of_str (s : string) : result Z :=
  let bad := Raise (ValueError "invalid literal for int() with base 10") in
  match s with
  | EmptyString => bad
  | String "-" (String _ _ as ds) =>
      match digits_value 0 ds with Some n => Ok (- n) | None => bad end
  | String "+" (String _ _ as ds) =>
      match digits_value 0 ds with Some n => Ok n | None => bad end
  | ds => match digits_value 0 ds with Some n => Ok n | None => bad end
  end.

(** A scripted agent for the examples: the world is the number of calls
    made so far, and the call number [k] gets the entry [k] of the script
    (a refused connection past its end). *)
Definition scripted_post (script : list (result (Z * json * Z)))
  : nat -> Q -> string -> Task -> result (Z * json * Z) * nat :=
  fun k _ _ _ =>
    (default (Raise (mk_exn "ClientConnectorError" "Cannot connect to host"))
             (script !! k),
     S k).

Definition example_builtins : PyBuiltins :=
  {| repr_value := fun v => "<" ++ type_name v ++ ">";
     int_of_str := ascii_int_of_str;
     float_of_str := fun _ => Raise (ValueError "could not convert string to float") |}.

(** A run of two tasks, twice, against an agent that answers well, times
    out, answers 500 and answers a list. *)
Definition example_script : list (result (Z * json * Z)) :=
  [Ok (200, JDict {["actions" := JList []]}, 12);
   Raise (mk_exn "TimeoutError" "");
   Ok (500, JDict {["actions" := JList []]}, 30);
   Ok (200, JList [], 7)].

Definition example_tasks : list Task :=
  [mk_Task "A" "p" "u" "h" 0 []; mk_Task "B" "p" "u" "h" 1 []].

Definition example_run : RunResult :=
  fst (run_eval nat (scripted_post example_script) 0%nat "http://127.0.0.1:5000/"
                example_tasks 2 30).

(** The third episode of this run. *)
Definition example_episode : CallResult :=
  {| repeat_index := 1;
     task_index := 0;
     result_task_id := "A";
     ok := false;
     status := Some 500;
     elapsed_ms := Some 30;
     shape_ok := Some true;
     shape_msg := Some "ok";
     action_count := Some 0%nat;
     error := None |}.

(** A run without tasks. *)
Definition empty_run : RunResult :=
  fst (run_eval nat (scripted_post example_script) 0%nat "http://127.0.0.1:5000/" [] 3 30).

(** *** The result as JSON, and more vocabulary *)

(** The dict a task is, as it is sent in the body of the request. *)
Definition task_to_json (t : Task) : json :=
  JDict {[ "task_id" := JStr (task_id t);
           "prompt" := JStr (prompt t);
           "url" := JStr (url t);
           "snapshot_html" := JStr (snapshot_html t);
           "step_index" := JInt (step_index t);
           "history" := JList (history t) ]}.

(** [d[k] = v] for a key that is set only on some paths. *)
Definition set_key (k : string) (v : option json) (d : gmap string json)
  : gmap string json :=
  match v with
  | Some x => <[k := x]> d
  | None => d
  end.

(** The [result] dict of one call. *)
Definition episode_to_json (ep : CallResult) : json :=
  JDict (set_key "status" (JInt <$> status ep)
        (set_key "elapsed_ms" (JInt <$> elapsed_ms ep)
        (set_key "shape_ok" (JBool <$> shape_ok ep)
        (set_key "shape_msg" (JStr <$> shape_msg ep)
        (set_key "action_count" ((fun n : nat => JInt (Z.of_nat n)) <$> action_count ep)
        (set_key "error" (JStr <$> error ep)
           {[ "repeat_index" := JInt (Z.of_nat (repeat_index ep));
              "task_index" := JInt (Z.of_nat (task_index ep));
              "task_id" := JStr (result_task_id ep);
              "ok" := JBool (ok ep) ]})))))).

Definition summary_to_json (s : RunSummary) : json :=
  JDict {[ "total_calls" := JInt (total_calls s);
           "ok_calls" := JInt (ok_calls s);
           "ok_rate" := JFloat (Finite (ok_rate s));
           "avg_latency_ms" := JFloat (Finite (avg_latency_ms s)) ]}.

(** The dict [run_eval] returns, which [main] writes with [json.dumps]. *)
Definition result_to_json (res : RunResult) : json :=
  JDict {[ "agent_base_url" := JStr (agent_base_url res);
           "num_tasks" := JInt (Z.of_nat (num_tasks res));
           "repeat" := JInt (repeat res);
           "episodes" := JList (map episode_to_json (episodes res));
           "summary" := summary_to_json (summary res) ]}.

(** The endpoint behind [post_json] answers every request with status 200
    and what [handler] returns for the body of the request. *)
Definition serves (handler : json -> json) (World : Type)
    (post_json : World -> Q -> string -> Task -> result (Z * json * Z) * World) : Prop :=
  ∀ w timeout url task, ∃ ms w',
    post_json w timeout url task = (Ok (200, handler (task_to_json task), ms), w').

(** [k] slashes. *)
Fixpoint slashes (k : nat) : string :=
  match k with
  | O => EmptyString
  | S k' => String "/"%char (slashes k')
  end.

(** [s.endswith("/")] *)
Fixpoint ends_with_slash (s : string) : bool :=
  match s with
  | EmptyString => false
  | String c EmptyString => Ascii.eqb c "/"%char
  | String _ rest => ends_with_slash rest
  end.

(** The number of actions of a body: the length of its [actions] when the
    body is an object and [actions] a list. *)
Definition actions_of (body : json) : option (list json) :=
  match body with
  | JDict d => match d !! "actions" with
               | Some (JList l) => Some l
               | _ => None
               end
  | _ => None
  end.

(** Endpoints for the examples, the world having no state: one that
    answers every request with status 200 and what [handler] returns for
    the payload, after 5 ms, and one that refuses every connection. *)
Definition served_post (handler : json -> json)
  : unit -> Q -> string -> Task -> result (Z * json * Z) * unit :=
  fun w _ _ task => (Ok (200, handler (task_to_json task), 5), w).

Definition refused_post : unit -> Q -> string -> Task -> result (Z * json * Z) * unit :=
  fun w _ _ _ => (Raise (mk_exn "ConnectError" "All connection attempts failed"), w).

End Eval.

(** ** [compare_eval.py]: run specifications and the comparator *)

Module Compare.
Import Py.

(** Text whose characters the comparator looks at is a sequence of Unicode
    code points. *)
Abbreviation str := (list N).

(** The text of an ASCII literal. *)
Definition cps (s : string) : str := map N_of_ascii (list_ascii_of_string s).

Record RunSpec : Type := mk_RunSpec {
  provider : str;
  model : str
}.

Section Slug.

(** [str.lower] on a code point outside ASCII: what it is replaced with,
    given the text before it and the text after it (Unicode's case mapping
    can yield several code points and can depend on the context). *)
Variable unicode_lower : str -> N -> str -> str.

(** [str.lower] on an ASCII code point: [A-Z] to [a-z]. *)
Definition lower_ascii (c : N) : N :=
  if N.leb 65 c && N.leb c 90 then (c + 32)%N else c.

Fixpoint lower_from (before s : str) : str :=
  match s with
  | [] => []
  | c :: rest =>
      (if N.ltb c 128 then [lower_ascii c] else unicode_lower before c rest)
        ++ lower_from (before ++ [c]) rest
  end%list.

(** [s.lower()] *)
Definition lower (s : str) : str := lower_from [] s.

(** Membership in the character set [a-z0-9._-]. *)
Definition in_set (c : N) : bool :=
  (N.leb 97 c && N.leb c 122) || (N.leb 48 c && N.leb c 57)
  || N.eqb c 46 || N.eqb c 95 || N.eqb c 45.

(** The scan of [re.sub(r"[^a-z0-9._-]+", "_", s)]: a character of the set
    is copied; a character outside it starts a match, which takes all the
    characters outside the set that follow, and the match is replaced by
    one underscore.  [in_match] tells that the scan is inside a match. *)
Fixpoint re_sub_from (in_match : bool) (s : str) : str :=
  match s with
  | [] => []
  | c :: rest =>
      if in_set c then c :: re_sub_from false rest
      else if in_match then re_sub_from true rest
      else 95%N :: re_sub_from true rest
  end.

Definition re_sub (s : str) : str := re_sub_from false s.

Definition slug (spec : RunSpec) : str :=
  re_sub (lower (provider spec ++ cps "__" ++ model spec)%list).

End Slug.

(** *** The comparator *)

(** The parsed command line of the comparator, without [--runs]. *)
Record Args : Type := mk_Args {
  agent_base_url : str;
  tasks_file : option str;
  num_tasks : Z;
  repeat : Z;
  timeout_seconds : Q
}.

(** The command line of one sub-run, by the values of its arguments. *)
Record Command : Type := mk_Command {
  cmd_python : str;
  cmd_script : str;
  cmd_agent_base_url : str;
  cmd_num_tasks : Z;
  cmd_repeat : Z;
  cmd_timeout_seconds : Q;
  cmd_out : str;
  cmd_tasks_file : option str
}.

(** One row of the comparison. *)
Record Row : Type := mk_Row {
  row_provider : str;
  row_model : str;
  ok_calls : Z;
  total_calls : Z;
  ok_rate : pyfloat;
  avg_latency_ms : pyfloat;
  out : str
}.

(** What the comparator does to the world around it, in the order it does
    it.  (What it prints is left out.) *)
Inductive effect : Type :=
| Mkdir (path : str)
| Run (cmd : Command) (llm_provider openai_model : str)
| ReadText (path : str)
| WriteText (path : str) (runs : list Row).

(** How [main] ends: it returns, it raises [SystemExit(code)], or another
    exception leaves it. *)
Inductive outcome : Type :=
| Returned
| SystemExit (code : Z)
| Uncaught (e : exn).

(** Order of floats: a NaN is neither below nor equal to anything. *)
Definition float_ltb (x y : pyfloat) : bool :=
  match x, y with
  | Finite p, Finite q => negb (Qle_bool q p)
  | Finite _, Infinite neg => negb neg
  | Infinite neg, Finite _ => neg
  | Infinite n1, Infinite n2 => n1 && negb n2
  | _, _ => false
  end.

Definition float_eqb (x y : pyfloat) : bool :=
  match x, y with
  | Finite p, Finite q => Qeq_bool p q
  | Infinite n1, Infinite n2 => Bool.eqb n1 n2
  | _, _ => false
  end.

Definition float_neg (x : pyfloat) : pyfloat :=
  match x with
  | Finite q => Finite (- q)
  | Infinite neg => Infinite (negb neg)
  | NaN => NaN
  end.

(** The sort key [(-r["ok_rate"], r["avg_latency_ms"])] and the order of
    such pairs. *)
Definition sort_key (r : Row) : pyfloat * pyfloat :=
  (float_neg (ok_rate r), avg_latency_ms r).

Definition key_ltb (k1 k2 : pyfloat * pyfloat) : bool :=
  if float_eqb (fst k1) (fst k2) then float_ltb (snd k1) (snd k2)
  else float_ltb (fst k1) (fst k2).

(** [list.sort(key=...)] is stable and compares keys with [<] only; on
    keys that [<] orders totally every stable sort gives its result.  Here:
    each row in turn is put before the first row whose key is greater. *)
Fixpoint insert_row (r : Row) (sorted : list Row) : list Row :=
  match sorted with
  | [] => [r]
  | r' :: rest =>
      if key_ltb (sort_key r) (sort_key r') then r :: sorted
      else r' :: insert_row r rest
  end.

Definition sort_rows (rows : list Row) : list Row :=
  fold_left (fun sorted r => insert_row r sorted) rows [].

Section Main.
Context `{PyBuiltins}.
Variable unicode_lower : str -> N -> str -> str.

(** The process's surroundings: [REPO_DIR], and [PYTHON] of the
    environment or ["python"]. *)
Variable repo_dir : str.
Variable python : str.

(** The world the comparator runs in: [subprocess_run w cmd provider model]
    is the return code of the sub-run launched with [LLM_PROVIDER] and
    [OPENAI_MODEL] set, and the world it leaves; [read_json w path] is
    [json.loads(path.read_text(encoding="utf-8"))] in the world [w]. *)
Variable World : Type.
Variable subprocess_run : World -> Command -> str -> str -> Z * World.
Variable read_json : World -> str -> result json.

(** [path / name] *)
Definition path_join (dir name : str) : str := (dir ++ cps "/" ++ name)%list.

Definition out_dir : str := path_join (path_join repo_dir (cps "data")) (cps "compare").

(** [v.get] exists for a dict only. *)
Definition as_dict (v : json) : result (gmap string json) :=
  match v with
  | JDict d => Ok d
  | _ => Raise (AttributeError ("'" ++ type_name v ++ "' object has no attribute 'get'"))
  end.

(** The row appended for [spec] once its artifact [payload] is read. *)
Definition row_of (spec : RunSpec) (run_out : str) (payload : json) : result Row :=
  p ← as_dict payload;
  s ← as_dict (py_or (dict_get p "summary") (JDict ∅));
  okc ← py_int (py_or (dict_get s "ok_calls") (JInt 0));
  tot ← py_int (py_or (dict_get s "total_calls") (JInt 0));
  rate ← py_float (py_or (dict_get s "ok_rate") (JFloat (Finite 0)));
  lat ← py_float (py_or (dict_get s "avg_latency_ms") (JFloat (Finite 0)));
  mret {| row_provider := provider spec;
          row_model := model spec;
          ok_calls := okc;
          total_calls := tot;
          ok_rate := rate;
          avg_latency_ms := lat;
          out := run_out |}.

Definition command_of (args : Args) (run_out : str) : Command :=
  {| cmd_python := python;
     cmd_script := path_join repo_dir (cps "eval.py");
     cmd_agent_base_url := agent_base_url args;
     cmd_num_tasks := num_tasks args;
     cmd_repeat := repeat args;
     cmd_timeout_seconds := timeout_seconds args;
     cmd_out := run_out;
     cmd_tasks_file := match tasks_file args with
                       | Some ((_ :: _) as f) => Some f
                       | _ => None
                       end |}.

(** [for spec in run_specs]: [rows] are the rows appended so far, [tr] the
    effects so far.  The loop ends with all the rows, or with the way
    [main] was left. *)
Fixpoint run_loop (args : Args) (run_specs : list RunSpec)
    (rows : list Row) (tr : list effect) (w : World)
  : (list Row + outcome) * list effect * World :=
  match run_specs with
  | [] => (inl rows, tr, w)
  | spec :: rest =>
      let run_out := path_join out_dir (slug unicode_lower spec ++ cps ".json")%list in
      let cmd := command_of args run_out in
      let '(returncode, w1) := subprocess_run w cmd (provider spec) (model spec) in
      let tr1 := (tr ++ [Run cmd (provider spec) (model spec)])%list in
      if negb (Z.eqb returncode 0) then (inr (SystemExit returncode), tr1, w1)
      else
        let tr2 := (tr1 ++ [ReadText run_out])%list in
        match payload ← read_json w1 run_out; row_of spec run_out payload with
        | Raise e => (inr (Uncaught e), tr2, w1)
        | Ok row => run_loop args rest (rows ++ [row])%list tr2 w1
        end
  end.

(** [main], once the command line is parsed into [args] and [run_specs]. *)
Definition main (args : Args) (run_specs : list RunSpec) (w : World)
  : outcome * list effect * World :=
  match run_loop args run_specs [] [Mkdir out_dir] w with
  | (inr ended, tr, w') => (ended, tr, w')
  | (inl summary_rows, tr, w') =>
      let summary_path := path_join out_dir (cps "compare_summary.json") in
      (Returned, (tr ++ [WriteText summary_path (sort_rows summary_rows)])%list, w')
  end.

End Main.

(** *** The vocabulary of the properties *)

(** The maximal runs of [s]: its division into blocks of consecutive
    characters that are all in the set [a-z0-9._-] or all outside it, no
    two neighbouring blocks being of the same kind.  A block is paired
    with its kind, [true] for "in the set". *)
Fixpoint runs (s : str) : list (bool * str) :=
  match s with
  | [] => []
  | c :: rest =>
      match runs rest with
      | (kind, block) :: more =>
          if Bool.eqb kind (in_set c) then (kind, c :: block) :: more
          else (in_set c, [c]) :: (kind, block) :: more
      | [] => [(in_set c, [c])]
      end
  end.

(** Every maximal run of characters outside the set collapsed to a single
    underscore, the other characters kept. *)
Definition collapse_runs (s : str) : str :=
  flat_map (fun b : bool * str => if fst b then snd b else [95%N]) (runs s).

(** Neighbouring blocks are of different kinds. *)
Fixpoint alternating (blocks : list (bool * str)) : Prop :=
  match blocks with
  | b1 :: (b2 :: _) as rest => fst b1 ≠ fst b2 ∧ alternating rest
  | _ => True
  end.

(** A block is not empty and all its characters are of its kind. *)
Definition uniform (b : bool * str) : Prop :=
  snd b ≠ [] ∧ Forall (fun c => in_set c = fst b) (snd b).

(** The sub-runs launched, in order, each by its provider and model. *)
Definition launches (tr : list effect) : list (str * str) :=
  omap (fun e => match e with
                 | Run _ p m => Some (p, m)
                 | _ => None
                 end) tr.

(** The files written, in order. *)
Definition writes (tr : list effect) : list str :=
  omap (fun e => match e with
                 | WriteText path _ => Some path
                 | _ => None
                 end) tr.

Definition keys (run_specs : list RunSpec) : list (str * str) :=
  map (fun spec => (provider spec, model spec)) run_specs.

Section Paths.
Variable unicode_lower : str -> N -> str -> str.
Variable repo_dir : str.

(** The artifact of the sub-run for [spec], and the summary file. *)
Definition run_out_of (spec : RunSpec) : str :=
  path_join (out_dir repo_dir) (slug unicode_lower spec ++ cps ".json")%list.

Definition summary_path : str := path_join (out_dir repo_dir) (cps "compare_summary.json").

End Paths.

(** *** Inputs for the examples *)

(** Scripted sub-runs for the examples: the world is the number of
    sub-runs launched so far, the sub-run number [k] exits with the entry
    [k] of [codes] (0 past its end), and every artifact reads as
    [payload]. *)
Definition scripted_subprocess (codes : list Z)
  : nat -> Command -> str -> str -> Z * nat :=
  fun k _ _ _ => (default 0 (codes !! k), S k).

Definition scripted_artifact (payload : json) : nat -> str -> result json :=
  fun _ _ => Ok payload.

(** A case mapping for the examples, which are all ASCII: it is never
    reached. *)
Definition no_unicode : str -> N -> str -> str := fun _ c _ => [c].

Definition example_args : Args :=
  {| agent_base_url := cps "http://127.0.0.1:5000";
     tasks_file := None;
     num_tasks := 5;
     repeat := 1;
     timeout_seconds := 30 |}.

Definition summary_artifact (okc tot : Z) (rate lat : Q) : json :=
  JDict {["summary" := JDict {["ok_calls" := JInt okc; "total_calls" := JInt tot;
                               "ok_rate" := JFloat (Finite rate);
                               "avg_latency_ms" := JFloat (Finite lat)]}]}.

(** *** The command line *)

(** [c.isspace()], which decides what [str.strip] removes: the white space
    of Unicode and the four separators [\x1c] to [\x1f]. *)
Definition is_space (c : N) : bool :=
  (N.leb 9 c && N.leb c 13) || (N.leb 28 c && N.leb c 32)
  || N.eqb c 133 || N.eqb c 160 || N.eqb c 5760
  || (N.leb 8192 c && N.leb c 8202)
  || N.eqb c 8232 || N.eqb c 8233 || N.eqb c 8239 || N.eqb c 8287 || N.eqb c 12288.

(** [s.lstrip()] and [s.strip()] *)
Fixpoint lstrip (s : str) : str :=
  match s with
  | c :: rest => if is_space c then lstrip rest else s
  | [] => []
  end.

Definition strip (s : str) : str := rev (lstrip (rev (lstrip s))).

(** [s.split(":", 1)] for a text with a colon: what is before the first
    colon and what is after it; [None] for a text without colon. *)
Fixpoint split_colon (s : str) : option (str * str) :=
  match s with
  | [] => None
  | c :: rest =>
      if N.eqb c 58 then Some ([], rest)
      else match split_colon rest with
           | Some (before, after) => Some (c :: before, after)
           | None => None
           end
  end.

Section CommandLine.
Context `{PyBuiltins}.
Variable unicode_lower : str -> N -> str -> str.
Variables (repo_dir python : str).
Variable World : Type.
Variable subprocess_run : World -> Command -> str -> str -> Z * World.
Variable read_json : World -> str -> result json.

(** [_parse_run]: the run specification, or the message of the
    [SystemExit] raised. *)
Definition _parse_run (raw : str) : str + RunSpec :=
  match split_colon raw with
  | None => inl (cps "Invalid run '" ++ raw ++ cps "'. Use provider:model")%list
  | Some (before, after) =>
      let provider := lower unicode_lower (strip before) in
      let model := strip after in
      match provider, model with
      | _ :: _, _ :: _ => inr {| provider := provider; model := model |}
      | _, _ => inl (cps "Invalid run '" ++ raw ++ cps "'")%list
      end
  end.

(** The loops over [args.runs] and over each group, [run_specs] being the
    specifications appended so far. *)
Fixpoint parse_group (group : list str) (run_specs : list RunSpec)
  : str + list RunSpec :=
  match group with
  | [] => inr run_specs
  | item :: rest =>
      match _parse_run item with
      | inl msg => inl msg
      | inr spec => parse_group rest (run_specs ++ [spec])%list
      end
  end.

Fixpoint parse_runs (runs : list (list str)) (run_specs : list RunSpec)
  : str + list RunSpec :=
  match runs with
  | [] => inr run_specs
  | group :: rest =>
      match parse_group group run_specs with
      | inl msg => inl msg
      | inr run_specs' => parse_runs rest run_specs'
      end
  end.

(** How the comparator ends, from its command line on: with the message
    of a [SystemExit] raised on a run that is not valid, or as [main]
    does on the parsed runs. *)
Inductive cli_outcome : Type :=
| InvalidRun (msg : str)
| Ended (how : outcome).

(** [main] from the parsed arguments [args] and the groups [runs] of
    [--runs] on. *)
Definition main_cli (args : Args) (runs : list (list str)) (w : World)
  : cli_outcome * list effect * World :=
  match parse_runs runs [] with
  | inl msg => (InvalidRun msg, [], w)
  | inr run_specs =>
      let '(how, tr, w') :=
        main unicode_lower repo_dir python World subprocess_run read_json
             args run_specs w in
      (Ended how, tr, w')
  end.

End CommandLine.

(** *** More vocabulary *)

(** A text without white space at either end. *)
Definition trimmed (s : str) : Prop :=
  match s with
  | [] => True
  | c :: _ => is_space c = false ∧ ∃ d, last s = Some d ∧ is_space d = false
  end.

(** A text of ASCII characters none of which is an upper case letter. *)
Definition ascii_lowercase (s : str) : Prop :=
  Forall (fun c => (c < 128)%N ∧ lower_ascii c = c) s.

(** The row has numbers for [ok_rate] and [avg_latency_ms]. *)
Definition finite_row (r : Row) : Prop :=
  ∃ a b, ok_rate r = Finite a ∧ avg_latency_ms r = Finite b.

(** The row [r1] ranks strictly before [r2]: the test [list.sort] makes on
    their keys. *)
Definition ranks_before (r1 r2 : Row) : Prop :=
  key_ltb (sort_key r1) (sort_key r2) = true.

(** The rows have the same rank. *)
Definition same_rank (r1 r2 : Row) : Prop :=
  key_ltb (sort_key r1) (sort_key r2) = false
  ∧ key_ltb (sort_key r2) (sort_key r1) = false.

#[global] Instance same_rank_dec (r1 r2 : Row) : Decision (same_rank r1 r2) :=
  and_dec (decide (key_ltb (sort_key r1) (sort_key r2) = false))
          (decide (key_ltb (sort_key r2) (sort_key r1) = false)).

(** The row that stands for a configuration whose artifact has no
    summary. *)
Definition zero_row (spec : RunSpec) (run_out : str) : Row :=
  {| row_provider := provider spec;
     row_model := model spec;
     ok_calls := 0;
     total_calls := 0;
     ok_rate := Finite 0;
     avg_latency_ms := Finite 0;
     out := run_out |}.

Section Effects.
Variable unicode_lower : str -> N -> str -> str.
Variable repo_dir : str.

(** The row is the one of [spec]. *)
Definition row_for (spec : RunSpec) (row : Row) : Prop :=
  row_provider row = provider spec ∧ row_model row = model spec
  ∧ out row = run_out_of unicode_lower repo_dir spec.

End Effects.

End Compare.

(** ** [compare_eval.py]: [main] with the failures of its surroundings

    [Compare.main] is [main] in surroundings where the directory can be
    made, the sub-runs launched, the summary written and the lines
    printed.  Here each of these operations may raise as well, as they do
    on a file system that refuses, a missing interpreter or a closed
    output. *)

Module CompareIO.
Import Py Compare.

(** What the comparator asks of the world around it, in the order it asks
    it; what raised is recorded as well. *)
Inductive effect : Type :=
| Mkdir (path : str)
| Print (text : str)
| Run (cmd : Command) (llm_provider openai_model : str)
| ReadText (path : str)
| WriteText (path : str) (runs : list Row).

Section Main.
Context `{PyBuiltins}.
Variable unicode_lower : str -> N -> str -> str.
Variables (repo_dir python : str).

(** The world: [mkdir w path] is [path.mkdir(parents=True, exist_ok=True)],
    [print w text] is [print(text)], [subprocess_run w cmd provider model]
    is [subprocess.run] with [LLM_PROVIDER] and [OPENAI_MODEL] set, which
    gives the return code, [read_json w path] is
    [json.loads(path.read_text(encoding="utf-8"))] and [write_text w path
    rows] is [path.write_text(json.dumps({"runs": rows}, indent=2),
    encoding="utf-8")]; each gives the exception when it raises. *)
Variable World : Type.
Variable mkdir : World -> str -> option exn * World.
Variable print : World -> str -> option exn * World.
Variable subprocess_run : World -> Command -> str -> str -> result Z * World.
Variable read_json : World -> str -> result json.
Variable write_text : World -> str -> list Row -> option exn * World.

(** The line printed for a row of the summary: the formatting of its
    floats is Python's. *)
Variable format_row : Row -> str.

Variable args : Args.

(** [f"\n=== RUN {spec.provider}:{spec.model} ==="] *)
Definition banner (spec : RunSpec) : str :=
  (10%N :: cps "=== RUN " ++ provider spec ++ cps ":" ++ model spec ++ cps " ===")%list.

(** The lines printed after the summary is written. *)
Definition summary_lines (rows : list Row) : list str :=
  ((10%N :: cps "=== Compare Summary ===") :: map format_row rows
   ++ [cps "wrote: " ++ summary_path repo_dir])%list.

(** [for spec in run_specs]: [rows] are the rows appended so far, [tr] the
    effects so far. *)
Fixpoint run_loop (run_specs : list RunSpec) (rows : list Row) (tr : list effect)
    (w : World) : (list Row + outcome) * list effect * World :=
  match run_specs with
  | [] => (inl rows, tr, w)
  | spec :: rest =>
      let run_out := run_out_of unicode_lower repo_dir spec in
      let cmd := command_of repo_dir python args run_out in
      let '(printed, w0) := print w (banner spec) in
      let tr0 := (tr ++ [Print (banner spec)])%list in
      match printed with
      | Some e => (inr (Uncaught e), tr0, w0)
      | None =>
          let '(ran, w1) := subprocess_run w0 cmd (provider spec) (model spec) in
          let tr1 := (tr0 ++ [Run cmd (provider spec) (model spec)])%list in
          match ran with
          | Raise e => (inr (Uncaught e), tr1, w1)
          | Ok returncode =>
              if negb (Z.eqb returncode 0) then (inr (SystemExit returncode), tr1, w1)
              else
                let tr2 := (tr1 ++ [ReadText run_out])%list in
                match payload ← read_json w1 run_out; row_of spec run_out payload with
                | Raise e => (inr (Uncaught e), tr2, w1)
                | Ok row => run_loop rest (rows ++ [row])%list tr2 w1
                end
          end
      end
  end.

(** The lines printed one after the other, up to the first that raises. *)
Fixpoint print_all (lines : list str) (tr : list effect) (w : World)
  : option exn * list effect * World :=
  match lines with
  | [] => (None, tr, w)
  | line :: rest =>
      let '(printed, w') := print w line in
      match printed with
      | Some e => (Some e, (tr ++ [Print line])%list, w')
      | None => print_all rest (tr ++ [Print line])%list w'
      end
  end.

(** [main], once the command line is parsed into [args] and [run_specs]. *)
Definition main (run_specs : list RunSpec) (w : World)
  : outcome * list effect * World :=
  let '(made, w0) := mkdir w (out_dir repo_dir) in
  match made with
  | Some e => (Uncaught e, [Mkdir (out_dir repo_dir)], w0)
  | None =>
      match run_loop run_specs [] [Mkdir (out_dir repo_dir)] w0 with
      | (inr ended, tr, w1) => (ended, tr, w1)
      | (inl summary_rows, tr, w1) =>
          let sorted := sort_rows summary_rows in
          let '(written, w2) := write_text w1 (summary_path repo_dir) sorted in
          let tr1 := (tr ++ [WriteText (summary_path repo_dir) sorted])%list in
          match written with
          | Some e => (Uncaught e, tr1, w2)
          | None =>
              match print_all (summary_lines sorted) tr1 w2 with
              | (Some e, tr2, w3) => (Uncaught e, tr2, w3)
              | (None, tr2, w3) => (Returned, tr2, w3)
              end
          end
      end
  end.

(** *** The vocabulary of the properties *)

(** The launch of the sub-run of [spec]. *)
Definition launch_of (spec : RunSpec) : effect :=
  Run (command_of repo_dir python args (run_out_of unicode_lower repo_dir spec))
      (provider spec) (model spec).

(** What the comparator does for a configuration whose sub-run exits with
    0: it prints the banner, launches the sub-run and reads its
    artifact. *)
Definition run_effects (spec : RunSpec) : list effect :=
  [Print (banner spec); launch_of spec; ReadText (run_out_of unicode_lower repo_dir spec)].

End Main.

(** The effects [Compare.main] records: those on the file system and the
    launches. *)
Definition file_effects (tr : list effect) : list Compare.effect :=
  omap (fun e => match e with
                 | Mkdir path => Some (Compare.Mkdir path)
                 | Print _ => None
                 | Run cmd a b => Some (Compare.Run cmd a b)
                 | ReadText path => Some (Compare.ReadText path)
                 | WriteText path rows => Some (Compare.WriteText path rows)
                 end) tr.

(** *** Inputs for the examples

    The world is the number of sub-runs launched so far; nothing raises
    but the launch of a sub-run past the end of [codes], the interpreter
    being missing then. *)
Definition quiet (w : nat) : option exn * nat := (None, w).

Definition scripted_launch (codes : list Z)
  : nat -> Command -> str -> str -> result Z * nat :=
  fun k _ _ _ =>
    (match codes !! k with
     | Some code => Ok code
     | None => Raise (mk_exn "FileNotFoundError" "[Errno 2] No such file or directory: 'python'")
     end, S k).

End CompareIO.

(** ** [agent.py] and [main.py]: the endpoints *)

Module Agent.
Import Py.

(** [GET /health] *)
Definition health : json := JDict {["status" := JStr "healthy"]}.

(** [POST /act]: the payload is ignored. *)
Definition act (payload : json) : json := JDict {["actions" := JList []]}.

(** [POST /step] *)
Definition step (payload : json) : json := act payload.

End Agent.

Module MainApp.
Import Py.

Section Act.

(** [BaseAction(type="ClickAction", x=0, y=0)] as the framework serialises
    it: the class comes from a library outside the repository. *)
Variable click_action : json.

(** [POST /act]: a list with one placeholder action. *)
Definition act (payload : json) : json := JList [click_action].

End Act.

End MainApp.

(** ** [pricing.py]: the price of a model and the cost of a call *)

Module Pricing.
Import Py Compare.

(** Prices, in USD for a million tokens. *)
Record ModelPrice : Type := mk_ModelPrice {
  input_per_1m : Q;
  output_per_1m : Q
}.

(** The table, in the order of the source. *)
Definition _PRICES : list (str * ModelPrice) :=
  [ (cps "gpt-5.2", mk_ModelPrice 1.75 14.00);
    (cps "gpt-5.2-pro", mk_ModelPrice 21.00 168.00);
    (cps "gpt-5-mini", mk_ModelPrice 0.25 2.00);
    (cps "gpt-4o", mk_ModelPrice 2.50 10.00);
    (cps "gpt-4o-mini", mk_ModelPrice 0.15 0.60);
    (cps "o4-mini", mk_ModelPrice 1.10 4.40);
    (cps "claude-opus-4-1", mk_ModelPrice 15.00 75.00);
    (cps "claude-opus-4", mk_ModelPrice 15.00 75.00);
    (cps "claude-sonnet-4", mk_ModelPrice 3.00 15.00);
    (cps "claude-sonnet-3-7", mk_ModelPrice 3.00 15.00);
    (cps "claude-haiku-3-5", mk_ModelPrice 0.80 4.00);
    (cps "claude-haiku-3", mk_ModelPrice 0.25 1.25);
    (cps "claude-opus-4-1-20250805", mk_ModelPrice 15.00 75.00);
    (cps "claude-opus-4-20250514", mk_ModelPrice 15.00 75.00);
    (cps "claude-sonnet-4-20250514", mk_ModelPrice 3.00 15.00);
    (cps "claude-haiku-4-20250514", mk_ModelPrice 1.00 5.00);
    (cps "claude-sonnet-4-5", mk_ModelPrice 3.00 15.00);
    (cps "claude-sonnet-4-5-20250929", mk_ModelPrice 3.00 15.00) ]%Q.

(** [_PRICES.keys()] and [_PRICES.get(m)] *)
Definition price_keys : list str := map fst _PRICES.

Fixpoint prices_get (table : list (str * ModelPrice)) (m : str) : option ModelPrice :=
  match table with
  | [] => None
  | (k, price) :: rest => if bool_decide (k = m) then Some price else prices_get rest m
  end.

(** [sorted(keys, key=len, reverse=True)]: the longest first, keys of a
    same length in the order they had.  Each key in turn is put before
    the first key that is strictly shorter. *)
Fixpoint insert_by_len (k : str) (sorted : list str) : list str :=
  match sorted with
  | [] => [k]
  | k' :: rest =>
      if Nat.ltb (length k') (length k) then k :: sorted
      else k' :: insert_by_len k rest
  end.

Definition sorted_by_len (keys : list str) : list str :=
  fold_left (fun sorted k => insert_by_len k sorted) keys [].

(** [m.startswith(pre)] *)
Fixpoint starts_with (pre m : str) : bool :=
  match pre, m with
  | [], _ => true
  | c :: pre', d :: m' => N.eqb c d && starts_with pre' m'
  | _ :: _, [] => false
  end.

(** [m == base or m.startswith(base + '-')] *)
Definition matches (m base : str) : bool :=
  bool_decide (m = base) || starts_with (base ++ cps "-")%list m.

(** The loop of [_normalize_model]: the first base that matches. *)
Fixpoint first_match (m : str) (bases : list str) : option str :=
  match bases with
  | [] => None
  | base :: rest => if matches m base then Some base else first_match m rest
  end.

Section Normalize.
Variable unicode_lower : str -> N -> str -> str.

(** [(model or '').strip().lower()], [model] being a text or [None]. *)
Definition clean (model : option str) : str :=
  lower unicode_lower (strip (default [] model)).

Definition _normalize_model (model : option str) : str :=
  let m := clean model in
  match first_match m (sorted_by_len price_keys) with
  | Some base => base
  | None => m
  end.

Definition price_for_model (model : option str) : option ModelPrice :=
  prices_get _PRICES (_normalize_model model).

(** The second component of what [estimate_cost_usd] returns. *)
Inductive details : Type :=
| UnknownModel (model : str) (prompt_tokens completion_tokens : Z)
| Priced (model : str) (prompt_tokens completion_tokens : Z)
         (input_per_1m output_per_1m : Q).

(** [n / 1_000_000.0]: the integer is converted to a float first. *)
Definition per_million (n : Z) : result Q :=
  if Z.ltb (Z.abs n) float_int_limit then Ok (inject_Z n / 1000000)%Q
  else Raise (OverflowError "int too large to convert to float").

Context `{PyBuiltins}.

(** [estimate_cost_usd]: the cost and the details.  ([str(model)] is the
    text itself, and [None] for [None].) *)
Definition estimate_cost_usd (model : option str) (usage : gmap string json)
  : result (Q * details) :=
  let p := price_for_model model in
  pt ← py_int (py_or (dict_get usage "prompt_tokens") (JInt 0));
  ct ← py_int (py_or (dict_get usage "completion_tokens") (JInt 0));
  match p with
  | None =>
      mret (0%Q, UnknownModel (default (cps "None") model) pt ct)
  | Some price =>
      a ← per_million pt;
      b ← per_million ct;
      mret ((a * input_per_1m price + b * output_per_1m price)%Q,
            Priced (_normalize_model model) pt ct
                   (input_per_1m price) (output_per_1m price))
  end.

End Normalize.

(** [usage.get(key) or 0], read with [int]. *)
Definition token_count `{PyBuiltins} (usage : gmap string json) (key : string) : result Z :=
  py_int (py_or (dict_get usage key) (JInt 0)).

(** An example of a usage: a million tokens in, two millions out. *)
Definition example_usage : gmap string json :=
  {[ "prompt_tokens" := JInt 1000000; "completion_tokens" := JInt 2000000 ]}.

(** The keys are sorted by decreasing length. *)
Fixpoint decreasing_len (keys : list str) : bool :=
  match keys with
  | k1 :: (k2 :: _) as rest => Nat.leb (length k2) (length k1) && decreasing_len rest
  | _ => true
  end.

End Pricing.

(** ** [llm_gateway.py]: calls through the gateway *)

Module Gateway.
Import Py Compare.

Definition OPENAI_BASE_URL_ENV : string := "OPENAI_BASE_URL".
Definition IWA_TASK_ID_HEADER : string := "IWA-Task-ID".

(** [s.rstrip("/")] *)
Fixpoint rstrip_slash (s : str) : str :=
  match s with
  | [] => []
  | c :: rest =>
      match rstrip_slash rest with
      | [] => if N.eqb c 47 then [] else [c]
      | kept => c :: kept
      end
  end.

(** [gateway_headers]: the headers, in the order they are set. *)
Definition gateway_headers (task_id : str) (api_key : option str) : list (string * str) :=
  ([("Content-Type", cps "application/json"); (IWA_TASK_ID_HEADER, task_id)]
   ++ match api_key with
      | Some ((_ :: _) as key) => [("Authorization", cps "Bearer " ++ key)]
      | _ => []
      end)%list.

(** What [client.post] returns: the status, the text of the body, and
    what [resp.json()] gives. *)
Record Response : Type := mk_Response {
  resp_status : Z;
  resp_text : str;
  resp_json : result json
}.

(** A request made: the address, the JSON body and the headers. *)
Record Request : Type := mk_Request {
  req_url : str;
  req_body : json;
  req_headers : list (string * str);
  req_timeout : Q
}.

(** How [chat_completions] fails: with one of its two [RuntimeError]s,
    [OPENAI_API_KEY not set and OPENAI_BASE_URL is not a local sandbox
    gateway] and [chat/completions failed (<status>): <snippet>], or with
    an exception of the client. *)
Inductive failure : Type :=
| MissingKey
| Failed (status : Z) (snippet : str)
| ClientError (e : exn).

Section Calls.
Variable unicode_lower : str -> N -> str -> str.

(** [httpx.URL(text).host], or the exception raised on a text that is not
    an address. *)
Variable url_host : str -> result str.

(** [os.getenv(name, default)] *)
Variable getenv : string -> option str.

(** [resp.raise_for_status()] raises for this status. *)
Variable is_error_status : Z -> bool.

(** The network: one POST, or the exception it raises. *)
Variable World : Type.
Variable client_post : World -> Request -> result Response * World.

Definition is_sandbox_gateway_base_url (base_url : option str) : bool :=
  match url_host (strip (default [] base_url)) with
  | Ok host =>
      let host := lower unicode_lower host in
      bool_decide (host ∈ [cps "sandbox-gateway"; cps "localhost"; cps "127.0.0.1"])
  | Raise _ => false
  end.

(** [not s] for a text *)
Definition is_empty (s : str) : bool :=
  match s with
  | [] => true
  | _ => false
  end.

(** [x or y] for texts, [None] and the empty text being false. *)
Definition text_or (x : option str) (y : str) : str :=
  match x with
  | Some ((_ :: _) as s) => s
  | _ => y
  end.

Definition resolve_base_url (base_url : option str) : str :=
  rstrip_slash
    (text_or base_url
       (default (cps "https://api.openai.com/v1") (getenv OPENAI_BASE_URL_ENV))).

Definition resolve_api_key (api_key : option str) : str :=
  match api_key with
  | Some key => key
  | None => default [] (getenv "OPENAI_API_KEY")
  end.

(** [chat_completions]: what it returns or how it fails, the requests it
    made, and the world it leaves. *)
Definition chat_completions (w : World) (task_id : str) (body : json)
    (base_url api_key : option str) (timeout_seconds : Q)
  : (failure + json) * list Request * World :=
  let resolved_base_url := resolve_base_url base_url in
  let resolved_api_key := resolve_api_key api_key in
  if is_empty resolved_api_key
     && negb (is_sandbox_gateway_base_url (Some resolved_base_url))
  then (inl MissingKey, [], w)
  else
    let headers :=
      gateway_headers task_id
        (if is_empty resolved_api_key then None else Some resolved_api_key) in
    let url := (resolved_base_url ++ cps "/chat/completions")%list in
    let request := {| req_url := url; req_body := body; req_headers := headers;
                      req_timeout := timeout_seconds |} in
    match client_post w request with
    | (Raise e, w') => (inl (ClientError e), [request], w')
    | (Ok resp, w') =>
        if is_error_status (resp_status resp)
        then (inl (Failed (resp_status resp) (take 300 (resp_text resp))), [request], w')
        else match resp_json resp with
             | Ok v => (inr v, [request], w')
             | Raise e => (inl (ClientError e), [request], w')
             end
    end.

End Calls.

(** Example inputs: every address is on the local host, no variable is
    set in the environment, the statuses from 400 on are errors, and the
    network (a world without state) answers every request with status 200
    and the body [null]. *)
Definition local_host (address : str) : result str := Ok (cps "localhost").
Definition empty_env (name : string) : option str := None.
Definition error_from_400 (status : Z) : bool := Z.leb 400 status.
Definition null_post (w : unit) (request : Request) : result Response * unit :=
  (Ok {| resp_status := 200; resp_text := cps "null"; resp_json := Ok JNull |}, w).

End Gateway.

(** * Properties *)

Module EvalProofs.
Import Py Eval.

(** ** Shape validation *)

Lemma action_okb_spec (a : json) : action_okb a = true ↔ action_ok a.
Proof.
  unfold action_ok. split.
  - destruct a as [| | | | |l|m]; simpl; try discriminate.
    intros Hb. exists m. split; [reflexivity|].
    unfold dict_get in Hb.
    destruct (m !! "type") as [[| | | |s| |]|]; simpl in Hb; try discriminate; eauto.
  - intros (m & -> & Hm). simpl. unfold dict_get.
    destruct Hm as [-> | [-> | [s ->]]]; reflexivity.
Qed.

Lemma check_actions_step_ok (idx : nat) (a : json) (rest : list json) :
  action_okb a = true → check_actions idx (a :: rest) = check_actions (S idx) rest.
Proof.
  destruct a as [| | | | |l|m]; simpl; try discriminate.
  intros Hb.
  destruct (is_none (dict_get m "type")), (is_str (dict_get m "type"));
    simpl in *; congruence.
Qed.

Lemma check_actions_step_bad (idx : nat) (a : json) (rest : list json) :
  action_okb a = false → check_actions idx (a :: rest) = (false, offending_msg idx a).
Proof.
  unfold offending_msg.
  destruct a as [| | | | |l|m]; simpl; try reflexivity.
  intros Hb.
  destruct (is_none (dict_get m "type")), (is_str (dict_get m "type"));
    simpl in *; congruence.
Qed.

Lemma check_actions_true (l : list json) (idx : nat) :
  check_actions idx l = (true, "ok") ↔ Forall action_ok l.
Proof.
  revert idx. induction l as [|a rest IH]; intros idx.
  - simpl. split; [constructor | reflexivity].
  - destruct (action_okb a) eqn:Ha.
    + rewrite (check_actions_step_ok _ _ _ Ha), IH.
      apply action_okb_spec in Ha.
      split; [intros Hr; constructor; assumption | intros Hr; inversion Hr; assumption].
    + rewrite (check_actions_step_bad _ _ _ Ha).
      split; [discriminate|].
      intros Hr. inversion Hr as [|? ? Hok _]; subst.
      apply action_okb_spec in Hok. congruence.
Qed.

Lemma check_actions_first_bad (l : list json) (idx i : nat) (a : json) :
  (∀ j b, (j < i)%nat → l !! j = Some b → action_ok b) →
  l !! i = Some a →
  ¬ action_ok a →
  check_actions idx l = (false, offending_msg (idx + i) a).
Proof.
  revert idx i. induction l as [|b rest IH]; intros idx i Hbefore Hi Hbad.
  - discriminate.
  - destruct i as [|i].
    + simpl in Hi. injection Hi as ->.
      rewrite Nat.add_0_r. apply check_actions_step_bad.
      destruct (action_okb a) eqn:Ha; [|reflexivity].
      apply action_okb_spec in Ha. contradiction.
    + rewrite check_actions_step_ok.
      * replace (idx + S i)%nat with (S idx + i)%nat by lia.
        apply IH; [|exact Hi|exact Hbad].
        intros j c Hj Hc. apply (Hbefore (S j) c); [lia | exact Hc].
      * apply action_okb_spec. apply (Hbefore 0%nat b); [lia | reflexivity].
Qed.

(** C4 (as amended): [_validate_actions_shape] answers [(true, "ok")]
    exactly on the objects whose [actions] is a list of objects, each with
    a [type] that is missing, null or a string, and never answers [true]
    with another message; on a value that is not an object the message
    carries the name of its type; when [actions] is missing or not a list
    the message is "missing or invalid 'actions' list"; otherwise the
    message names the position of the first offending element. *)
Theorem validate_actions_shape_spec (payload : json) :
  (_validate_actions_shape payload = (true, "ok") ↔ well_shaped payload)
  ∧ (fst (_validate_actions_shape payload) = true →
     snd (_validate_actions_shape payload) = "ok")
  ∧ (is_dict payload = false →
     _validate_actions_shape payload
     = (false, "response is not an object (" ++ type_name payload ++ ")"))
  ∧ (∀ d, payload = JDict d → is_list (dict_get d "actions") = false →
     _validate_actions_shape payload = (false, "missing or invalid 'actions' list"))
  ∧ (∀ d l i a, payload = JDict d → d !! "actions" = Some (JList l) →
     (∀ j b, (j < i)%nat → l !! j = Some b → action_ok b) →
     l !! i = Some a → ¬ action_ok a →
     _validate_actions_shape payload = (false, offending_msg i a)).
Proof.
  assert (Hiff : _validate_actions_shape payload = (true, "ok") ↔ well_shaped payload).
  { unfold well_shaped. split.
    - destruct payload as [| | | | |l|d]; simpl; try discriminate.
      unfold dict_get. destruct (d !! "actions") as [[| | | | |l|]|] eqn:Hd;
        simpl; try discriminate.
      intros Hc. exists d, l. repeat split; [exact Hd|].
      apply (check_actions_true l 0). exact Hc.
    - intros (d & l & -> & Hd & Hl). simpl. unfold dict_get. rewrite Hd. simpl.
      apply check_actions_true. exact Hl. }
  split; [exact Hiff|]. split; [|split; [|split]].
  - destruct (_validate_actions_shape payload) as [b msg] eqn:Hv. simpl.
    intros ->.
    assert (Hcase : ∀ l idx m, check_actions idx l = (true, m) → m = "ok").
    { induction l as [|a rest IH]; intros idx m.
      - simpl. congruence.
      - destruct (action_okb a) eqn:Ha.
        + rewrite (check_actions_step_ok _ _ _ Ha). apply IH.
        + rewrite (check_actions_step_bad _ _ _ Ha). discriminate. }
    destruct payload as [| | | | |l|d]; simpl in Hv; try discriminate.
    destruct (dict_get d "actions") as [| | | | |l|]; try discriminate.
    exact (Hcase _ _ _ Hv).
  - destruct payload; simpl; try reflexivity. discriminate.
  - intros d -> Hl. simpl.
    destruct (dict_get d "actions"); try reflexivity. discriminate.
  - intros d l i a -> Hd Hbefore Hi Hbad. simpl. unfold dict_get. rewrite Hd. simpl.
    apply (check_actions_first_bad l 0 i a Hbefore Hi Hbad).
Qed.

(** ** Loading tasks *)

Section LoadingFacts.
Context `{PyBuiltins}.

Lemma entries_from_cons_dict (i : nat) (d : gmap string json) (rest : list json) :
  entries_from i (JDict d :: rest) = (i, d) :: entries_from (S i) rest.
Proof. reflexivity. Qed.

Lemma entries_from_cons_other (i : nat) (v : json) (rest : list json) :
  is_dict v = false → entries_from i (v :: rest) = entries_from (S i) rest.
Proof. destruct v; simpl; try discriminate; reflexivity. Qed.

Lemma entries_from_length (i : nat) (data : list json) :
  length (entries_from i data) = count_objects data.
Proof.
  revert i. induction data as [|v rest IH]; intros i; [reflexivity|].
  unfold count_objects in *. destruct (is_dict v) eqn:Hv.
  - destruct v; try discriminate.
    rewrite entries_from_cons_dict, filter_cons_True by reflexivity.
    simpl. f_equal. apply IH.
  - rewrite (entries_from_cons_other _ _ _ Hv), filter_cons_False by congruence.
    apply IH.
Qed.

Lemma entries_from_lookup (data : list json) (i k : nat) (d : gmap string json) :
  (k, d) ∈ entries_from i data → ∃ j, k = (i + j)%nat ∧ data !! j = Some (JDict d).
Proof.
  revert i. induction data as [|v rest IH]; intros i Hin.
  - inversion Hin.
  - assert (Hrest : (k, d) ∈ entries_from (S i) rest →
                    ∃ j, k = (i + j)%nat ∧ (v :: rest) !! j = Some (JDict d)).
    { intros Hr. destruct (IH _ Hr) as (j & -> & Hj).
      exists (S j). split; [lia | exact Hj]. }
    destruct v; try (rewrite entries_from_cons_other in Hin by reflexivity; auto).
    rewrite entries_from_cons_dict in Hin.
    apply elem_of_cons in Hin as [Heq | Hr]; [|auto].
    injection Heq as -> ->. exists 0%nat. split; [lia | reflexivity].
Qed.

(** What [load_items] returns, when it returns: the tasks it was given,
    followed by one task for each object entry, in order. *)
Lemma load_items_ok (data : list json) (i : nat) (tasks out : list Task) :
  load_items i data tasks = Ok out
  ↔ ∃ ts, out = (tasks ++ ts)%list
          ∧ Forall2 (fun e t => task_of_item (fst e) (snd e) = Ok t) (entries_from i data) ts.
Proof.
  revert i tasks out. induction data as [|v rest IH]; intros i tasks out.
  - simpl. split.
    + intros [= <-]. exists []. rewrite app_nil_r. split; [reflexivity | constructor].
    + intros (ts & -> & Hts). inversion Hts. rewrite app_nil_r. reflexivity.
  - destruct (is_dict v) eqn:Hv.
    + destruct v; try discriminate. rewrite entries_from_cons_dict. simpl.
      destruct (task_of_item i d) as [t|e] eqn:Ht; simpl.
      * rewrite IH. split.
        -- intros (ts & -> & Hts). exists (t :: ts). split.
           ++ rewrite <- app_assoc. reflexivity.
           ++ constructor; assumption.
        -- intros (ts & -> & Hts). inversion Hts as [|? t' ? ts' Ht' Hts']; subst.
           simpl in Ht'. rewrite Ht in Ht'. injection Ht' as <-.
           exists ts'. split; [|assumption]. rewrite <- app_assoc. reflexivity.
      * split; [discriminate|].
        intros (ts & -> & Hts). inversion Hts as [|? t' ? ts' Ht' Hts']; subst.
        simpl in Ht'. congruence.
    + rewrite (entries_from_cons_other _ _ _ Hv).
      destruct v; try discriminate; simpl; apply IH.
Qed.

Lemma task_of_item_total (i : nat) (d : gmap string json) :
  step_index_readable d → ∃ t, task_of_item i d = Ok t.
Proof.
  intros [z Hz]. unfold task_of_item. rewrite Hz. simpl. eexists. reflexivity.
Qed.

Lemma tasks_of_entries (data : list json) (i : nat) :
  (∀ j d, data !! j = Some (JDict d) → step_index_readable d) →
  ∃ ts, Forall2 (fun e t => task_of_item (fst e) (snd e) = Ok t) (entries_from i data) ts.
Proof.
  intros Hread.
  assert (Hall : Forall (fun e => step_index_readable (snd e)) (entries_from i data)).
  { apply Forall_forall. intros [k d] Hin.
    destruct (entries_from_lookup _ _ _ _ Hin) as (j & _ & Hj). exact (Hread _ _ Hj). }
  induction Hall as [|e es He _ IH].
  - exists []. constructor.
  - destruct IH as [ts Hts]. destruct (task_of_item_total (fst e) _ He) as [t Ht].
    exists (t :: ts). constructor; assumption.
Qed.

(** C6 (as amended): when the file at [path] parses to a list of entries,
    directly or under the key [tasks], and [int()] accepts the
    [step_index] of every entry that is an object, [_load_tasks] returns
    one task for each object entry, in order, and nothing for the other
    entries: as many tasks as there are object entries. *)
Theorem load_tasks_skips_non_objects
    (read_json : string → result json) (p : string) (raw : json)
    (data : list json) (fallback_num_tasks : Z) :
  p ≠ "" →
  read_json p = Ok raw →
  tasks_data raw = Ok data →
  (∀ j d, data !! j = Some (JDict d) → step_index_readable d) →
  ∃ ts, _load_tasks read_json (Some p) fallback_num_tasks = Ok ts
        ∧ length ts = count_objects data
        ∧ Forall2 (fun e t => task_of_item (fst e) (snd e) = Ok t) (object_entries data) ts.
Proof.
  intros Hp Hraw Hdata Hread.
  destruct (tasks_of_entries data 0 Hread) as [ts Hts].
  exists ts. split; [|split].
  - unfold _load_tasks. destruct p as [|c p']; [congruence|].
    rewrite Hraw. simpl. rewrite Hdata. simpl.
    apply load_items_ok. exists ts. split; [reflexivity | exact Hts].
  - rewrite <- (entries_from_length 0 data). symmetry. exact (Forall2_length _ _ _ Hts).
  - exact Hts.
Qed.

Lemma tasks_data_bad (raw : json) :
  bad_top_level raw → tasks_data raw = Raise bad_tasks_file.
Proof.
  intros [Hl Hd]. destruct raw as [| | | | |l|d]; try reflexivity; [discriminate|].
  simpl. specialize (Hd d eq_refl).
  destruct (dict_get d "tasks"); try reflexivity. discriminate.
Qed.

(** C7 (as amended): when the tasks file parses to a value that is neither
    a list nor an object with a list under [tasks], [_load_tasks] raises
    [ValueError("tasks file must be a JSON list or {'tasks':[...]} object")]
    and returns no task; [main] ends with this exception before any call
    is made, the world being left as it was. *)
Theorem load_tasks_bad_shape
    (read_json : string → result json) (World : Type)
    (post_json : World → Q → string → Task → result (Z * json * Z) * World)
    (w : World) (args : Args) (p : string) (raw : json) :
  arg_tasks_file args = Some p →
  p ≠ "" →
  read_json p = Ok raw →
  bad_top_level raw →
  _load_tasks read_json (Some p) (arg_num_tasks args)
  = Raise (ValueError "tasks file must be a JSON list or {'tasks':[...]} object")
  ∧ main read_json World post_json w args
    = (Raise (ValueError "tasks file must be a JSON list or {'tasks':[...]} object"), w).
Proof.
  intros Hargs Hp Hraw Hbad.
  assert (Hload : _load_tasks read_json (Some p) (arg_num_tasks args) = Raise bad_tasks_file).
  { unfold _load_tasks. destruct p as [|c p']; [congruence|].
    rewrite Hraw. simpl. rewrite (tasks_data_bad _ Hbad). reflexivity. }
  split; [exact Hload|].
  unfold main. rewrite Hargs, Hload. reflexivity.
Qed.

Lemma text_field_read (d : gmap string json) (k fallback : string) :
  text_field d k fallback (py_str (py_or (dict_get d k) (JStr fallback))).
Proof.
  unfold text_field, py_or, dict_get. repeat split.
  - intros ->. reflexivity.
  - intros v -> Hv. simpl. rewrite Hv. reflexivity.
  - intros v -> Hv. simpl. rewrite Hv. reflexivity.
  - intros s -> Hs. simpl.
    destruct (String.eqb_spec s ""); [contradiction | reflexivity].
Qed.

Lemma task_of_item_reads (i : nat) (d : gmap string json) (t : Task) :
  task_of_item i d = Ok t → task_reads i d t.
Proof.
  unfold task_of_item.
  destruct (py_int (py_or (dict_get d "step_index") (JInt 0))) as [z|e] eqn:Hz;
    simpl; [|discriminate].
  intros [= <-]. unfold task_reads. simpl.
  repeat (split; [apply text_field_read|]). split.
  - unfold step_field. unfold py_or, dict_get in Hz. repeat split.
    + intros Hd. rewrite Hd in Hz. simpl in Hz. congruence.
    + intros v Hd Hv. rewrite Hd in Hz. simpl in Hz. rewrite Hv in Hz.
      simpl in Hz. congruence.
    + intros v Hd Hv. rewrite Hd in Hz. simpl in Hz. rewrite Hv in Hz. exact Hz.
  - unfold history_field, dict_get. repeat split.
    + intros ->. reflexivity.
    + intros v -> Hv. simpl. destruct v; try reflexivity. discriminate.
    + intros l ->. reflexivity.
Qed.

(** C8 (as amended): when [int()] accepts the [step_index] of every object
    entry of the file, [_load_tasks] returns, in order, the readings of
    the file's object entries, each at its position in the file:
    [task_id], [prompt], [url] and [snapshot_html] are [str()] of the
    entry's field, or the default ([task-<position>] for [task_id]) when
    the field is missing or false in Python's sense; [step_index] is
    [int()] of the field, or 0 when it is missing or false; [history] is
    the field when it is a list and empty otherwise. *)
Theorem load_tasks_fields
    (read_json : string → result json) (p : string) (raw : json)
    (data : list json) (fallback_num_tasks : Z) :
  p ≠ "" →
  read_json p = Ok raw →
  tasks_data raw = Ok data →
  (∀ j d, data !! j = Some (JDict d) → step_index_readable d) →
  ∃ ts, _load_tasks read_json (Some p) fallback_num_tasks = Ok ts
        ∧ Forall2 (fun e t => task_reads (fst e) (snd e) t) (object_entries data) ts.
Proof.
  intros Hp Hraw Hdata Hread.
  destruct (tasks_of_entries data 0 Hread) as [ts Hts].
  exists ts. split.
  - unfold _load_tasks. destruct p as [|c p']; [congruence|].
    rewrite Hraw. simpl. rewrite Hdata. simpl.
    apply load_items_ok. exists ts. split; [reflexivity | exact Hts].
  - eapply Forall2_impl; [exact Hts|].
    intros [i d] t. simpl. apply task_of_item_reads.
Qed.

End LoadingFacts.

(** ** The executor *)

Section ExecutorFacts.
Variable World : Type.
Variable post_json : World → Q → string → Task → result (Z * json * Z) * World.
Variables (timeout : Q) (base_url : string).

Abbreviation one_call' := (one_call World post_json).
Abbreviation calls := (Eval.calls World post_json timeout base_url).
Abbreviation episode_of_call :=
  (Eval.episode_of_call World post_json timeout base_url).

Lemma calls_app (s1 s2 : list (nat * nat * Task)) (w : World) :
  calls (s1 ++ s2) w
  = ((fst (calls s1 w) ++ fst (calls s2 (snd (calls s1 w))))%list,
     snd (calls s2 (snd (calls s1 w)))).
Proof.
  revert w. induction s1 as [|[[r idx] task] rest IH]; intros w.
  - simpl. destruct (calls s2 w). reflexivity.
  - simpl. rewrite IH. reflexivity.
Qed.

Lemma calls_length (sched : list (nat * nat * Task)) (w : World) :
  length (fst (calls sched w)) = length sched.
Proof.
  revert w. induction sched as [|[[r idx] task] rest IH]; intros w; simpl;
    [reflexivity | f_equal; apply IH].
Qed.

(** Each episode is the result of the call scheduled at its position. *)
Lemma calls_Forall2 (sched : list (nat * nat * Task)) (w : World) :
  Forall2 (fun (s : nat * nat * Task) ep =>
             ∃ w0, ep = fst (one_call' w0 timeout base_url (fst (fst s)) (snd (fst s)) (snd s)))
          sched (fst (calls sched w)).
Proof.
  revert w. induction sched as [|[[r idx] task] rest IH]; intros w; simpl.
  - constructor.
  - constructor; [exists w; reflexivity | apply IH].
Qed.

Lemma run_tasks_calls (tasks : list Task) (r : nat) (st : list CallResult * World) :
  run_tasks World post_json timeout base_url tasks r st
  = let sched := map (fun it : nat * Task => (r, fst it, snd it)) (enumerate tasks) in
    ((fst st ++ fst (calls sched (snd st)))%list, snd (calls sched (snd st))).
Proof.
  unfold run_tasks. generalize (enumerate tasks) as items.
  intros items. revert st. induction items as [|[idx task] rest IH]; intros [eps w].
  - simpl. rewrite app_nil_r. reflexivity.
  - simpl. destruct (one_call' w timeout base_url r idx task) as [ep w1] eqn:Hcall.
    rewrite IH. simpl. rewrite <- app_assoc. reflexivity.
Qed.

Lemma run_repeats_calls (tasks : list Task) (repeat : Z) (w : World) :
  run_repeats World post_json timeout base_url tasks repeat w
  = calls (schedule tasks repeat) w.
Proof.
  unfold run_repeats, schedule.
  assert (Hgen : ∀ (rs : list nat) (st : list CallResult * World),
             fold_left (fun st r => run_tasks World post_json timeout base_url tasks r st) rs st
             = let sched := flat_map
                     (fun r => map (fun it : nat * Task => (r, fst it, snd it)) (enumerate tasks))
                     rs in
               ((fst st ++ fst (calls sched (snd st)))%list, snd (calls sched (snd st)))).
  { induction rs as [|r rs IH]; intros [eps w0].
    - simpl. rewrite app_nil_r. reflexivity.
    - simpl. rewrite run_tasks_calls, IH. simpl. rewrite calls_app. simpl.
      rewrite <- app_assoc. reflexivity. }
  rewrite Hgen. simpl. destruct (calls _ w). reflexivity.
Qed.

Lemma run_eval_episodes (w : World) (tasks : list Task) (repeat : Z) :
  episodes (fst (run_eval World post_json w base_url tasks repeat timeout))
  = fst (calls (schedule tasks repeat) w).
Proof.
  unfold run_eval. rewrite run_repeats_calls.
  destruct (calls (schedule tasks repeat) w). reflexivity.
Qed.

Lemma enumerate_length {A : Type} (l : list A) : length (enumerate l) = length l.
Proof. unfold enumerate. rewrite length_zip_with, length_seq. lia. Qed.

Lemma schedule_length (tasks : list Task) (repeat : Z) :
  length (schedule tasks repeat) = (Z.to_nat (Z.max 1 repeat) * length tasks)%nat.
Proof.
  unfold schedule, range. generalize (Z.to_nat (Z.max 1 repeat)) as n.
  generalize 0%nat as start. intros start n. revert start.
  induction n as [|n IH]; intros start; simpl; [reflexivity|].
  rewrite length_app, length_map, enumerate_length, IH. reflexivity.
Qed.

Lemma enumerate_lookup {A : Type} (l : list A) (k i : nat) (x : A) :
  enumerate l !! k = Some (i, x) ↔ i = k ∧ l !! k = Some x.
Proof.
  unfold enumerate. rewrite lookup_zip_with_Some. split.
  - intros (i' & x' & [= <- <-] & Hi & Hx).
    apply lookup_seq in Hi as [-> _]. split; [reflexivity | exact Hx].
  - intros [-> Hx]. exists k, x. split; [reflexivity|]. split; [|exact Hx].
    apply lookup_seq. split; [reflexivity|]. apply lookup_lt_Some in Hx. exact Hx.
Qed.

(** The call at position [k] of the schedule is the one of task
    [k mod n] in repetition [k / n], [n] being the number of tasks. *)
Lemma schedule_lookup (tasks : list Task) (repeat : Z) (k r i : nat) (t : Task) :
  schedule tasks repeat !! k = Some (r, i, t)
  ↔ k = (r * length tasks + i)%nat ∧ (r < Z.to_nat (Z.max 1 repeat))%nat
    ∧ tasks !! i = Some t.
Proof.
  unfold schedule, range. generalize (Z.to_nat (Z.max 1 repeat)) as n. intros n.
  assert (Hgen : ∀ start k,
             flat_map (fun r => map (fun it : nat * Task => (r, fst it, snd it))
                                    (enumerate tasks)) (seq start n) !! k = Some (r, i, t)
             ↔ (k + start * length tasks = r * length tasks + i)%nat
               ∧ (start ≤ r < start + n)%nat ∧ tasks !! i = Some t).
  { clear k. induction n as [|n IH]; intros start k.
    - simpl. split; [discriminate | lia].
    - simpl. rewrite lookup_app_Some, IH.
      rewrite length_map, enumerate_length.
      change (map ?f ?l !! k) with ((f <$> l) !! k).
      rewrite list_lookup_fmap_Some. split.
      + intros [([i' t'] & Hit' & Hit) | (Hk & Hrest)].
        * simpl in Hit'. injection Hit' as -> -> ->.
          apply enumerate_lookup in Hit as [-> Ht]. split; [lia|].
          split; [lia | exact Ht].
        * destruct Hrest as (Heq & Hr & Ht). split; [nia|]. split; [lia | exact Ht].
      + intros (Heq & Hr & Ht). pose proof (lookup_lt_Some _ _ _ Ht) as Hi.
        destruct (decide (r = start)) as [-> | Hne].
        * left. exists (i, t). split; [reflexivity|].
          apply enumerate_lookup. split; [lia|]. replace k with i by lia. exact Ht.
        * right. split; [nia|]. split; [nia|]. split; [lia | exact Ht]. }
  rewrite Hgen. split; intros (Heq & Hr & Ht); repeat split; try lia; exact Ht.
Qed.

Lemma one_call_key (w : World) (r idx : nat) (task : Task) :
  episode_key (fst (one_call' w timeout base_url r idx task)) = (r, idx, task_id task).
Proof.
  unfold one_call. destruct (_call_act _ _ _ _ _ _) as [[call|e] w1].
  - destruct (_validate_actions_shape (call_body call)). reflexivity.
  - reflexivity.
Qed.

Lemma calls_keys (sched : list (nat * nat * Task)) (w : World) :
  map episode_key (fst (calls sched w))
  = map (fun s : nat * nat * Task => (fst (fst s), snd (fst s), task_id (snd s))) sched.
Proof.
  revert w. induction sched as [|[[r idx] task] rest IH]; intros w; simpl;
    [reflexivity|].
  rewrite one_call_key, IH. reflexivity.
Qed.

(** C2: a run makes its calls one after the other, one for each task of
    each of the [max(1, repeat)] repetitions, the repetitions in order
    and, within each, the tasks in the order given; the episodes are the
    results of these calls in this order: the episode at position [k] is
    the one of task [k mod n] in repetition [k / n], for [n] tasks.  For
    two tasks A, B and [repeat = 2] the order is A@0, B@0, A@1, B@1. *)
Theorem run_eval_order (w : World) (tasks : list Task) (repeat : Z) :
  let res := fst (run_eval World post_json w base_url tasks repeat timeout) in
  run_repeats World post_json timeout base_url tasks repeat w
  = calls (schedule tasks repeat) w
  ∧ map episode_key (episodes res)
    = flat_map (fun r => map (fun it : nat * Task => (r, fst it, task_id (snd it)))
                             (enumerate tasks))
               (seq 0 (Z.to_nat (Z.max 1 repeat)))
  ∧ length (episodes res) = (Z.to_nat (Z.max 1 repeat) * length tasks)%nat
  ∧ (∀ k ep, episodes res !! k = Some ep →
       ∃ t, (repeat_index ep < Z.to_nat (Z.max 1 repeat))%nat
            ∧ tasks !! task_index ep = Some t
            ∧ result_task_id ep = task_id t
            ∧ k = (repeat_index ep * length tasks + task_index ep)%nat)
  ∧ (∀ (A B : Task) (w0 : World),
       map episode_key
           (episodes (fst (run_eval World post_json w0 base_url [A; B] 2 timeout)))
       = [(0, 0, task_id A); (0, 1, task_id B); (1, 0, task_id A); (1, 1, task_id B)]%nat).
Proof.
  intros res. subst res. split; [apply run_repeats_calls|].
  rewrite run_eval_episodes. split; [|split; [|split]].
  - rewrite calls_keys. unfold schedule, range.
    generalize (seq 0 (Z.to_nat (Z.max 1 repeat))) as rs.
    induction rs as [|r rs IH]; simpl; [reflexivity|].
    rewrite map_app, map_map, IH. reflexivity.
  - rewrite calls_length. apply schedule_length.
  - intros k ep Hk. pose proof (calls_Forall2 (schedule tasks repeat) w) as Hall.
    destruct (Forall2_lookup_r _ _ _ _ _ Hall Hk) as ([[r i] t] & Hs & w0 & Hep).
    simpl in Hep. pose proof (one_call_key w0 r i t) as Hkey. rewrite <- Hep in Hkey.
    unfold episode_key in Hkey. injection Hkey as Hr Hi Ht.
    apply schedule_lookup in Hs as (Heq & Hlt & Htask).
    exists t. rewrite Hr, Hi. repeat split; assumption.
  - intros A B w0. rewrite run_eval_episodes, calls_keys. reflexivity.
Qed.

Lemma one_call_episode (w0 : World) (r idx : nat) (task : Task) :
  episode_of_call w0 task (fst (one_call' w0 timeout base_url r idx task)).
Proof.
  unfold Eval.episode_of_call, one_call.
  destruct (_call_act World post_json w0 timeout base_url task) as [[call|e] w1].
  - destruct (_validate_actions_shape (call_body call)) as [s_ok s_msg] eqn:Hv. simpl.
    split; [|split].
    + rewrite andb_true_iff, Z.eqb_eq. split.
      * intros [-> ->]. split; reflexivity.
      * intros [[= ->] [= ->]]. split; reflexivity.
    + intros call' w1' [= <- <-]. rewrite Hv. repeat split.
    + intros exc w1' [=].
  - simpl. split; [|split].
    + split; [discriminate | intros [[=] _]].
    + intros call w1' [=].
    + intros exc w1' [= <- <-]. repeat split.
Qed.

(** C1: in a run, the episode of every call has [ok] true exactly when
    the status is 200 and the shape validation passed; a call that raises
    leaves an episode with [ok] false and [error] set to [str] of the
    exception; and whatever the calls do, raising included, there is one
    episode for each task of each repetition: no call stops the run. *)
Theorem run_eval_partial_failure (w : World) (tasks : list Task) (repeat : Z) :
  let res := fst (run_eval World post_json w base_url tasks repeat timeout) in
  Forall2 (fun (s : nat * nat * Task) ep =>
             ∃ w0, ep = fst (one_call' w0 timeout base_url (fst (fst s)) (snd (fst s)) (snd s))
                   ∧ episode_of_call w0 (snd s) ep)
          (schedule tasks repeat) (episodes res)
  ∧ Forall (fun ep => (ok ep = true ↔ status ep = Some 200 ∧ shape_ok ep = Some true)
                      ∧ (is_Some (error ep) → ok ep = false))
           (episodes res)
  ∧ length (episodes res) = (Z.to_nat (Z.max 1 repeat) * length tasks)%nat.
Proof.
  intros res. subst res. rewrite run_eval_episodes.
  assert (Hall : Forall2 (fun (s : nat * nat * Task) ep =>
             ∃ w0, ep = fst (one_call' w0 timeout base_url (fst (fst s)) (snd (fst s)) (snd s))
                   ∧ episode_of_call w0 (snd s) ep)
          (schedule tasks repeat) (fst (calls (schedule tasks repeat) w))).
  { eapply Forall2_impl; [apply calls_Forall2|].
    intros [[r i] t] ep [w0 ->]. exists w0. split; [reflexivity|].
    apply one_call_episode. }
  split; [exact Hall|]. split.
  - apply Forall_forall. intros ep Hin.
    apply list_elem_of_lookup in Hin as [k Hk].
    destruct (Forall2_lookup_r _ _ _ _ _ Hall Hk) as (s & _ & w0 & _ & Hiff & Hok & Hraise).
    split; [exact Hiff|].
    intros Herr.
    destruct (_call_act World post_json w0 timeout base_url (snd s)) as [[call|exc] w1] eqn:Hc.
    + destruct (Hok _ _ eq_refl) as (_ & _ & _ & Hnone).
      rewrite Hnone in Herr. destruct Herr as [? [=]].
    + destruct (Hraise _ _ eq_refl) as (Hfalse & _). exact Hfalse.
  - rewrite calls_length. apply schedule_length.
Qed.

(** *** The summary *)

Lemma fold_add_shift (l : list Z) (a : Z) : fold_left Z.add l a = a + fold_left Z.add l 0.
Proof.
  revert a. induction l as [|x l IH]; intros a; simpl; [lia|].
  rewrite (IH (a + x)), (IH (0 + x)). lia.
Qed.

(** [sum_Z] is the sum of the list. *)
Lemma sum_Z_foldr (l : list Z) : sum_Z l = foldr Z.add 0 l.
Proof.
  unfold sum_Z. induction l as [|x l IH]; simpl; [reflexivity|].
  rewrite fold_add_shift, IH. reflexivity.
Qed.

Lemma sum_Z_ones {A : Type} (l : list A) :
  sum_Z (map (fun _ => 1) l) = Z.of_nat (length l).
Proof.
  rewrite sum_Z_foldr. induction l as [|x l IH]; simpl; [reflexivity|].
  rewrite IH. lia.
Qed.

Lemma round_half_even_near (x : Q) :
  (x - (1#2) <= inject_Z (round_half_even x) <= x + (1#2))%Q.
Proof.
  destruct x as [n d]. unfold round_half_even. simpl.
  pose proof (Z.div_mod n (Z.pos d) ltac:(lia)) as Hdm.
  pose proof (Z.mod_pos_bound n (Z.pos d) ltac:(lia)) as Hr.
  set (q := n / Z.pos d) in *. set (r := n mod Z.pos d) in *.
  assert (Hq : ∀ k, 2 * Z.abs (k * Z.pos d - n) <= Z.pos d →
             ((n # d) - (1#2) <= inject_Z k <= (n # d) + (1#2))%Q).
  { intros k Hk. unfold Qle, Qminus, Qplus, Qopp, inject_Z. simpl.
    rewrite !Pos2Z.inj_mul. split; nia. }
  destruct (Z.compare_spec (2 * r) (Z.pos d)) as [He|Hl|Hg].
  - destruct (Z.even q); apply Hq; nia.
  - apply Hq; nia.
  - apply Hq; nia.
Qed.

(** [round2 y] is a number of hundredths, at most half a hundredth away
    from [y]. *)
Lemma round2_near (y : Q) : (y - (1#200) <= round2 y <= y + (1#200))%Q.
Proof.
  pose proof (round_half_even_near (y * 100)) as [Hlo Hhi].
  unfold round2. set (k := round_half_even (y * 100)) in *.
  assert (Hk : (k # 100 == inject_Z k * (1 # 100))%Q).
  { unfold Qeq, Qmult, inject_Z. simpl. lia. }
  rewrite Hk. split; lra.
Qed.

(** ** Doubles *)

Section Doubles.
Local Open Scope Q_scope.

Lemma pow2_pos (e : Z) : 0 < pow2 e.
Proof. apply Qpower_0_lt. reflexivity. Qed.

Lemma pow2_add (a b : Z) : pow2 (a + b) == pow2 a * pow2 b.
Proof. apply Qpower_plus. discriminate. Qed.

Lemma pow2_le (a b : Z) : (a <= b)%Z -> pow2 a <= pow2 b.
Proof. intros H. apply Qpower_le_compat_l; [exact H | discriminate]. Qed.

Lemma pow2_lt_inv (a b : Z) : pow2 a < pow2 b -> (a < b)%Z.
Proof. intros H. apply (Qpower_lt_compat_l_inv 2); [exact H | reflexivity]. Qed.

Lemma pow2_Z (n : Z) : (0 <= n)%Z -> inject_Z (2 ^ n) == pow2 n.
Proof. intros H. apply Zpower_Qpower. exact H. Qed.

Lemma log2_bounds (n : Z) :
  (0 < n)%Z -> pow2 (Z.log2 n) <= inject_Z n /\ inject_Z n < pow2 (Z.log2 n + 1).
Proof.
  intros Hn. pose proof (Z.log2_spec n Hn) as [Hlo Hhi].
  pose proof (Z.log2_nonneg n) as H0.
  rewrite <- !pow2_Z by lia. rewrite <- Zle_Qle, <- Zlt_Qlt.
  replace (Z.log2 n + 1)%Z with (Z.succ (Z.log2 n)) by lia. split; assumption.
Qed.

Lemma floor_log2_spec (a : Q) :
  0 < a -> pow2 (floor_log2 a) <= a /\ a < pow2 (floor_log2 a + 1).
Proof.
  intros Ha. destruct a as [n d].
  assert (Hn : (0 < n)%Z) by (unfold Qlt in Ha; simpl in Ha; lia).
  destruct (log2_bounds n Hn) as [Hnlo Hnhi].
  destruct (log2_bounds (Z.pos d) eq_refl) as [Hdlo Hdhi].
  unfold floor_log2. simpl Qnum. simpl Qden.
  set (ln := Z.log2 n) in *. set (ld := Z.log2 (Z.pos d)) in *.
  assert (Hdpos : 0 < inject_Z (Z.pos d)) by reflexivity.
  assert (Hval : (n # d) * inject_Z (Z.pos d) == inject_Z n).
  { unfold Qeq, Qmult, inject_Z. simpl. lia. }
  assert (Hupper : n # d < pow2 (ln - ld + 1)).
  { apply (Qmult_lt_r _ _ _ Hdpos). rewrite Hval.
    apply Qlt_le_trans with (pow2 (ln + 1)); [exact Hnhi|].
    replace (ln + 1)%Z with ((ln - ld + 1) + ld)%Z by lia. rewrite pow2_add.
    apply Qmult_le_l; [apply pow2_pos | exact Hdlo]. }
  assert (Hlower : pow2 (ln - ld - 1) <= n # d).
  { apply (Qmult_le_r _ _ _ Hdpos). rewrite Hval.
    apply Qle_trans with (pow2 ln); [|exact Hnlo].
    replace ln with ((ln - ld - 1) + (ld + 1))%Z at 2 by lia. rewrite pow2_add.
    apply Qmult_le_l; [apply pow2_pos | apply Qlt_le_weak; exact Hdhi]. }
  destruct (Qle_bool (pow2 (ln - ld)) (n # d)) eqn:Htest.
  - apply Qle_bool_iff in Htest. split; assumption.
  - assert (Hlt : n # d < pow2 (ln - ld)).
    { apply Qnot_le_lt. intros Hle. apply Qle_bool_iff in Hle. congruence. }
    replace (ln - ld - 1 + 1)%Z with (ln - ld)%Z by lia. split; assumption.
Qed.

Lemma nearest_double_near (a : Q) :
  a - pow2 (quantum a) * (1#2) <= nearest_double a
  /\ nearest_double a <= a + pow2 (quantum a) * (1#2).
Proof.
  unfold nearest_double. set (P := pow2 (quantum a)).
  assert (HP : 0 < P) by apply pow2_pos.
  pose proof (round_half_even_near (a / P)) as [Hlo Hhi].
  set (m := inject_Z (round_half_even (a / P))) in *.
  assert (HP0 : ~ P == 0) by (intros H0; rewrite H0 in HP; discriminate).
  split.
  - apply Qle_trans with ((a / P - (1#2)) * P).
    + apply Qle_lteq. right. field. exact HP0.
    + apply Qmult_le_r; assumption.
  - apply Qle_trans with ((a / P + (1#2)) * P).
    + apply Qmult_le_r; assumption.
    + apply Qle_lteq. right. field. exact HP0.
Qed.

Lemma quantum_half (a : Q) :
  0 < a -> pow2 (quantum a) * (1#2) <= a * pow2 (-53) + pow2 (-1075).
Proof.
  intros Ha. destruct (floor_log2_spec a Ha) as [Hlo _].
  assert (H53 : 0 < pow2 (-53)) by apply pow2_pos.
  assert (H1075 : 0 < pow2 (-1075)) by apply pow2_pos.
  unfold quantum. destruct (Z.max_spec (floor_log2 a - 52) (-1074)) as [[_ ->] | [_ ->]].
  - assert (Heq : pow2 (-1074) * (1#2) == pow2 (-1075)) by reflexivity.
    rewrite Heq. assert (0 <= a * pow2 (-53)) by (apply Qmult_le_0_compat; lra). lra.
  - assert (Heq : pow2 (floor_log2 a - 52) * (1#2) == pow2 (floor_log2 a) * pow2 (-53)).
    { replace (floor_log2 a - 52)%Z with (floor_log2 a + (-52))%Z by lia.
      rewrite pow2_add. assert (H52 : pow2 (-52) * (1#2) == pow2 (-53)) by reflexivity.
      rewrite <- H52. ring. }
    rewrite Heq.
    assert (pow2 (floor_log2 a) * pow2 (-53) <= a * pow2 (-53))
      by (apply Qmult_le_r; assumption).
    lra.
Qed.

Lemma nearest_double_nonneg (a : Q) : 0 < a -> 0 <= nearest_double a.
Proof.
  intros Ha. unfold nearest_double. set (P := pow2 (quantum a)).
  assert (HP : 0 < P) by apply pow2_pos.
  apply Qmult_le_0_compat; [|lra].
  pose proof (round_half_even_near (a / P)) as [Hlo _].
  assert (Hq : 0 < a / P) by (apply Qlt_shift_div_l; lra).
  change 0 with (inject_Z 0). rewrite <- Zle_Qle.
  assert (Hm : - (1) < inject_Z (round_half_even (a / P))) by lra.
  change (- (1)) with (inject_Z (-1)) in Hm. rewrite <- Zlt_Qlt in Hm. lia.
Qed.

Lemma nearest_double_range (a : Q) :
  0 < a -> a < inject_Z (2 ^ 1024 - 2 ^ 970) -> nearest_double a <= max_double.
Proof.
  intros Ha Hlim. destruct (floor_log2_spec a Ha) as [Hlo Hhi].
  assert (Hlg : (floor_log2 a < 1024)%Z).
  { apply pow2_lt_inv. apply Qle_lt_trans with a; [exact Hlo|].
    apply Qlt_trans with (inject_Z (2 ^ 1024 - 2 ^ 970)); [exact Hlim | reflexivity]. }
  unfold nearest_double. set (e := quantum a). set (P := pow2 e).
  assert (HP : 0 < P) by apply pow2_pos.
  pose proof (round_half_even_near (a / P)) as [_ Hm].
  set (m := round_half_even (a / P)) in *.
  assert (He : (floor_log2 a - 52 <= e)%Z) by (subst e; unfold quantum; lia).
  assert (He' : (e <= 971)%Z) by (subst e; unfold quantum; lia).
  destruct (Z.eq_dec e 971%Z) as [E | NE].
  - assert (Hq : a / P < inject_Z (2 ^ 53) - (1#2)).
    { apply Qlt_shift_div_r; [exact HP|]. subst P. rewrite E.
      apply Qlt_le_trans with (inject_Z (2 ^ 1024 - 2 ^ 970)); [exact Hlim|].
      apply Qle_lteq. right. vm_compute. reflexivity. }
    assert (Hm' : inject_Z m < inject_Z (2 ^ 53)) by lra.
    rewrite <- Zlt_Qlt in Hm'.
    apply Qle_trans with (inject_Z (2 ^ 53 - 1) * P).
    + apply Qmult_le_r; [exact HP|]. rewrite <- Zle_Qle. lia.
    + subst P. rewrite E. apply Qle_lteq. right. vm_compute. reflexivity.
  - assert (Hq : a / P < inject_Z (2 ^ 53)).
    { apply Qlt_shift_div_r; [exact HP|].
      apply Qlt_le_trans with (pow2 (floor_log2 a + 1)); [exact Hhi|].
      apply Qle_trans with (pow2 (53 + e)); [apply pow2_le; lia|].
      subst P. rewrite pow2_add. apply Qmult_le_r; [apply pow2_pos|].
      apply Qle_lteq. right. vm_compute. reflexivity. }
    assert (Hm' : inject_Z m < inject_Z (2 ^ 53 + 1)).
    { apply Qle_lt_trans with (a / P + (1#2)); [exact Hm|].
      apply Qlt_le_trans with (inject_Z (2 ^ 53) + (1#2)); [lra|].
      vm_compute. discriminate. }
    rewrite <- Zlt_Qlt in Hm'.
    apply Qle_trans with (inject_Z (2 ^ 53) * pow2 970).
    + apply Qle_trans with (inject_Z (2 ^ 53) * P).
      * apply Qmult_le_r; [exact HP|]. rewrite <- Zle_Qle. lia.
      * apply Qmult_le_l; [reflexivity|]. subst P. apply pow2_le. lia.
    + vm_compute. discriminate.
Qed.

(** [to_double q] is within half a last place of [q]: a relative error of
    [2^-53], or [2^-1075] for the smallest magnitudes. *)
Lemma to_double_error (q : Q) :
  Qabs (to_double q - q) <= Qabs q * pow2 (-53) + pow2 (-1075).
Proof.
  destruct q as [[|n|n] d]; unfold to_double; simpl Qnum.
  - apply Qle_trans with 0; [apply Qle_lteq; right; reflexivity|].
    apply Qle_trans with (0 + 0); [discriminate|].
    apply Qplus_le_compat; [|apply Qlt_le_weak, pow2_pos].
    apply Qmult_le_0_compat; [apply Qabs_nonneg | apply Qlt_le_weak, pow2_pos].
  - assert (Ha : 0 < Z.pos n # d) by reflexivity.
    destruct (nearest_double_near (Z.pos n # d)) as [Hlo Hhi].
    pose proof (quantum_half _ Ha) as Hq.
    rewrite (Qabs_pos (Z.pos n # d)) by (apply Qlt_le_weak; exact Ha).
    apply Qabs_Qle_condition. split; lra.
  - assert (Ha : 0 < - (Z.neg n # d)) by reflexivity.
    destruct (nearest_double_near (- (Z.neg n # d))) as [Hlo Hhi].
    pose proof (quantum_half _ Ha) as Hq.
    rewrite (Qabs_neg (Z.neg n # d)) by discriminate.
    apply Qabs_Qle_condition. split; lra.
Qed.

(** Below the threshold of overflow, [to_double q] is a double. *)
Lemma to_double_range (q : Q) :
  Qabs q < inject_Z (2 ^ 1024 - 2 ^ 970) → Qabs (to_double q) <= max_double.
Proof.
  destruct q as [[|n|n] d]; unfold to_double; simpl Qnum; intros Hlim.
  - discriminate.
  - assert (Ha : 0 < Z.pos n # d) by reflexivity.
    rewrite (Qabs_pos (Z.pos n # d)) in Hlim by (apply Qlt_le_weak; exact Ha).
    rewrite Qabs_pos by (apply nearest_double_nonneg; exact Ha).
    apply nearest_double_range; assumption.
  - assert (Ha : 0 < - (Z.neg n # d)) by reflexivity.
    rewrite (Qabs_neg (Z.neg n # d)) in Hlim by discriminate.
    rewrite Qabs_opp. rewrite Qabs_pos by (apply nearest_double_nonneg; exact Ha).
    apply nearest_double_range; assumption.
Qed.

Lemma round2_abs (x : Q) : Qabs (round2 x) <= Qabs x + (1#200).
Proof.
  destruct (round2_near x) as [Hlo Hhi].
  apply Qabs_Qle_condition.
  pose proof (Qle_Qabs x) as H1. pose proof (Qle_Qabs (- x)) as H2.
  rewrite Qabs_opp in H2. split; lra.
Qed.

(** [round] on a double gives a double. *)
Lemma float_round2_range (x : Q) :
  Qabs x <= max_double → Qabs (float_round2 x) <= max_double.
Proof.
  intros Hx. apply to_double_range.
  apply Qle_lt_trans with (max_double + (1#200)); [|reflexivity].
  pose proof (round2_abs x). lra.
Qed.

(** The mean of integers of magnitude at most [M] is of magnitude at most
    [M]. *)
Lemma mean_abs (l : list Z) (M : Z) :
  l ≠ [] →
  Forall (fun x => (Z.abs x <= M)%Z) l →
  Qabs (inject_Z (foldr Z.add 0%Z l) / inject_Z (Z.of_nat (length l))) <= inject_Z M.
Proof.
  intros Hne Hall.
  assert (Hsum : (Z.abs (foldr Z.add 0 l) <= Z.of_nat (length l) * M)%Z).
  { clear Hne. induction Hall as [|x l Hx _ IH]; simpl foldr; simpl length; [lia|].
    rewrite Nat2Z.inj_succ. lia. }
  assert (Hn : (0 < Z.of_nat (length l))%Z) by (destruct l; [contradiction | simpl; lia]).
  set (n := Z.of_nat (length l)) in *. set (t := foldr Z.add 0%Z l) in *.
  assert (Hnq : 0 < inject_Z n) by (change 0 with (inject_Z 0); rewrite <- Zlt_Qlt; exact Hn).
  apply Qabs_Qle_condition. split.
  - apply Qle_shift_div_l; [exact Hnq|].
    rewrite <- inject_Z_opp, <- inject_Z_mult, <- Zle_Qle. lia.
  - apply Qle_shift_div_r; [exact Hnq|].
    rewrite <- inject_Z_mult, <- Zle_Qle. lia.
Qed.

End Doubles.

Lemma unit_ratio (a b : Z) :
  0 <= a <= b → 0 < b → (0 <= inject_Z a / inject_Z b <= 1)%Q.
Proof.
  intros Ha Hb.
  assert (Hb' : (0 < inject_Z b)%Q) by (rewrite (Zlt_Qlt 0 b) in Hb; exact Hb).
  split.
  - apply Qle_shift_div_l; [exact Hb'|]. rewrite Qmult_0_l.
    change 0%Q with (inject_Z 0). rewrite <- Zle_Qle. lia.
  - apply Qle_shift_div_r; [exact Hb'|]. rewrite Qmult_1_l. rewrite <- Zle_Qle. lia.
Qed.

Lemma run_eval_summary_eq (w : World) (tasks : list Task) (repeat : Z) :
  summary (fst (run_eval World post_json w base_url tasks repeat timeout))
  = summarize (episodes (fst (run_eval World post_json w base_url tasks repeat timeout))).
Proof.
  unfold run_eval.
  destruct (run_repeats World post_json timeout base_url tasks repeat w). reflexivity.
Qed.

(** C3: in the summary of a run, [total_calls] is the number of episodes,
    [ok_calls] the number of episodes with [ok] true, [ok_rate] their
    quotient, between 0 and 1; with no episode, which is the case of an
    empty task list, [ok_rate] and [avg_latency_ms] are both zero. *)
Theorem run_eval_summary (w : World) (tasks : list Task) (repeat : Z) :
  let res := fst (run_eval World post_json w base_url tasks repeat timeout) in
  total_calls (summary res) = Z.of_nat (length (episodes res))
  ∧ ok_calls (summary res)
    = Z.of_nat (length (filter (fun ep => ok ep = true) (episodes res)))
  ∧ (episodes res ≠ [] →
     (ok_rate (summary res)
      == inject_Z (ok_calls (summary res)) / inject_Z (total_calls (summary res)))%Q)
  ∧ (0 <= ok_rate (summary res) <= 1)%Q
  ∧ (episodes res = [] →
     (ok_rate (summary res) == 0)%Q ∧ (avg_latency_ms (summary res) == 0)%Q)
  ∧ (tasks = [] → episodes res = []).
Proof.
  intros res. subst res. rewrite run_eval_summary_eq.
  set (eps := episodes (fst (run_eval World post_json w base_url tasks repeat timeout))).
  assert (Hcount : sum_Z (map (fun _ => 1) (filter (fun ep => ok ep = true) eps))
                   = Z.of_nat (length (filter (fun ep => ok ep = true) eps)))
    by apply sum_Z_ones.
  split; [reflexivity|]. split; [exact Hcount|]. split; [|split; [|split]].
  - intros Hne. unfold summarize. simpl.
    destruct eps as [|ep eps']; [contradiction | reflexivity].
  - unfold summarize. simpl. destruct eps as [|ep eps'] eqn:Heps; [split; discriminate|].
    rewrite Hcount. apply unit_ratio; [|simpl; lia].
    split; [lia|]. apply Nat2Z.inj_le. apply length_filter.
  - intros ->. split; reflexivity.
  - intros ->. subst eps. rewrite run_eval_episodes. apply nil_length_inv.
    rewrite calls_length, schedule_length. simpl. lia.
Qed.

(** C10: [avg_latency_ms] is the mean, rounded to two decimals, of the
    latencies of all the episodes, an episode counting for its
    [elapsed_ms], and for 0 when it has none, as is the case of every
    episode whose call raised; the mean is over all the calls of the run.
    The mean is the double the division returns, within a relative error
    of [2^-53] of the exact quotient (and [2^-1075] for the smallest
    magnitudes); the value stored is the double nearest to a number of
    hundredths, which is at most half a hundredth away from that double.  With latencies in the range of the doubles,
    as those [int()] makes of a difference of clock readings are, neither
    the division nor the rounding overflows. *)
Theorem run_eval_avg_latency (w : World) (tasks : list Task) (repeat : Z) :
  let res := fst (run_eval World post_json w base_url tasks repeat timeout) in
  let mean := (inject_Z (foldr Z.add 0%Z (map latency_of (episodes res)))
               / inject_Z (Z.of_nat (length (episodes res))))%Q in
  (episodes res ≠ [] →
   avg_latency_ms (summary res) = float_round2 (to_double mean)
   ∧ (Qabs (to_double mean - mean) <= Qabs mean * pow2 (-53) + pow2 (-1075))%Q
   ∧ (∃ k : Z, avg_latency_ms (summary res) = to_double (k # 100)
               ∧ (to_double mean - (1#200) <= k # 100 <= to_double mean + (1#200))%Q
               ∧ (Qabs (avg_latency_ms (summary res) - (k # 100))
                  <= Qabs (k # 100) * pow2 (-53) + pow2 (-1075))%Q)
   ∧ (Forall (fun ep => Z.abs (latency_of ep) <= max_double_int) (episodes res) →
      (Qabs mean <= max_double)%Q
      ∧ (Qabs (to_double mean) <= max_double)%Q
      ∧ (Qabs (avg_latency_ms (summary res)) <= max_double)%Q))
  ∧ Forall (fun ep => (∀ ms, elapsed_ms ep = Some ms → latency_of ep = ms)
                      ∧ (elapsed_ms ep = None → latency_of ep = 0)
                      ∧ (is_Some (error ep) → elapsed_ms ep = None))
           (episodes res)
  ∧ length (episodes res) = (Z.to_nat (Z.max 1 repeat) * length tasks)%nat.
Proof.
  intros res mean. subst res mean. rewrite run_eval_summary_eq.
  set (eps := episodes (fst (run_eval World post_json w base_url tasks repeat timeout))).
  split; [|split].
  - intros Hne.
    set (mean := (inject_Z (foldr Z.add 0%Z (map latency_of eps))
                  / inject_Z (Z.of_nat (length eps)))%Q).
    assert (Havg : avg_latency_ms (summarize eps) = float_round2 (to_double mean)).
    { subst mean. unfold summarize. simpl. rewrite sum_Z_foldr.
      destruct eps as [|ep eps']; [contradiction | reflexivity]. }
    rewrite Havg. split; [reflexivity|]. split; [apply to_double_error|]. split.
    + exists (round_half_even (to_double mean * 100)).
      split; [reflexivity|]. split; [apply (round2_near (to_double mean))|].
      apply to_double_error.
    + intros Hrange.
      assert (Hmean : (Qabs mean <= max_double)%Q).
      { subst mean. rewrite <- (length_map latency_of eps).
        apply mean_abs; [destruct eps; [contradiction | discriminate]|].
        apply Forall_map. exact Hrange. }
      assert (Hdouble : (Qabs (to_double mean) <= max_double)%Q).
      { apply to_double_range. apply Qle_lt_trans with max_double; [exact Hmean|].
        reflexivity. }
      split; [exact Hmean|]. split; [exact Hdouble|].
      apply float_round2_range. exact Hdouble.
  - subst eps. rewrite run_eval_episodes.
    apply Forall_forall. intros ep Hin.
    apply list_elem_of_lookup in Hin as [k Hk].
    destruct (Forall2_lookup_r _ _ _ _ _ (calls_Forall2 (schedule tasks repeat) w) Hk)
      as ([[r i] t] & _ & w0 & ->).
    simpl. pose proof (one_call_episode w0 r i t) as (_ & Hok & Hraise).
    set (ep := fst (one_call' w0 timeout base_url r i t)) in *.
    unfold latency_of. split; [|split].
    + intros ms ->. reflexivity.
    + intros ->. reflexivity.
    + intros Herr.
      destruct (_call_act World post_json w0 timeout base_url t) as [[call|exc] w1] eqn:Hc.
      * destruct (Hok _ _ eq_refl) as (_ & _ & _ & Hnone).
        rewrite Hnone in Herr. destruct Herr as [? [=]].
      * destruct (Hraise _ _ eq_refl) as (_ & _ & _ & Hel). exact Hel.
  - subst eps. rewrite run_eval_episodes, calls_length. apply schedule_length.
Qed.

End ExecutorFacts.

(** ** The properties on concrete inputs *)

Section Concrete.
#[local] Existing Instance example_builtins.

Example default_tasks_at_least_one :
  map task_id (_default_tasks 0) = ["template-task-0"]
  ∧ map task_id (_default_tasks 3)
    = ["template-task-0"; "template-task-1"; "template-task-2"]
  ∧ map step_index (_default_tasks 3) = [0; 1; 2].
Proof. repeat split. Qed.

Example validate_empty_actions :
  _validate_actions_shape (JDict {["actions" := JList []]}) = (true, "ok").
Proof. reflexivity. Qed.

Example validate_missing_actions :
  _validate_actions_shape (JDict {["status" := JStr "healthy"]})
  = (false, "missing or invalid 'actions' list").
Proof. reflexivity. Qed.

Example validate_not_an_object :
  _validate_actions_shape JNull = (false, "response is not an object (NoneType)")
  ∧ _validate_actions_shape (JList [])
    = (false, "response is not an object (list)").
Proof. split; reflexivity. Qed.

(** An action whose [type] is null passes the validation, although its
    [type] is present and is not a string. *)
Lemma validate_accepts_null_type :
  _validate_actions_shape (JDict {["actions" := JList [JDict {["type" := JNull]}]]})
  = (true, "ok")
  ∧ ¬ well_shaped_strict (JDict {["actions" := JList [JDict {["type" := JNull]}]]}).
Proof.
  split; [reflexivity|].
  intros (d & l & [= <-] & Hl & Hall).
  vm_compute in Hl. injection Hl as <-.
  inversion Hall as [|a l' Ha _]; subst.
  destruct Ha as (m & Heq & Hm). injection Heq as <-.
  destruct (Hm JNull eq_refl) as [s [=]].
Qed.

Lemma validate_names_first_offender :
  _validate_actions_shape
    (JDict {["actions" := JList [JDict {["type" := JStr "click"]}; JInt 1; JNull]]})
  = (false, "actions[1] is not an object").
Proof.
  apply (proj2 (proj2 (proj2 (proj2 (validate_actions_shape_spec _))))
           {["actions" := JList [JDict {["type" := JStr "click"]}; JInt 1; JNull]]}
           [JDict {["type" := JStr "click"]}; JInt 1; JNull] 1%nat (JInt 1)).
  - reflexivity.
  - reflexivity.
  - intros [|j] b Hj Hb; [|lia]. injection Hb as <-.
    exists {["type" := JStr "click"]}. split; [reflexivity|].
    right. right. exists "click". reflexivity.
  - reflexivity.
  - intros (m & [=] & _).
Defined.

(** An object entry whose [step_index] [int()] refuses makes the loading
    fail, although the file has a list of two entries of which one is an
    object. *)
Lemma load_tasks_raises_on_step_index :
  tasks_data (JDict {["tasks" := JList [JDict {["step_index" := JList [JInt 1]]}; JInt 7]]})
  = Ok [JDict {["step_index" := JList [JInt 1]]}; JInt 7]
  ∧ (count_objects [JDict {["step_index" := JList [JInt 1]]}; JInt 7] = 1)%nat
  ∧ _load_tasks
      (fun _ => Ok (JDict {["tasks" := JList [JDict {["step_index" := JList [JInt 1]]}; JInt 7]]}))
      (Some "tasks.json") 5
    = Raise (TypeError
        "int() argument must be a string, a bytes-like object or a real number, not 'list'").
Proof. repeat split. Qed.

Lemma load_tasks_skips_witness :
  ∃ ts, _load_tasks
          (fun _ => Ok (JList [JDict {["task_id" := JStr "a"; "step_index" := JStr "12"]};
                               JInt 7; JDict ∅]))
          (Some "tasks.json") 5 = Ok ts
        ∧ length ts
          = count_objects [JDict {["task_id" := JStr "a"; "step_index" := JStr "12"]};
                           JInt 7; JDict ∅]
        ∧ Forall2 (fun e t => task_of_item (fst e) (snd e) = Ok t)
            (object_entries [JDict {["task_id" := JStr "a"; "step_index" := JStr "12"]};
                             JInt 7; JDict ∅])
            ts.
Proof.
  apply (load_tasks_skips_non_objects _ "tasks.json"
           (JList [JDict {["task_id" := JStr "a"; "step_index" := JStr "12"]};
                   JInt 7; JDict ∅])).
  - discriminate.
  - reflexivity.
  - reflexivity.
  - intros [|[|[|j]]] d Hj; simpl in Hj; try discriminate; injection Hj as <-.
    + exists 12. reflexivity.
    + exists 0. reflexivity.
Defined.

(** The exception raised on a file of the wrong shape does not carry the
    message "tasks file must be a JSON list or an object with a tasks
    list". *)
Lemma load_tasks_bad_shape_message :
  _load_tasks (fun _ => Ok (JDict ∅)) (Some "tasks.json") 5
  = Raise (ValueError "tasks file must be a JSON list or {'tasks':[...]} object")
  ∧ exn_msg (ValueError "tasks file must be a JSON list or {'tasks':[...]} object")
    ≠ "tasks file must be a JSON list or an object with a tasks list".
Proof. split; [reflexivity | discriminate]. Qed.

Lemma load_tasks_bad_shape_witness :
  _load_tasks (fun _ => Ok (JStr "tasks")) (Some "tasks.json") 5
  = Raise (ValueError "tasks file must be a JSON list or {'tasks':[...]} object")
  ∧ main (fun _ => Ok (JStr "tasks")) nat (scripted_post [])
         0%nat (mk_Args "http://127.0.0.1:5000" (Some "tasks.json") 5 1 30 "out.json")
    = (Raise (ValueError "tasks file must be a JSON list or {'tasks':[...]} object"), 0%nat).
Proof.
  apply (load_tasks_bad_shape (fun _ => Ok (JStr "tasks")) nat (scripted_post []) 0%nat
           (mk_Args "http://127.0.0.1:5000" (Some "tasks.json") 5 1 30 "out.json")
           "tasks.json" (JStr "tasks")).
  - reflexivity.
  - discriminate.
  - reflexivity.
  - split; [reflexivity | discriminate].
Defined.

(** An entry whose [prompt] is present, as the empty string, gets the
    default prompt; one whose [task_id] is the number 0 gets the default
    identifier. *)
Lemma load_tasks_defaults_present_field :
  ({["prompt" := JStr ""; "task_id" := JInt 0]} : gmap string json) !! "prompt"
  = Some (JStr "")
  ∧ ({["prompt" := JStr ""; "task_id" := JInt 0]} : gmap string json) !! "task_id"
    = Some (JInt 0)
  ∧ _load_tasks (fun _ => Ok (JList [JDict {["prompt" := JStr ""; "task_id" := JInt 0]}]))
                (Some "tasks.json") 5
    = Ok [ {| task_id := "task-0";
              prompt := "Template task";
              url := "https://example.com";
              snapshot_html := "<html></html>";
              step_index := 0;
              history := [] |} ].
Proof. repeat split. Qed.

Lemma load_tasks_fields_witness :
  ∃ ts, _load_tasks
          (fun _ => Ok (JList [JDict {["task_id" := JStr "a"; "step_index" := JStr "12"]};
                               JInt 7; JDict ∅]))
          (Some "tasks.json") 5 = Ok ts
        ∧ Forall2 (fun e t => task_reads (fst e) (snd e) t)
            (object_entries [JDict {["task_id" := JStr "a"; "step_index" := JStr "12"]};
                             JInt 7; JDict ∅])
            ts.
Proof.
  apply (load_tasks_fields _ "tasks.json"
           (JList [JDict {["task_id" := JStr "a"; "step_index" := JStr "12"]};
                   JInt 7; JDict ∅])).
  - discriminate.
  - reflexivity.
  - reflexivity.
  - intros [|[|[|j]]] d Hj; simpl in Hj; try discriminate; injection Hj as <-.
    + exists 12. reflexivity.
    + exists 0. reflexivity.
Defined.

Example example_run_episodes :
  map (fun ep => (episode_key ep, ok ep, status ep, elapsed_ms ep, error ep))
      (episodes example_run)
  = [((0, 0, "A")%nat, true, Some 200, Some 12, None);
     ((0, 1, "B")%nat, false, None, None, Some "");
     ((1, 0, "A")%nat, false, Some 500, Some 30, None);
     ((1, 1, "B")%nat, false, Some 200, Some 7, None)].
Proof. reflexivity. Qed.

Example example_run_summary :
  total_calls (summary example_run) = 4
  ∧ ok_calls (summary example_run) = 1
  ∧ (ok_rate (summary example_run) == 1 # 4)%Q
  ∧ (avg_latency_ms (summary example_run) == 1225 # 100)%Q.
Proof. repeat split. Qed.

Example round2_ties_to_even :
  round2 (1 # 8) = 12 # 100 ∧ round2 (3 # 8) = 38 # 100 ∧ round2 (- (1 # 8)) = (-12) # 100.
Proof. repeat split. Qed.

(** The doubles of some decimals, and [round(x, 2)] where the decimal is
    a tie but its double is not: 2.675 is stored below the tie and rounds
    to 2.67, 0.025 above it and rounds to 0.03; 0.125 is a double, and the
    tie goes to 0.12. *)
Example doubles_of_decimals :
  (to_double (1 # 10) == 3602879701896397 # 36028797018963968)%Q
  ∧ (to_double (107 # 40) == 3011782250804019 # 1125899906842624)%Q
  ∧ (to_double (107 # 40) < 107 # 40)%Q
  ∧ (to_double (1 # 40) > 1 # 40)%Q
  ∧ (to_double (1 # 8) == 1 # 8)%Q.
Proof. repeat split; vm_compute; reflexivity. Qed.

Example float_round2_near_ties :
  (float_round2 (to_double (107 # 40)) == to_double (267 # 100))%Q
  ∧ (float_round2 (to_double (1 # 40)) == to_double (3 # 100))%Q
  ∧ (float_round2 (to_double (1 # 8)) == to_double (12 # 100))%Q
  ∧ (float_round2 (to_double (- (1 # 40))) == to_double (- (3 # 100)))%Q.
Proof. vm_compute. repeat split. Qed.

(** Forty calls whose latencies sum to 107 ms: the mean is 2.675, and the
    value stored is the double of 2.67. *)
Example avg_latency_of_forty_calls :
  let ep ms := {| repeat_index := 0; task_index := 0; result_task_id := "A"; ok := true;
                  status := Some 200; elapsed_ms := Some ms; shape_ok := Some true;
                  shape_msg := Some "ok"; action_count := Some 0%nat; error := None |} in
  let eps := ep 29 :: map ep (List.repeat 2 39) in
  length eps = 40%nat
  ∧ foldr Z.add 0 (map latency_of eps) = 107
  ∧ (avg_latency_ms (summarize eps) == to_double (267 # 100))%Q.
Proof. vm_compute. repeat split. Qed.

(** Three tasks, once, against an agent that always answers
    [{"actions": []}] with status 200; and against one that always answers
    with status 500. *)
Example three_tasks_all_ok :
  let s := summary (fst (run_eval nat
                  (fun k _ _ _ => (Ok (200, JDict {["actions" := JList []]}, 5), S k))
                  0%nat "http://127.0.0.1:5000" (_default_tasks 3) 1 30)) in
  total_calls s = 3 ∧ ok_calls s = 3 ∧ (ok_rate s == 1)%Q ∧ (avg_latency_ms s == 5)%Q.
Proof. repeat split. Qed.

Example three_tasks_all_500 :
  let res := fst (run_eval nat
                  (fun k _ _ _ => (Ok (500, JDict {["actions" := JList []]}, 5), S k))
                  0%nat "http://127.0.0.1:5000" (_default_tasks 3) 1 30) in
  map (fun ep => (ok ep, status ep)) (episodes res)
  = [(false, Some 500); (false, Some 500); (false, Some 500)]
  ∧ (ok_rate (summary res) == 0)%Q.
Proof. repeat split. Qed.

Example empty_run_summary :
  summary empty_run
  = {| total_calls := 0; ok_calls := 0; ok_rate := 0; avg_latency_ms := 0 |}.
Proof. reflexivity. Qed.

Lemma run_eval_order_witness :
  ∃ t, (repeat_index example_episode < Z.to_nat (Z.max 1 2))%nat
       ∧ example_tasks !! task_index example_episode = Some t
       ∧ result_task_id example_episode = task_id t
       ∧ 2%nat = (repeat_index example_episode * length example_tasks
                  + task_index example_episode)%nat.
Proof.
  apply (proj1 (proj2 (proj2 (proj2
           (run_eval_order nat (scripted_post example_script) 30
              "http://127.0.0.1:5000/" 0%nat example_tasks 2))))
           2%nat example_episode).
  reflexivity.
Defined.

Lemma run_eval_summary_witness :
  (ok_rate (summary example_run)
   == inject_Z (ok_calls (summary example_run))
      / inject_Z (total_calls (summary example_run)))%Q
  ∧ ((ok_rate (summary empty_run) == 0)%Q ∧ (avg_latency_ms (summary empty_run) == 0)%Q)
  ∧ episodes empty_run = [].
Proof.
  split; [|split].
  - apply (proj1 (proj2 (proj2
             (run_eval_summary nat (scripted_post example_script) 30
                "http://127.0.0.1:5000/" 0%nat example_tasks 2)))).
    vm_compute. discriminate.
  - apply (proj1 (proj2 (proj2 (proj2 (proj2
             (run_eval_summary nat (scripted_post example_script) 30
                "http://127.0.0.1:5000/" 0%nat [] 3)))))).
    reflexivity.
  - apply (proj2 (proj2 (proj2 (proj2 (proj2
             (run_eval_summary nat (scripted_post example_script) 30
                "http://127.0.0.1:5000/" 0%nat [] 3)))))).
    reflexivity.
Defined.

Lemma run_eval_avg_latency_witness :
  let mean := (inject_Z (foldr Z.add 0%Z (map latency_of (episodes example_run)))
               / inject_Z (Z.of_nat (length (episodes example_run))))%Q in
  avg_latency_ms (summary example_run) = float_round2 (to_double mean)
  ∧ (Qabs (avg_latency_ms (summary example_run)) <= max_double)%Q.
Proof.
  intros mean.
  destruct (proj1 (run_eval_avg_latency nat (scripted_post example_script) 30
                     "http://127.0.0.1:5000/" 0%nat example_tasks 2))
    as (Havg & _ & _ & Hrange).
  - vm_compute. discriminate.
  - split; [exact Havg|]. apply Hrange.
    repeat (constructor; [vm_compute; discriminate|]). constructor.
Defined.

End Concrete.

End EvalProofs.

Module CompareProofs.
Import Py Compare.

(** ** The slug *)

Lemma runs_concat (s : str) : concat (map snd (runs s)) = s.
Proof.
  induction s as [|c rest IH]; [reflexivity|]. simpl.
  destruct (runs rest) as [|[kind block] more]; simpl in *.
  - rewrite <- IH. reflexivity.
  - destruct (Bool.eqb kind (in_set c)); simpl; rewrite <- IH; reflexivity.
Qed.

Lemma runs_uniform (s : str) : Forall uniform (runs s).
Proof.
  induction s as [|c rest IH]; [constructor|]. simpl.
  destruct (runs rest) as [|[kind block] more].
  - constructor; [|constructor]. split; [discriminate|]. repeat constructor.
  - inversion IH as [|? ? [Hne Hall] Hmore]; subst. simpl in *.
    destruct (Bool.eqb kind (in_set c)) eqn:Hk.
    + apply Bool.eqb_prop in Hk. constructor; [|exact Hmore].
      split; [discriminate|]. simpl. constructor; [congruence | exact Hall].
    + constructor; [|exact IH]. split; [discriminate|]. repeat constructor.
Qed.

Lemma runs_alternating (s : str) : alternating (runs s).
Proof.
  induction s as [|c rest IH]; [exact I|]. simpl.
  destruct (runs rest) as [|[kind block] more]; [exact I|].
  destruct (Bool.eqb kind (in_set c)) eqn:Hk.
  - destruct more as [|b2 more']; [exact I|]. exact IH.
  - split; [|exact IH]. simpl. intros Heq. rewrite Heq, Bool.eqb_reflx in Hk.
    discriminate.
Qed.

(** The scan of [re.sub] collapses the maximal runs: outside a match it
    yields [collapse_runs]; inside a match, the run in progress has
    already been replaced. *)
Lemma re_sub_from_runs (s : str) :
  re_sub_from false s = collapse_runs s
  ∧ re_sub_from true s
    = match runs s with
      | (false, _) :: more =>
          flat_map (fun b : bool * str => if fst b then snd b else [95%N]) more
      | _ => collapse_runs s
      end.
Proof.
  unfold collapse_runs. induction s as [|c rest [IHf IHt]]; [split; reflexivity|].
  simpl. destruct (in_set c) eqn:Hc.
  - rewrite IHf.
    assert (Hgoal : c :: flat_map (fun b : bool * str => if fst b then snd b else [95%N])
                                  (runs rest)
                    = flat_map (fun b : bool * str => if fst b then snd b else [95%N])
                        match runs rest with
                        | [] => [(true, [c])]
                        | (kind, block) :: more =>
                            if Bool.eqb kind true then (kind, c :: block) :: more
                            else (true, [c]) :: (kind, block) :: more
                        end).
    { destruct (runs rest) as [|[[|] block] more]; reflexivity. }
    split; [exact Hgoal|].
    rewrite Hgoal. destruct (runs rest) as [|[[|] block] more]; reflexivity.
  - rewrite IHt. destruct (runs rest) as [|[[|] block] more]; split; reflexivity.
Qed.

(** C9: the slug of a run specification is the text
    [<provider>__<model>], lowercased, with every maximal run of
    characters outside [a-z0-9._-] replaced by one underscore (the runs
    being the blocks of the division of the text into blocks of one kind,
    alternating in kind); for provider [OpenAI] and model [GPT 5.2!] it is
    [openai__gpt_5.2_]. *)
Theorem slug_collapses_runs (unicode_lower : str → N → str → str) (spec : RunSpec) :
  let text := lower unicode_lower (provider spec ++ cps "__" ++ model spec) in
  slug unicode_lower spec = collapse_runs text
  ∧ concat (map snd (runs text)) = text
  ∧ Forall uniform (runs text)
  ∧ alternating (runs text)
  ∧ Forall (fun c => in_set c = true) (slug unicode_lower spec)
  ∧ slug unicode_lower {| provider := cps "OpenAI"; model := cps "GPT 5.2!" |}
    = cps "openai__gpt_5.2_".
Proof.
  intros text. unfold slug. fold text. unfold re_sub.
  destruct (re_sub_from_runs text) as [Hsub _].
  split; [exact Hsub|]. split; [apply runs_concat|].
  split; [apply runs_uniform|]. split; [apply runs_alternating|]. split.
  - rewrite Hsub. unfold collapse_runs.
    pose proof (runs_uniform text) as Hu.
    induction Hu as [|[kind block] more [_ Hall] _ IH]; [constructor|].
    simpl. apply Forall_app. split; [|exact IH].
    destruct kind; [exact Hall | repeat constructor].
  - reflexivity.
Qed.

(** ** The comparator *)

Section MainFacts.
Local Open Scope list_scope.
Context `{PyBuiltins}.
Variable unicode_lower : str → N → str → str.
Variables (repo_dir python : str).
Variable World : Type.
Variable subprocess_run : World → Command → str → str → Z * World.
Variable read_json : World → str → result json.
Variable args : Args.

Abbreviation run_loop' :=
  (run_loop unicode_lower repo_dir python World subprocess_run read_json args).
Abbreviation main' :=
  (main unicode_lower repo_dir python World subprocess_run read_json args).
Abbreviation run_out_of := (Compare.run_out_of unicode_lower repo_dir).
Abbreviation summary_path := (Compare.summary_path repo_dir).

Lemma launches_app (t1 t2 : list effect) : launches (t1 ++ t2) = launches t1 ++ launches t2.
Proof. apply omap_app. Qed.

Lemma writes_app (t1 t2 : list effect) : writes (t1 ++ t2) = writes t1 ++ writes t2.
Proof. apply omap_app. Qed.

Lemma launches_mkdir (path : str) (tr : list effect) :
  launches (Mkdir path :: tr) = launches tr.
Proof. reflexivity. Qed.

Lemma writes_mkdir (path : str) (tr : list effect) :
  writes (Mkdir path :: tr) = writes tr.
Proof. reflexivity. Qed.

(** One turn of the loop. *)
Lemma run_loop_cons (spec : RunSpec) (rest : list RunSpec)
    (rows : list Row) (tr : list effect) (w : World) :
  run_loop' (spec :: rest) rows tr w
  = let cmd := command_of repo_dir python args (run_out_of spec) in
    let sub := subprocess_run w cmd (provider spec) (model spec) in
    let tr1 := tr ++ [Run cmd (provider spec) (model spec)] in
    if negb (Z.eqb (fst sub) 0) then (inr (SystemExit (fst sub)), tr1, snd sub)
    else
      match payload ← read_json (snd sub) (run_out_of spec);
            row_of spec (run_out_of spec) payload with
      | Raise e => (inr (Uncaught e), tr1 ++ [ReadText (run_out_of spec)], snd sub)
      | Ok row => run_loop' rest (rows ++ [row]) (tr1 ++ [ReadText (run_out_of spec)]) (snd sub)
      end.
Proof.
  simpl. unfold Compare.run_out_of.
  destruct (subprocess_run w _ (provider spec) (model spec)) as [returncode w1].
  reflexivity.
Qed.

(** What the loop does, however it ends: it launches the sub-runs of an
    initial part of the list, in order, and writes nothing; it ends with
    the rows only once all are launched, and with [SystemExit] only with a
    code that is not zero. *)
Lemma run_loop_trace (run_specs : list RunSpec) (rows : list Row) (tr : list effect)
    (w : World) (res : list Row + outcome) (tr' : list effect) (w' : World) :
  run_loop' run_specs rows tr w = (res, tr', w') →
  ∃ done n,
    tr' = tr ++ done
    ∧ writes done = []
    ∧ launches done = keys (take n run_specs)
    ∧ (∀ rows', res = inl rows' → launches done = keys run_specs)
    ∧ (∀ code, res = inr (SystemExit code) → code ≠ 0)
    ∧ res ≠ inr Returned.
Proof.
  revert rows tr w. induction run_specs as [|spec rest IH]; intros rows tr w.
  - simpl. intros [= <- <- <-]. exists [], 0%nat. rewrite app_nil_r.
    repeat split; try reflexivity; discriminate.
  - rewrite run_loop_cons. cbv zeta.
    set (cmd := command_of repo_dir python args (run_out_of spec)).
    destruct (subprocess_run w cmd (provider spec) (model spec)) as [returncode w1].
    simpl fst. simpl snd.
    destruct (Z.eqb_spec returncode 0) as [-> | Hcode]; simpl negb; cbv iota.
    + destruct (payload ← read_json w1 (run_out_of spec);
                row_of spec (run_out_of spec) payload) as [row|e].
      * intros Hloop. destruct (IH _ _ _ Hloop) as (done & n & -> & Hw & Hl & Hall & Hexit & Hret).
        exists ([Run cmd (provider spec) (model spec); ReadText (run_out_of spec)] ++ done),
               (S n).
        rewrite <- !app_assoc. split; [reflexivity|].
        rewrite writes_app, launches_app, Hw, Hl. simpl.
        repeat split; try assumption.
        intros rows' Hrows. rewrite <- (Hall _ Hrows), Hl. reflexivity.
      * intros [= <- <- <-].
        exists [Run cmd (provider spec) (model spec); ReadText (run_out_of spec)], 1%nat.
        rewrite <- app_assoc. simpl.
        repeat split; try reflexivity; discriminate.
    + intros [= <- <- <-].
      exists [Run cmd (provider spec) (model spec)], 1%nat. simpl.
      repeat split; try reflexivity; try discriminate.
      intros code [= <-]. exact Hcode.
Qed.

(** The loop over a list in two parts. *)
Lemma run_loop_app (before rest : list RunSpec) (rows : list Row) (tr : list effect)
    (w : World) :
  run_loop' (before ++ rest) rows tr w
  = match run_loop' before rows tr w with
    | (inl rows1, tr1, w1) => run_loop' rest rows1 tr1 w1
    | ended => ended
    end.
Proof.
  revert rows tr w. induction before as [|spec before IH]; intros rows tr w.
  - reflexivity.
  - change ((spec :: before) ++ rest) with (spec :: (before ++ rest)).
    rewrite !run_loop_cons. cbv zeta.
    destruct (negb _); [reflexivity|].
    destruct (payload ← read_json _ _; row_of spec (run_out_of spec) payload) as [row|e];
      [apply IH | reflexivity].
Qed.


End MainFacts.

(** ** The properties on concrete inputs *)

Section Concrete.
Local Open Scope list_scope.
#[local] Existing Instance Eval.example_builtins.

Example slug_examples :
  slug no_unicode {| provider := cps "openai"; model := cps "gpt-5.2" |}
  = cps "openai__gpt-5.2"
  ∧ slug no_unicode {| provider := cps "a b"; model := cps "x  //  y" |}
    = cps "a_b__x_y"
  ∧ slug no_unicode {| provider := cps "_!"; model := cps "" |} = cps "____".
Proof. repeat split. Qed.


(** Two configurations whose sub-runs both exit with 0: both are run, in
    order, and the summary is written once, the rows sorted by decreasing
    [ok_rate]. *)
Example compare_two_runs :
  let ended := main no_unicode (cps "/repo") (cps "python") nat
                    (scripted_subprocess [0; 0])
                    (fun k _ => Ok (if decide (k = 1%nat) then summary_artifact 3 5 (3 # 5) 20
                                    else summary_artifact 5 5 1 12))
                    example_args
                    [mk_RunSpec (cps "a") (cps "m1"); mk_RunSpec (cps "b") (cps "m2")]
                    0%nat in
  fst (fst ended) = Returned
  ∧ launches (snd (fst ended)) = [(cps "a", cps "m1"); (cps "b", cps "m2")]
  ∧ writes (snd (fst ended)) = [cps "/repo/data/compare/compare_summary.json"]
  ∧ last (snd (fst ended))
    = Some (WriteText (cps "/repo/data/compare/compare_summary.json")
              [ {| row_provider := cps "b"; row_model := cps "m2";
                   ok_calls := 5; total_calls := 5;
                   ok_rate := Finite 1; avg_latency_ms := Finite 12;
                   out := cps "/repo/data/compare/b__m2.json" |};
                {| row_provider := cps "a"; row_model := cps "m1";
                   ok_calls := 3; total_calls := 5;
                   ok_rate := Finite (3 # 5); avg_latency_ms := Finite 20;
                   out := cps "/repo/data/compare/a__m1.json" |} ]).
Proof. vm_compute. repeat split. Qed.

End Concrete.

End CompareProofs.

(** * Further properties of [eval.py] *)

Module EvalExtra.
Import Py Eval EvalProofs.

(** ** The default tasks *)

Lemma str_of_Z_inj (a b : Z) : str_of_Z a = str_of_Z b → a = b.
Proof.
  unfold str_of_Z. intros Heq. apply DecimalZ.to_int_inj.
  assert (Hs : Some (Z.to_int a) = Some (Z.to_int b)).
  { rewrite <- !NilEmpty.isi. rewrite Heq. reflexivity. }
  injection Hs as Hs. exact Hs.
Qed.

Lemma str_of_nat_inj (a b : nat) : str_of_nat a = str_of_nat b → a = b.
Proof. unfold str_of_nat. intros Heq. apply str_of_Z_inj in Heq. lia. Qed.

Lemma append_inj_r (p a b : string) : p ++ a = p ++ b → a = b.
Proof. induction p as [|c p IH]; simpl; [auto | intros [= Heq]; auto]. Qed.

Lemma default_tasks_lookup (n : Z) (i : nat) (t : Task) :
  _default_tasks n !! i = Some t ↔
  (i < Z.to_nat (Z.max 1 n))%nat
  ∧ t = {| task_id := "template-task-" ++ str_of_nat i;
           prompt := "Template task for /act schema validation";
           url := "https://example.com";
           snapshot_html := "<html><body><button>Continue</button></body></html>";
           step_index := Z.of_nat i;
           history := [] |}.
Proof.
  unfold _default_tasks, range.
  change (map ?f ?l !! i) with ((f <$> l) !! i).
  rewrite list_lookup_fmap_Some. split.
  - intros (k & -> & Hk). apply lookup_seq in Hk as [-> Hlt]. simpl. split; [lia | reflexivity].
  - intros [Hlt ->]. exists i. split; [reflexivity|]. apply lookup_seq. split; [reflexivity | lia].
Qed.

(** X1: [_default_tasks] makes [max(1, num_tasks)] tasks, so at least one;
    the task at position [i] is the template task [template-task-<i>] with
    [step_index] [i] and an empty history; the identifiers are pairwise
    distinct; and [_load_tasks] returns these tasks, whatever the file
    system holds, when the path is absent or empty. *)
Theorem default_tasks_spec `{PyBuiltins} (num_tasks : Z) :
  length (_default_tasks num_tasks) = Z.to_nat (Z.max 1 num_tasks)
  ∧ (1 ≤ length (_default_tasks num_tasks))%nat
  ∧ (∀ i t, _default_tasks num_tasks !! i = Some t →
       task_id t = "template-task-" ++ str_of_nat i
       ∧ step_index t = Z.of_nat i ∧ history t = []
       ∧ prompt t = "Template task for /act schema validation"
       ∧ url t = "https://example.com"
       ∧ snapshot_html t = "<html><body><button>Continue</button></body></html>")
  ∧ NoDup (map task_id (_default_tasks num_tasks))
  ∧ (∀ read_json, _load_tasks read_json None num_tasks = Ok (_default_tasks num_tasks)
                  ∧ _load_tasks read_json (Some "") num_tasks
                    = Ok (_default_tasks num_tasks)).
Proof.
  assert (Hlen : length (_default_tasks num_tasks) = Z.to_nat (Z.max 1 num_tasks)).
  { unfold _default_tasks, range. rewrite length_map, length_seq. reflexivity. }
  split; [exact Hlen|]. split; [lia|]. split; [|split].
  - intros i t Hi. apply default_tasks_lookup in Hi as [_ ->]. repeat split.
  - unfold _default_tasks. rewrite map_map. simpl.
    assert (Hinj : Inj (=) (=) (fun i : nat => "template-task-" ++ str_of_nat i)).
    { intros a b Heq. apply append_inj_r in Heq. apply str_of_nat_inj. exact Heq. }
    apply (NoDup_fmap_2 _). apply NoDup_seq.
  - intros read_json. split; reflexivity.
Qed.

(** ** Loading: the entry that makes it fail *)

Section LoadingFailure.
Context `{PyBuiltins}.

Lemma task_of_item_raise (i : nat) (d : gmap string json) (e : exn) :
  task_of_item i d = Raise e
  ↔ py_int (py_or (dict_get d "step_index") (JInt 0)) = Raise e.
Proof.
  unfold task_of_item.
  destruct (py_int (py_or (dict_get d "step_index") (JInt 0))) as [z|e']; simpl.
  - split; discriminate.
  - split; intros [= ->]; reflexivity.
Qed.

Lemma load_items_first_failure (data : list json) (i : nat) (tasks : list Task)
    (j : nat) (d : gmap string json) (e : exn) :
  data !! j = Some (JDict d) →
  task_of_item (i + j) d = Raise e →
  (∀ j' d', (j' < j)%nat → data !! j' = Some (JDict d') → step_index_readable d') →
  load_items i data tasks = Raise e.
Proof.
  revert i tasks j. induction data as [|v rest IH]; intros i tasks j Hj He Hbefore.
  - discriminate.
  - destruct j as [|j].
    + simpl in Hj. injection Hj as ->. rewrite Nat.add_0_r in He. simpl.
      rewrite He. reflexivity.
    + assert (Hrest : ∀ tasks', load_items (S i) rest tasks' = Raise e).
      { intros tasks'. apply (IH (S i) tasks' j).
        - exact Hj.
        - replace (S i + j)%nat with (i + S j)%nat by lia. exact He.
        - intros j' d' Hlt Hd'. apply (Hbefore (S j') d'); [lia | exact Hd']. }
      destruct v; simpl; try apply Hrest.
      destruct (task_of_item_total i d0 (Hbefore 0%nat d0 ltac:(lia) eq_refl)) as [t Ht].
      rewrite Ht. simpl. apply Hrest.
Qed.

Lemma load_items_raise (data : list json) (i : nat) (tasks : list Task) (e : exn) :
  load_items i data tasks = Raise e →
  ∃ j d, data !! j = Some (JDict d) ∧ task_of_item (i + j) d = Raise e.
Proof.
  revert i tasks. induction data as [|v rest IH]; intros i tasks; [discriminate|].
  assert (Hrest : ∀ tasks', load_items (S i) rest tasks' = Raise e →
            ∃ j d, (v :: rest) !! j = Some (JDict d) ∧ task_of_item (i + j) d = Raise e).
  { intros tasks' Hl. destruct (IH _ _ Hl) as (j & d & Hj & He).
    exists (S j), d. split; [exact Hj|].
    replace (i + S j)%nat with (S i + j)%nat by lia. exact He. }
  destruct v; simpl; try apply Hrest.
  destruct (task_of_item i d) as [t|e'] eqn:Ht; simpl; [apply Hrest|].
  intros [= ->]. exists 0%nat, d. rewrite Nat.add_0_r. split; [reflexivity | exact Ht].
Qed.

(** X2: when the file parses to a list of entries and [int()] refuses the
    [step_index] of an object entry, [_load_tasks] raises the exception of
    the first such entry in the file, and returns no task, not even those
    of the entries before it; and [_load_tasks] raises, on such a file,
    only an exception [int()] raised on the [step_index] of an object
    entry. *)
Theorem load_tasks_first_failure
    (read_json : string → result json) (p : string) (raw : json)
    (data : list json) (fallback_num_tasks : Z)
    (j : nat) (d : gmap string json) (e : exn) :
  p ≠ "" →
  read_json p = Ok raw →
  tasks_data raw = Ok data →
  data !! j = Some (JDict d) →
  py_int (py_or (dict_get d "step_index") (JInt 0)) = Raise e →
  (∀ j' d', (j' < j)%nat → data !! j' = Some (JDict d') → step_index_readable d') →
  _load_tasks read_json (Some p) fallback_num_tasks = Raise e
  ∧ (∀ e', _load_tasks read_json (Some p) fallback_num_tasks = Raise e' →
       ∃ k dk, data !! k = Some (JDict dk)
               ∧ py_int (py_or (dict_get dk "step_index") (JInt 0)) = Raise e').
Proof.
  intros Hp Hraw Hdata Hj He Hbefore.
  assert (Hload : _load_tasks read_json (Some p) fallback_num_tasks = load_items 0 data []).
  { unfold _load_tasks. destruct p as [|c p']; [congruence|].
    rewrite Hraw. simpl. rewrite Hdata. reflexivity. }
  rewrite Hload. split.
  - apply (load_items_first_failure data 0 [] j d e Hj); [|exact Hbefore].
    apply task_of_item_raise. exact He.
  - intros e' He'. destruct (load_items_raise _ _ _ _ He') as (k & dk & Hk & Hek).
    exists k, dk. split; [exact Hk|]. apply task_of_item_raise in Hek. exact Hek.
Qed.

End LoadingFailure.

(** ** The address of the call *)

Lemma rstrip_slash_slashes (k : nat) : rstrip_slash (slashes k) = "".
Proof. induction k as [|k IH]; simpl; [reflexivity | rewrite IH; reflexivity]. Qed.

Lemma rstrip_slash_app_slashes (s : string) (k : nat) :
  rstrip_slash (s ++ slashes k) = rstrip_slash s.
Proof.
  induction s as [|c rest IH]; simpl; [apply rstrip_slash_slashes|].
  rewrite IH. reflexivity.
Qed.

Lemma rstrip_slash_decomp (s : string) : ∃ k, s = rstrip_slash s ++ slashes k.
Proof.
  induction s as [|c rest [k IH]]; [exists 0%nat; reflexivity|]. simpl.
  destruct (rstrip_slash rest) as [|c' kept] eqn:Hr.
  - destruct (Ascii.eqb_spec c "/"%char) as [-> | Hc].
    + exists (S k). etransitivity; [apply (f_equal (String "/"%char) IH) | reflexivity].
    + exists k. etransitivity; [apply (f_equal (String c) IH) | reflexivity].
  - exists k. etransitivity; [apply (f_equal (String c) IH) | reflexivity].
Qed.

Lemma rstrip_slash_no_trailing (s : string) : ends_with_slash (rstrip_slash s) = false.
Proof.
  induction s as [|c rest IH]; [reflexivity|]. simpl.
  destruct (rstrip_slash rest) as [|c' kept] eqn:Hr.
  - destruct (Ascii.eqb_spec c "/"%char) as [-> | Hc]; [reflexivity|].
    simpl. apply Ascii.eqb_neq. exact Hc.
  - exact IH.
Qed.

(** X3: [_call_act] posts to the base address without its trailing
    slashes, followed by [/act]: the base address is what is kept followed
    by slashes only, what is kept does not end with a slash, and adding
    slashes at the end of the base address changes nothing to the call. *)
Theorem call_act_ignores_trailing_slashes
    (World : Type) (post_json : World → Q → string → Task → result (Z * json * Z) * World)
    (w : World) (timeout : Q) (base_url : string) (k : nat) (payload : Task) :
  _call_act World post_json w timeout (base_url ++ slashes k) payload
  = _call_act World post_json w timeout base_url payload
  ∧ (∃ n, base_url = rstrip_slash base_url ++ slashes n)
  ∧ ends_with_slash (rstrip_slash base_url) = false
  ∧ match fst (post_json w timeout (rstrip_slash base_url ++ "/act") payload) with
    | Ok r =>
        fst (_call_act World post_json w timeout base_url payload)
        = Ok {| call_status := fst (fst r); call_elapsed_ms := snd r;
                call_body := snd (fst r) |}
    | Raise e => fst (_call_act World post_json w timeout base_url payload) = Raise e
    end.
Proof.
  split; [|split; [|split]].
  - unfold _call_act. rewrite rstrip_slash_app_slashes. reflexivity.
  - apply rstrip_slash_decomp.
  - apply rstrip_slash_no_trailing.
  - unfold _call_act.
    destruct (post_json w timeout (rstrip_slash base_url ++ "/act") payload)
      as [[[[st body] ms]|e] w']; reflexivity.
Qed.

(** ** What a response leaves in the episode *)

Lemma validate_true_iff (body : json) :
  fst (_validate_actions_shape body) = true ↔ well_shaped body.
Proof.
  unfold well_shaped. split.
  - destruct body as [| | | | |l|d]; simpl; try discriminate.
    unfold dict_get. destruct (d !! "actions") as [[| | | | |l|]|] eqn:Hd;
      simpl; try discriminate.
    intros Hc. exists d, l. repeat split; [exact Hd|].
    apply (check_actions_true l 0).
    destruct (check_actions 0 l) as [b msg] eqn:Hcheck. simpl in Hc. subst b.
    f_equal. clear Hd. revert Hcheck. generalize 0%nat.
    induction l as [|a rest IH]; intros idx.
    + simpl. congruence.
    + destruct (action_okb a) eqn:Ha.
      * rewrite (check_actions_step_ok _ _ _ Ha). apply IH.
      * rewrite (check_actions_step_bad _ _ _ Ha). discriminate.
  - intros (d & l & -> & Hd & Hl). simpl. unfold dict_get. rewrite Hd. simpl.
    apply (check_actions_true l 0) in Hl. rewrite Hl. reflexivity.
Qed.

Section Responses.
Variable World : Type.
Variable post_json : World → Q → string → Task → result (Z * json * Z) * World.
Variables (timeout : Q) (base_url : string).

Abbreviation one_call' := (one_call World post_json).
Abbreviation run_eval' := (run_eval World post_json).
Abbreviation calls := (Eval.calls World post_json timeout base_url).

(** X4: when the request of a call is answered, with status [st], body
    [body] and after [ms] milliseconds, its episode records them and no
    error; [ok] is true exactly when [st] is 200 and the body is well
    shaped; [action_count] is the number of elements of [actions] whenever
    the body is an object whose [actions] is a list, be the elements well
    formed or not, and 0 otherwise; and for a body that is not an object
    the message names its type. *)
Theorem one_call_response (w w' : World) (r idx : nat) (task : Task)
    (st ms : Z) (body : json) :
  post_json w timeout (rstrip_slash base_url ++ "/act") task = (Ok (st, body, ms), w') →
  let ep := fst (one_call' w timeout base_url r idx task) in
  snd (one_call' w timeout base_url r idx task) = w'
  ∧ status ep = Some st ∧ elapsed_ms ep = Some ms ∧ error ep = None
  ∧ (ok ep = true ↔ st = 200 ∧ well_shaped body)
  ∧ (shape_ok ep = Some true ↔ well_shaped body)
  ∧ action_count ep = Some (match actions_of body with
                            | Some l => length l
                            | None => 0%nat
                            end)
  ∧ (is_dict body = false →
     shape_ok ep = Some false
     ∧ shape_msg ep = Some ("response is not an object (" ++ type_name body ++ ")")
     ∧ action_count ep = Some 0%nat).
Proof.
  intros Hpost ep. subst ep. unfold one_call, _call_act. rewrite Hpost. simpl.
  destruct (_validate_actions_shape body) as [s_ok s_msg] eqn:Hv. simpl.
  pose proof (validate_true_iff body) as Hiff. rewrite Hv in Hiff. simpl in Hiff.
  split; [reflexivity|]. split; [reflexivity|]. split; [reflexivity|].
  split; [reflexivity|]. split; [|split; [|split]].
  - rewrite andb_true_iff, Z.eqb_eq, <- Hiff. reflexivity.
  - rewrite <- Hiff. split; [intros [= ->] | intros ->]; reflexivity.
  - f_equal. unfold actions_of, dict_get. destruct body as [| | | | |l|d]; try reflexivity.
    destruct (d !! "actions") as [[| | | | |l|]|]; reflexivity.
  - intros Hd. destruct body; try discriminate; simpl in Hv;
      injection Hv as <- <-; repeat split.
Qed.

Lemma run_episodes_Forall (P : CallResult → Prop) (w : World) (tasks : list Task)
    (repeat : Z) :
  (∀ w0 r idx task, P (fst (one_call' w0 timeout base_url r idx task))) →
  Forall P (episodes (fst (run_eval' w base_url tasks repeat timeout))).
Proof.
  intros HP. rewrite run_eval_episodes. apply Forall_forall. intros ep Hin.
  apply list_elem_of_lookup in Hin as [k Hk].
  destruct (Forall2_lookup_r _ _ _ _ _
              (calls_Forall2 World post_json timeout base_url (schedule tasks repeat) w) Hk)
    as ([[r i] t] & _ & w0 & ->).
  apply HP.
Qed.

End Responses.

(** ** The summary and the outcomes of the calls *)

Lemma filter_length_all {A : Type} (P : A → Prop) `{∀ x, Decision (P x)} (l : list A) :
  length (filter P l) = length l ↔ Forall P l.
Proof.
  induction l as [|x l IH].
  - split; [constructor | reflexivity].
  - pose proof (length_filter P l) as Hle. destruct (decide (P x)) as [Hx|Hx].
    + rewrite filter_cons_True by exact Hx. simpl. split.
      * intros [= Hl]. constructor; [exact Hx | apply IH; exact Hl].
      * intros Hall. inversion Hall; subst. f_equal. apply IH. assumption.
    + rewrite filter_cons_False by exact Hx. simpl. split; [lia|].
      intros Hall. inversion Hall; subst. contradiction.
Qed.

Lemma filter_length_none {A : Type} (P : A → Prop) `{∀ x, Decision (P x)} (l : list A) :
  length (filter P l) = 0%nat ↔ Forall (fun x => ¬ P x) l.
Proof.
  induction l as [|x l IH].
  - split; [constructor | reflexivity].
  - destruct (decide (P x)) as [Hx|Hx].
    + rewrite filter_cons_True by exact Hx. simpl. split; [discriminate|].
      intros Hall. inversion Hall; subst. contradiction.
    + rewrite filter_cons_False by exact Hx. rewrite IH. split.
      * intros Hall. constructor; assumption.
      * intros Hall. inversion Hall; subst. assumption.
Qed.

Lemma ratio_is_one (a b : Z) : 0 < b → (inject_Z a / inject_Z b == 1)%Q ↔ a = b.
Proof.
  intros Hb. destruct b as [|p|p]; try lia.
  rewrite Qmake_Qdiv. unfold Qeq. simpl. lia.
Qed.

Lemma ratio_is_zero (a b : Z) : 0 < b → (inject_Z a / inject_Z b == 0)%Q ↔ a = 0.
Proof.
  intros Hb. destruct b as [|p|p]; try lia.
  rewrite Qmake_Qdiv. unfold Qeq. simpl. lia.
Qed.

Lemma summarize_ok_calls (eps : list CallResult) :
  ok_calls (summarize eps) = Z.of_nat (length (filter (fun ep => ok ep = true) eps)).
Proof. apply sum_Z_ones. Qed.

Lemma summarize_ok_rate (eps : list CallResult) :
  eps ≠ [] →
  0 < Z.of_nat (length eps)
  ∧ ok_rate (summarize eps)
    = (inject_Z (Z.of_nat (length (filter (fun ep => ok ep = true) eps)))
       / inject_Z (Z.of_nat (length eps)))%Q.
Proof.
  intros Hne. split; [destruct eps; [contradiction | simpl; lia]|].
  rewrite <- summarize_ok_calls. unfold summarize. simpl.
  destruct eps; [contradiction | reflexivity].
Qed.

Lemma ok_rate_one_iff (eps : list CallResult) :
  eps ≠ [] → (ok_rate (summarize eps) == 1)%Q ↔ Forall (fun ep => ok ep = true) eps.
Proof.
  intros Hne. destruct (summarize_ok_rate eps Hne) as [Hpos ->].
  rewrite (ratio_is_one _ _ Hpos), Nat2Z.inj_iff. apply filter_length_all.
Qed.

Lemma ok_rate_zero_iff (eps : list CallResult) :
  eps ≠ [] → (ok_rate (summarize eps) == 0)%Q ↔ Forall (fun ep => ok ep = false) eps.
Proof.
  intros Hne. destruct (summarize_ok_rate eps Hne) as [Hpos ->].
  rewrite (ratio_is_zero _ _ Hpos).
  change 0 with (Z.of_nat 0). rewrite Nat2Z.inj_iff, filter_length_none.
  split; intros Hall;
    (eapply Forall_impl; [exact Hall|]); intros ep Hep; simpl in *.
  - destruct (ok ep); [contradiction | reflexivity].
  - rewrite Hep. discriminate.
Qed.

(** X5: in the summary of any episodes, [ok_calls] is between 0 and
    [total_calls]; and when there is an episode, [ok_rate] is 1 exactly
    when every episode is [ok], and 0 exactly when none is. *)
Theorem summarize_rates (eps : list CallResult) :
  0 <= ok_calls (summarize eps) <= total_calls (summarize eps)
  ∧ (eps ≠ [] →
     ((ok_rate (summarize eps) == 1)%Q ↔ Forall (fun ep => ok ep = true) eps)
     ∧ ((ok_rate (summarize eps) == 0)%Q ↔ Forall (fun ep => ok ep = false) eps)).
Proof.
  split.
  - rewrite summarize_ok_calls.
    change (total_calls (summarize eps)) with (Z.of_nat (length eps)).
    pose proof (length_filter (fun ep => ok ep = true) eps) as Hle. lia.
  - intros Hne. split; [apply ok_rate_one_iff | apply ok_rate_zero_iff]; exact Hne.
Qed.

Section Outcomes.
Variable World : Type.
Variable post_json : World → Q → string → Task → result (Z * json * Z) * World.
Variables (timeout : Q) (base_url : string).

Abbreviation run_eval' := (run_eval World post_json).

Lemma one_call_cases (w0 : World) (r idx : nat) (task : Task) :
  let ep := fst (one_call World post_json w0 timeout base_url r idx task) in
  match fst (post_json w0 timeout (rstrip_slash base_url ++ "/act") task) with
  | Ok (st, body, ms) =>
      status ep = Some st
      ∧ ok ep = (Z.eqb st 200 && fst (_validate_actions_shape body))
      ∧ shape_msg ep = Some (snd (_validate_actions_shape body))
      ∧ action_count ep = Some (match actions_of body with
                                | Some l => length l
                                | None => 0%nat
                                end)
  | Raise e => ok ep = false ∧ status ep = None
  end.
Proof.
  unfold one_call, _call_act.
  destruct (post_json w0 timeout (rstrip_slash base_url ++ "/act") task)
    as [[[[st body] ms]|e] w']; simpl; [|split; reflexivity].
  destruct (_validate_actions_shape body) as [s_ok s_msg]. simpl.
  repeat split. f_equal. unfold actions_of, dict_get.
  destruct body as [| | | | |l|d]; try reflexivity.
  destruct (d !! "actions") as [[| | | | |l|]|]; reflexivity.
Qed.

Lemma one_call_shape_ok (w0 w' : World) (r idx : nat) (task : Task)
    (st ms : Z) (body : json) :
  post_json w0 timeout (rstrip_slash base_url ++ "/act") task = (Ok (st, body, ms), w') →
  shape_ok (fst (one_call World post_json w0 timeout base_url r idx task))
  = Some (fst (_validate_actions_shape body)).
Proof.
  intros Hpost. unfold one_call, _call_act. rewrite Hpost. simpl.
  destruct (_validate_actions_shape body) as [s_ok s_msg]. reflexivity.
Qed.

(** X6: when every request is answered with status 200 and a well shaped
    body, every episode of the run is [ok], [ok_calls] is [total_calls],
    and, there being a task, [ok_rate] is 1. *)
Theorem run_eval_all_ok (w : World) (tasks : list Task) (repeat : Z) :
  (∀ w0 q u t, ∃ body ms w', post_json w0 q u t = (Ok (200, body, ms), w')
                             ∧ well_shaped body) →
  let res := fst (run_eval' w base_url tasks repeat timeout) in
  Forall (fun ep => ok ep = true ∧ status ep = Some 200) (episodes res)
  ∧ ok_calls (summary res) = total_calls (summary res)
  ∧ (tasks ≠ [] → (ok_rate (summary res) == 1)%Q).
Proof.
  intros Hgood res. subst res.
  assert (Hall : Forall (fun ep => ok ep = true ∧ status ep = Some 200)
                   (episodes (fst (run_eval' w base_url tasks repeat timeout)))).
  { apply run_episodes_Forall. intros w0 r idx task.
    pose proof (one_call_cases w0 r idx task) as Hc. cbv zeta in Hc.
    destruct (Hgood w0 timeout (rstrip_slash base_url ++ "/act") task)
      as (body & ms & w' & Hpost & Hshape).
    rewrite Hpost in Hc. simpl in Hc. destruct Hc as (Hst & Hok & _).
    apply validate_true_iff in Hshape. rewrite Hshape in Hok. split; assumption. }
  assert (Hoks : Forall (fun ep => ok ep = true)
                   (episodes (fst (run_eval' w base_url tasks repeat timeout)))).
  { eapply Forall_impl; [exact Hall|]. intros ep [Hok _]. exact Hok. }
  split; [exact Hall|]. rewrite run_eval_summary_eq. split.
  - rewrite summarize_ok_calls.
    change (total_calls (summarize ?l)) with (Z.of_nat (length l)).
    f_equal. apply filter_length_all. exact Hoks.
  - intros Hne. apply ok_rate_one_iff; [|exact Hoks].
    intros Hnil. apply (f_equal (@length _)) in Hnil.
    rewrite run_eval_episodes, calls_length, schedule_length in Hnil. simpl in Hnil.
    destruct tasks; [contradiction | simpl in Hnil; lia].
Qed.

Lemma run_eval_nonempty (w : World) (tasks : list Task) (repeat : Z) :
  tasks ≠ [] → episodes (fst (run_eval' w base_url tasks repeat timeout)) ≠ [].
Proof.
  intros Hne Hnil. apply (f_equal (@length _)) in Hnil.
  rewrite run_eval_episodes, calls_length, schedule_length in Hnil. simpl in Hnil.
  destruct tasks; [contradiction | simpl in Hnil; lia].
Qed.

(** X7: when no request is answered with both status 200 and a well
    shaped body (it raises, or the status is another one, or the body is
    not well shaped), no episode of the run is [ok], [ok_calls] is 0 and
    [ok_rate] is 0; the run still has all its episodes. *)
Theorem run_eval_none_ok (w : World) (tasks : list Task) (repeat : Z) :
  (∀ w0 q u t, match fst (post_json w0 q u t) with
               | Ok (st, body, _) => st ≠ 200 ∨ ¬ well_shaped body
               | Raise _ => True
               end) →
  let res := fst (run_eval' w base_url tasks repeat timeout) in
  Forall (fun ep => ok ep = false) (episodes res)
  ∧ ok_calls (summary res) = 0
  ∧ (ok_rate (summary res) == 0)%Q
  ∧ length (episodes res) = (Z.to_nat (Z.max 1 repeat) * length tasks)%nat.
Proof.
  intros Hbad res. subst res.
  assert (Hall : Forall (fun ep => ok ep = false)
                   (episodes (fst (run_eval' w base_url tasks repeat timeout)))).
  { apply run_episodes_Forall. intros w0 r idx task.
    pose proof (one_call_cases w0 r idx task) as Hc. cbv zeta in Hc.
    specialize (Hbad w0 timeout (rstrip_slash base_url ++ "/act") task).
    destruct (fst (post_json w0 timeout (rstrip_slash base_url ++ "/act") task))
      as [[[st body] ms]|e]; [|apply Hc].
    destruct Hc as (_ & -> & _). destruct Hbad as [Hst | Hshape].
    - apply Z.eqb_neq in Hst. rewrite Hst. reflexivity.
    - rewrite <- validate_true_iff in Hshape.
      destruct (fst (_validate_actions_shape body)); [contradiction|].
      apply andb_false_r. }
  split; [exact Hall|]. rewrite run_eval_summary_eq. split; [|split].
  - rewrite summarize_ok_calls. change 0 with (Z.of_nat 0). f_equal.
    apply filter_length_none. eapply Forall_impl; [exact Hall|].
    intros ep Hep. simpl. rewrite Hep. discriminate.
  - destruct (episodes (fst (run_eval' w base_url tasks repeat timeout))) as [|ep eps] eqn:Heps;
      [reflexivity|].
    apply ok_rate_zero_iff; [discriminate | exact Hall].
  - rewrite run_eval_episodes, calls_length. apply schedule_length.
Qed.

(** X8: a run against an endpoint that serves [/act] (or [/step]) of
    [agent.py] with status 200, which answers [{"actions": []}] whatever
    the payload: every episode is [ok], with the message [ok] and no
    action counted, and [ok_rate] is 1 when there is a task. *)
Theorem run_against_template_agent (handler : json → json)
    (w : World) (tasks : list Task) (repeat : Z) :
  handler = Agent.act ∨ handler = Agent.step →
  serves handler World post_json →
  let res := fst (run_eval' w base_url tasks repeat timeout) in
  Forall (fun ep => ok ep = true ∧ shape_msg ep = Some "ok"
                    ∧ action_count ep = Some 0%nat)
         (episodes res)
  ∧ (tasks ≠ [] → (ok_rate (summary res) == 1)%Q).
Proof.
  intros Hhandler Hserves res. subst res.
  assert (Hall : Forall (fun ep => ok ep = true ∧ shape_msg ep = Some "ok"
                                   ∧ action_count ep = Some 0%nat)
                   (episodes (fst (run_eval' w base_url tasks repeat timeout)))).
  { apply run_episodes_Forall. intros w0 r idx task.
    pose proof (one_call_cases w0 r idx task) as Hc. cbv zeta in Hc.
    destruct (Hserves w0 timeout (rstrip_slash base_url ++ "/act") task)
      as (ms & w' & Hpost).
    rewrite Hpost in Hc. simpl in Hc. destruct Hc as (_ & Hok & Hmsg & Hcount).
    destruct Hhandler as [-> | ->]; repeat split; assumption. }
  split; [exact Hall|]. intros Hne. rewrite run_eval_summary_eq.
  apply ok_rate_one_iff; [apply run_eval_nonempty; exact Hne|].
  eapply Forall_impl; [exact Hall|]. intros ep [Hok _]. exact Hok.
Qed.

(** X9: a run against an endpoint that serves [/act] of [main.py] with
    status 200, which answers a list: no episode is [ok], although the
    status is 200; each has [shape_ok] false, the message [response is not
    an object (list)] and no action counted, and [ok_rate] is 0. *)
Theorem run_against_main_app (click_action : json)
    (w : World) (tasks : list Task) (repeat : Z) :
  serves (MainApp.act click_action) World post_json →
  let res := fst (run_eval' w base_url tasks repeat timeout) in
  Forall (fun ep => ok ep = false ∧ status ep = Some 200
                    ∧ shape_ok ep = Some false
                    ∧ shape_msg ep = Some "response is not an object (list)"
                    ∧ action_count ep = Some 0%nat)
         (episodes res)
  ∧ (ok_rate (summary res) == 0)%Q.
Proof.
  intros Hserves res. subst res.
  assert (Hall : Forall (fun ep => ok ep = false ∧ status ep = Some 200
                    ∧ shape_ok ep = Some false
                    ∧ shape_msg ep = Some "response is not an object (list)"
                    ∧ action_count ep = Some 0%nat)
                   (episodes (fst (run_eval' w base_url tasks repeat timeout)))).
  { apply run_episodes_Forall. intros w0 r idx task.
    pose proof (one_call_cases w0 r idx task) as Hc. cbv zeta in Hc.
    destruct (Hserves w0 timeout (rstrip_slash base_url ++ "/act") task)
      as (ms & w' & Hpost).
    pose proof (one_call_shape_ok w0 w' r idx task _ _ _ Hpost) as Hshape.
    rewrite Hpost in Hc. simpl in Hc. destruct Hc as (Hst & Hok & Hmsg & Hcount).
    repeat split; assumption. }
  split; [exact Hall|]. rewrite run_eval_summary_eq.
  destruct (episodes (fst (run_eval' w base_url tasks repeat timeout))) as [|ep eps] eqn:Heps;
    [reflexivity|].
  apply ok_rate_zero_iff; [discriminate|].
  eapply Forall_impl; [exact Hall|]. intros ep' [Hok _]. exact Hok.
Qed.

(** X10: the result of a run records the base address and [repeat] as
    they were given and the number of tasks; the number of calls of its
    summary is the number of tasks times [max(1, repeat)]: a [repeat] of 0
    or less is recorded as such although one repetition was made. *)
Theorem run_result_consistent (w : World) (tasks : list Task) (repeat : Z) :
  let res := fst (run_eval' w base_url tasks repeat timeout) in
  agent_base_url res = base_url
  ∧ num_tasks res = length tasks
  ∧ Eval.repeat res = repeat
  ∧ total_calls (summary res) = Z.of_nat (num_tasks res) * Z.max 1 (Eval.repeat res)
  ∧ (repeat <= 0 → total_calls (summary res) = Z.of_nat (num_tasks res))
  ∧ snd (run_eval' w base_url tasks repeat timeout)
    = snd (Eval.calls World post_json timeout base_url (schedule tasks repeat) w).
Proof.
  intros res.
  assert (Hmeta : agent_base_url res = base_url ∧ num_tasks res = length tasks
                  ∧ Eval.repeat res = repeat
                  ∧ snd (run_eval' w base_url tasks repeat timeout)
                    = snd (Eval.calls World post_json timeout base_url
                             (schedule tasks repeat) w)).
  { subst res. unfold run_eval. rewrite run_repeats_calls.
    destruct (Eval.calls World post_json timeout base_url (schedule tasks repeat) w).
    repeat split. }
  destruct Hmeta as (Hurl & Hnum & Hrep & Hworld).
  assert (Htotal : total_calls (summary res)
                   = Z.of_nat (num_tasks res) * Z.max 1 (Eval.repeat res)).
  { rewrite Hnum, Hrep. subst res. rewrite run_eval_summary_eq.
    change (total_calls (summarize ?l)) with (Z.of_nat (length l)).
    rewrite run_eval_episodes, calls_length, schedule_length. lia. }
  repeat split; try assumption.
  intros Hle. rewrite Htotal, Hrep. lia.
Qed.

End Outcomes.

Section MainFacts.
Context `{PyBuiltins}.
Variable read_json : string → result json.
Variable World : Type.
Variable post_json : World → Q → string → Task → result (Z * json * Z) * World.

(** X11: without a tasks file (no path, or an empty one), [main] never
    raises, whatever the endpoint does: it makes [max(1, num_tasks)] times
    [max(1, repeat)] calls on the default tasks and returns the result to
    write. *)
Theorem main_without_tasks_file (w : World) (args : Args) :
  arg_tasks_file args = None ∨ arg_tasks_file args = Some "" →
  ∃ res w', main read_json World post_json w args = (Ok res, w')
            ∧ num_tasks res = Z.to_nat (Z.max 1 (arg_num_tasks args))
            ∧ total_calls (summary res)
              = Z.max 1 (arg_num_tasks args) * Z.max 1 (arg_repeat args)
            ∧ map result_task_id (episodes res)
              = flat_map (fun _ => map task_id (_default_tasks (arg_num_tasks args)))
                         (seq 0 (Z.to_nat (Z.max 1 (arg_repeat args)))).
Proof.
  intros Hfile. unfold main.
  assert (Hload : _load_tasks read_json (arg_tasks_file args) (arg_num_tasks args)
                  = Ok (_default_tasks (arg_num_tasks args)))
    by (destruct Hfile as [-> | ->]; reflexivity).
  rewrite Hload.
  destruct (run_eval World post_json w (arg_agent_base_url args)
              (_default_tasks (arg_num_tasks args)) (arg_repeat args)
              (arg_timeout_seconds args)) as [res w'] eqn:Hrun.
  exists res, w'. split; [reflexivity|].
  assert (Hres : res = fst (run_eval World post_json w (arg_agent_base_url args)
              (_default_tasks (arg_num_tasks args)) (arg_repeat args)
              (arg_timeout_seconds args))) by (rewrite Hrun; reflexivity).
  assert (Hlen : length (_default_tasks (arg_num_tasks args))
                 = Z.to_nat (Z.max 1 (arg_num_tasks args))).
  { unfold _default_tasks, range. rewrite length_map, length_seq. reflexivity. }
  split; [|split].
  - rewrite Hres. unfold run_eval.
    destruct (run_repeats _ _ _ _ _ _ _). simpl. exact Hlen.
  - rewrite Hres, run_eval_summary_eq.
    change (total_calls (summarize ?l)) with (Z.of_nat (length l)).
    rewrite run_eval_episodes, calls_length, schedule_length, Hlen. lia.
  - rewrite Hres, run_eval_episodes.
    assert (Hkeys := calls_keys World post_json (arg_timeout_seconds args)
                       (arg_agent_base_url args)
                       (schedule (_default_tasks (arg_num_tasks args)) (arg_repeat args)) w).
    apply (f_equal (map (fun k : nat * nat * string => snd k))) in Hkeys.
    rewrite !map_map in Hkeys. simpl in Hkeys. etransitivity; [exact Hkeys|].
    unfold schedule, range. generalize (seq 0 (Z.to_nat (Z.max 1 (arg_repeat args)))) as rs.
    induction rs as [|r rs IH]; [reflexivity|]. simpl.
    rewrite map_app, IH, map_map. f_equal.
    unfold enumerate. generalize (_default_tasks (arg_num_tasks args)) as l.
    intros l. generalize 0%nat as start. induction l as [|t l IHl]; intros start; simpl;
      [reflexivity | f_equal; apply IHl].
Qed.

End MainFacts.

(** ** The properties on concrete inputs *)

Section Concrete.
#[local] Existing Instance example_builtins.

(** A file whose third entry has a [step_index] that is no number. *)
Lemma load_tasks_first_failure_witness :
  _load_tasks
    (fun _ => Ok (JList [JDict ∅; JInt 7; JDict {["step_index" := JStr "x"]}; JDict ∅]))
    (Some "tasks.json") 5
  = Raise (ValueError "invalid literal for int() with base 10").
Proof.
  refine (proj1 (load_tasks_first_failure _ "tasks.json"
            (JList [JDict ∅; JInt 7; JDict {["step_index" := JStr "x"]}; JDict ∅])
            [JDict ∅; JInt 7; JDict {["step_index" := JStr "x"]}; JDict ∅] 5
            2%nat {["step_index" := JStr "x"]}
            (ValueError "invalid literal for int() with base 10") _ _ _ _ _ _)).
  - discriminate.
  - reflexivity.
  - reflexivity.
  - reflexivity.
  - reflexivity.
  - intros [|[|j']] d' Hlt Hd'; simpl in Hd'; [| discriminate | lia].
    injection Hd' as <-. exists 0. reflexivity.
Defined.

Lemma one_call_response_witness :
  let ep := fst (one_call nat (scripted_post example_script) 0%nat 30
                   "http://127.0.0.1:5000/" 0 0 (mk_Task "A" "p" "u" "h" 0 [])) in
  status ep = Some 200 ∧ elapsed_ms ep = Some 12 ∧ error ep = None
  ∧ action_count ep = Some 0%nat.
Proof.
  pose proof (one_call_response nat (scripted_post example_script) 30
                "http://127.0.0.1:5000/" 0%nat 1%nat 0%nat 0%nat
                (mk_Task "A" "p" "u" "h" 0 []) 200 12
                (JDict {["actions" := JList []]}) eq_refl) as Hthm.
  cbv zeta in Hthm. destruct Hthm as (_ & Hst & Hms & Herr & _ & _ & Hcount & _).
  intros ep. split; [exact Hst|]. split; [exact Hms|]. split; [exact Herr|]. exact Hcount.
Defined.

Lemma run_eval_all_ok_witness :
  let res := fst (run_eval unit (served_post Agent.act) tt "http://127.0.0.1:5000"
                    example_tasks 2 30) in
  Forall (fun ep => ok ep = true ∧ status ep = Some 200) (episodes res)
  ∧ ok_calls (summary res) = total_calls (summary res)
  ∧ (ok_rate (summary res) == 1)%Q.
Proof.
  pose proof (run_eval_all_ok unit (served_post Agent.act) 30 "http://127.0.0.1:5000"
                tt example_tasks 2) as Hthm.
  cbv zeta in Hthm. intros res.
  destruct Hthm as (Hall & Hcalls & Hrate).
  - intros w0 q u t. exists (Agent.act (task_to_json t)), 5, w0.
    split; [reflexivity|]. exists {["actions" := JList []]}, [].
    split; [reflexivity|]. split; [reflexivity | constructor].
  - split; [exact Hall|]. split; [exact Hcalls|]. apply Hrate. discriminate.
Defined.

Lemma run_eval_none_ok_witness :
  let res := fst (run_eval unit refused_post tt "http://127.0.0.1:5000"
                    example_tasks 2 30) in
  Forall (fun ep => ok ep = false) (episodes res)
  ∧ ok_calls (summary res) = 0.
Proof.
  pose proof (run_eval_none_ok unit refused_post 30 "http://127.0.0.1:5000"
                tt example_tasks 2) as Hthm.
  cbv zeta in Hthm. intros res.
  destruct Hthm as (Hall & Hcalls & _).
  - intros w0 q u t. exact I.
  - split; [exact Hall | exact Hcalls].
Defined.
Lemma run_against_template_agent_witness :
  let res := fst (run_eval unit (served_post Agent.act) tt "http://127.0.0.1:5000/"
                    example_tasks 3 30) in
  Forall (fun ep => ok ep = true ∧ shape_msg ep = Some "ok"
                    ∧ action_count ep = Some 0%nat) (episodes res)
  ∧ (ok_rate (summary res) == 1)%Q.
Proof.
  pose proof (run_against_template_agent unit (served_post Agent.act) 30
                "http://127.0.0.1:5000/" Agent.act tt example_tasks 3) as Hthm.
  cbv zeta in Hthm. intros res.
  destruct Hthm as (Hall & Hrate).
  - left. reflexivity.
  - intros w timeout url task. exists 5, w. reflexivity.
  - split; [exact Hall|]. apply Hrate. discriminate.
Defined.

Lemma run_against_main_app_witness :
  let click := JDict {["type" := JStr "ClickAction"; "x" := JInt 0; "y" := JInt 0]} in
  let res := fst (run_eval unit (served_post (MainApp.act click)) tt
                    "http://127.0.0.1:5000" example_tasks 1 30) in
  Forall (fun ep => ok ep = false ∧ status ep = Some 200 ∧ shape_ok ep = Some false)
         (episodes res).
Proof.
  pose proof (run_against_main_app unit
                (served_post (MainApp.act
                   (JDict {["type" := JStr "ClickAction"; "x" := JInt 0; "y" := JInt 0]})))
                30 "http://127.0.0.1:5000"
                (JDict {["type" := JStr "ClickAction"; "x" := JInt 0; "y" := JInt 0]})
                tt example_tasks 1) as Hthm.
  cbv zeta in Hthm. intros click res.
  destruct Hthm as (Hall & _).
  - intros w timeout url task. exists 5, w. reflexivity.
  - eapply Forall_impl; [exact Hall|]. intros ep (Hok & Hst & Hshape & _).
    split; [exact Hok|]. split; [exact Hst | exact Hshape].
Defined.

Lemma main_without_tasks_file_witness :
  ∃ res w', main (fun _ => Raise (mk_exn "FileNotFoundError" "tasks.json")) unit refused_post tt
              (mk_Args "http://127.0.0.1:5000" None 2 3 30 "out.json") = (Ok res, w')
            ∧ num_tasks res = 2%nat
            ∧ total_calls (summary res) = 6.
Proof.
  destruct (main_without_tasks_file
              (fun _ => Raise (mk_exn "FileNotFoundError" "tasks.json")) unit refused_post tt
              (mk_Args "http://127.0.0.1:5000" None 2 3 30 "out.json"))
    as (res & w' & Hmain & Hnum & Htotal & _).
  - left. reflexivity.
  - exists res, w'. split; [exact Hmain|]. split; [exact Hnum | exact Htotal].
Defined.
End Concrete.

End EvalExtra.

(** * Further properties of [compare_eval.py] *)

Module CompareExtra.
Import Py Compare CompareProofs.
Local Open Scope list_scope.

(** ** Parsing a run *)

Lemma split_colon_Some (s before after : str) :
  split_colon s = Some (before, after) ↔ s = before ++ 58%N :: after ∧ 58%N ∉ before.
Proof.
  revert before. induction s as [|c rest IH]; intros before; simpl.
  - split; [discriminate|]. intros [Heq _]. destruct before; discriminate.
  - destruct (N.eqb_spec c 58) as [-> | Hc].
    + split.
      * intros [= <- <-]. split; [reflexivity | apply not_elem_of_nil].
      * intros [Heq Hnot]. destruct before as [|b before'].
        -- injection Heq as <-. reflexivity.
        -- injection Heq as <- _. exfalso. apply Hnot. left.
    + destruct (split_colon rest) as [[b a]|] eqn:Hrest.
      * split.
        -- intros [= <- <-]. destruct (proj1 (IH b) eq_refl) as [-> Hnot].
           split; [reflexivity|]. intros Hin. apply elem_of_cons in Hin as [Heq | Hin];
             [congruence | contradiction].
        -- intros [Heq Hnot]. destruct before as [|b' before'].
           ++ injection Heq as -> _. contradiction.
           ++ injection Heq as <- Heq.
              assert (Hb : Some (b, a) = Some (before', after)).
              { apply IH. split; [exact Heq|]. intros Hin. apply Hnot. right. exact Hin. }
              injection Hb as -> ->. reflexivity.
      * split; [discriminate|]. intros [Heq Hnot]. destruct before as [|b' before'].
        -- injection Heq as -> _. contradiction.
        -- injection Heq as <- Heq.
           assert (Hb : None = Some (before', after)).
           { apply IH. split; [exact Heq|]. intros Hin. apply Hnot. right. exact Hin. }
           discriminate.
Qed.

Lemma split_colon_None (s : str) : split_colon s = None ↔ 58%N ∉ s.
Proof.
  induction s as [|c rest IH]; simpl.
  - split; [intros _; apply not_elem_of_nil | reflexivity].
  - destruct (N.eqb_spec c 58) as [-> | Hc].
    + split; [discriminate|]. intros Hnot. exfalso. apply Hnot. left.
    + destruct (split_colon rest) as [[b a]|].
      * split; [discriminate|]. intros Hnot. exfalso.
        assert (Hr : 58%N ∉ rest) by (intros Hin; apply Hnot; right; exact Hin).
        apply IH in Hr. discriminate.
      * split; [|reflexivity]. intros _ Hin.
        apply elem_of_cons in Hin as [Heq | Hin]; [congruence|].
        apply (proj1 IH eq_refl). exact Hin.
Qed.

Lemma lstrip_decomp (s : str) :
  ∃ pre, s = pre ++ lstrip s ∧ Forall (fun c => is_space c = true) pre.
Proof.
  induction s as [|c rest (pre & Heq & Hpre)]; [exists []; split; [reflexivity | constructor]|].
  simpl. destruct (is_space c) eqn:Hc.
  - exists (c :: pre). split; [simpl; f_equal; exact Heq | constructor; assumption].
  - exists []. split; [reflexivity | constructor].
Qed.

Lemma lstrip_head (s : str) :
  match lstrip s with
  | [] => True
  | c :: _ => is_space c = false
  end.
Proof.
  induction s as [|c rest IH]; [exact I|]. simpl.
  destruct (is_space c) eqn:Hc; [exact IH | exact Hc].
Qed.

Lemma lstrip_padded (ws s : str) :
  Forall (fun c => is_space c = true) ws →
  match s with [] => True | c :: _ => is_space c = false end →
  lstrip (ws ++ s) = s.
Proof.
  intros Hws Hs. induction Hws as [|c ws Hc _ IH]; simpl.
  - destruct s as [|c s']; [reflexivity|]. simpl. rewrite Hs. reflexivity.
  - rewrite Hc. exact IH.
Qed.

Lemma strip_trimmed (s : str) : trimmed (strip s).
Proof.
  unfold strip.
  destruct (lstrip_decomp (rev (lstrip s))) as (pre & Heq & _).
  pose proof (lstrip_head (rev (lstrip s))) as Hu.
  pose proof (lstrip_head s) as Ht.
  destruct (lstrip (rev (lstrip s))) as [|c u'] eqn:Hlu; [exact I|].
  assert (Heq' : lstrip s = rev (c :: u') ++ rev pre).
  { rewrite <- (rev_involutive (lstrip s)), Heq, rev_app_distr. reflexivity. }
  assert (Hlast : last (rev (c :: u')) = Some c) by (simpl; apply last_snoc).
  destruct (rev (c :: u')) as [|d v] eqn:Hrev; [discriminate Hlast|].
  rewrite Heq' in Ht. simpl in Ht. split; [exact Ht|].
  exists c. split; [exact Hlast | exact Hu].
Qed.

Lemma strip_padded (ws1 ws2 s : str) :
  Forall (fun c => is_space c = true) ws1 →
  Forall (fun c => is_space c = true) ws2 →
  s ≠ [] → trimmed s →
  strip (ws1 ++ s ++ ws2) = s.
Proof.
  intros H1 H2 Hne Htr. destruct s as [|c s']; [contradiction|].
  destruct Htr as (Hc & d & Hlast & Hd).
  unfold strip. rewrite (lstrip_padded ws1 ((c :: s') ++ ws2) H1) by exact Hc.
  rewrite rev_app_distr.
  apply last_Some in Hlast as [l' Hl']. rewrite Hl', rev_app_distr. simpl.
  rewrite (lstrip_padded (rev ws2) (d :: rev l')).
  - simpl. rewrite rev_involutive. reflexivity.
  - apply Forall_forall. intros x Hx. apply list_elem_of_In in Hx.
    apply (proj2 (in_rev ws2 x)) in Hx. apply list_elem_of_In in Hx.
    rewrite Forall_forall in H2. apply H2. exact Hx.
  - exact Hd.
Qed.

Section Parsing.
Variable unicode_lower : str → N → str → str.

Abbreviation _parse_run := (Compare._parse_run unicode_lower).
Abbreviation lower := (Compare.lower unicode_lower).

Lemma lower_ascii_lowercase (s : str) : ascii_lowercase s → lower s = s.
Proof.
  unfold Compare.lower. generalize (@nil N) as before.
  induction s as [|c rest IH]; intros before Hs; [reflexivity|].
  inversion Hs as [|? ? [Hlt Hlow] Hrest]; subst. simpl.
  apply N.ltb_lt in Hlt. rewrite Hlt, Hlow. simpl. f_equal. apply IH. exact Hrest.
Qed.

(** X12: [_parse_run] refuses a text without colon, with a message that
    recalls the form [provider:model]; it cuts the text at its first
    colon, so the model may hold colons; when it accepts, the provider and
    the model are not empty and the model is what follows the first colon
    without the white space at its ends; and it refuses, with the message
    [Invalid run '<text>'], a text in which the provider or the model is
    empty once trimmed. *)
Theorem parse_run_spec (raw : str) :
  (58%N ∉ raw →
   _parse_run raw = inl (cps "Invalid run '" ++ raw ++ cps "'. Use provider:model"))
  ∧ (∀ spec, _parse_run raw = inr spec →
       provider spec ≠ [] ∧ model spec ≠ [] ∧ trimmed (model spec)
       ∧ ∃ before after, raw = before ++ 58%N :: after ∧ (58%N ∉ before)
                         ∧ provider spec = lower (strip before)
                         ∧ model spec = strip after)
  ∧ (∀ before after, raw = before ++ 58%N :: after → 58%N ∉ before →
       lower (strip before) = [] ∨ strip after = [] →
       _parse_run raw = inl (cps "Invalid run '" ++ raw ++ cps "'"))
  ∧ (∀ before after, raw = before ++ 58%N :: after → 58%N ∉ before →
       lower (strip before) ≠ [] → strip after ≠ [] →
       _parse_run raw = inr {| provider := lower (strip before); model := strip after |}).
Proof.
  unfold Compare._parse_run. split; [|split; [|split]].
  - intros Hno. apply split_colon_None in Hno. rewrite Hno. reflexivity.
  - intros spec. destruct (split_colon raw) as [[before after]|] eqn:Hsplit; [|discriminate].
    apply split_colon_Some in Hsplit as [Hraw Hno].
    destruct (Compare.lower unicode_lower (strip before)) as [|p ps] eqn:Hp; [discriminate|].
    destruct (strip after) as [|m ms] eqn:Hm; [discriminate|].
    intros [= <-]. simpl. split; [discriminate|]. split; [discriminate|]. split.
    + pose proof (strip_trimmed after) as Htr. rewrite Hm in Htr. exact Htr.
    + exists before, after. rewrite Hp, Hm. repeat split; assumption.
  - intros before after Hraw Hno Hempty.
    assert (Hsplit : split_colon raw = Some (before, after))
      by (apply split_colon_Some; split; assumption).
    rewrite Hsplit. destruct Hempty as [-> | ->]; [reflexivity|].
    destruct (Compare.lower unicode_lower (strip before)); reflexivity.
  - intros before after Hraw Hno Hp Hm.
    assert (Hsplit : split_colon raw = Some (before, after))
      by (apply split_colon_Some; split; assumption).
    rewrite Hsplit.
    destruct (Compare.lower unicode_lower (strip before)) as [|p ps]; [contradiction|].
    destruct (strip after) as [|m ms]; [contradiction | reflexivity].
Qed.

(** X13: the text [<provider>:<model>] of a run specification parses back
    to it, white space around the provider and around the model being
    ignored, when the provider is a non-empty lower case ASCII text
    without colon, the model is not empty, and neither has white space at
    its ends. *)
Theorem parse_run_round_trip (p m ws1 ws2 ws3 ws4 : str) :
  p ≠ [] → m ≠ [] → trimmed p → trimmed m →
  ascii_lowercase p → 58%N ∉ p →
  Forall (fun c => is_space c = true) (ws1 ++ ws2 ++ ws3 ++ ws4) →
  _parse_run (ws1 ++ p ++ ws2 ++ 58%N :: ws3 ++ m ++ ws4)
  = inr {| provider := p; model := m |}.
Proof.
  intros Hp Hm Htp Htm Hlow Hcolon Hws.
  apply Forall_app in Hws as [H1 Hws]. apply Forall_app in Hws as [H2 Hws].
  apply Forall_app in Hws as [H3 H4].
  assert (Hnospace : ∀ ws, Forall (fun c => is_space c = true) ws → 58%N ∉ ws).
  { intros ws Hall Hin. rewrite Forall_forall in Hall. apply Hall in Hin. discriminate. }
  assert (Hsplit : split_colon (ws1 ++ p ++ ws2 ++ 58%N :: ws3 ++ m ++ ws4)
                   = Some (ws1 ++ p ++ ws2, ws3 ++ m ++ ws4)).
  { apply split_colon_Some. split; [rewrite <- !app_assoc; reflexivity|].
    rewrite !not_elem_of_app. repeat split; auto. }
  unfold Compare._parse_run. rewrite Hsplit.
  rewrite (strip_padded ws1 ws2 p H1 H2 Hp Htp), (strip_padded ws3 ws4 m H3 H4 Hm Htm).
  rewrite (lower_ascii_lowercase p Hlow).
  destruct p; [contradiction|]. destruct m; [contradiction | reflexivity].
Qed.

End Parsing.

(** ** The command line *)

Section CommandLineFacts.
Context `{PyBuiltins}.
Variable unicode_lower : str → N → str → str.
Variables (repo_dir python : str).
Variable World : Type.
Variable subprocess_run : World → Command → str → str → Z * World.
Variable read_json : World → str → result json.
Variable args : Args.

Abbreviation _parse_run := (Compare._parse_run unicode_lower).
Abbreviation parse_group := (Compare.parse_group unicode_lower).
Abbreviation parse_runs := (Compare.parse_runs unicode_lower).
Abbreviation main' :=
  (main unicode_lower repo_dir python World subprocess_run read_json args).
Abbreviation main_cli' :=
  (main_cli unicode_lower repo_dir python World subprocess_run read_json args).

Lemma parse_group_app (g1 g2 : list str) (acc : list RunSpec) :
  parse_group (g1 ++ g2) acc
  = match parse_group g1 acc with
    | inl msg => inl msg
    | inr acc' => parse_group g2 acc'
    end.
Proof.
  revert acc. induction g1 as [|item g1 IH]; intros acc; simpl; [reflexivity|].
  destruct (Compare._parse_run unicode_lower item); [reflexivity | apply IH].
Qed.

Lemma parse_runs_concat (runs : list (list str)) (acc : list RunSpec) :
  parse_runs runs acc = parse_group (concat runs) acc.
Proof.
  revert acc. induction runs as [|group runs IH]; intros acc; simpl; [reflexivity|].
  rewrite parse_group_app. destruct (Compare.parse_group unicode_lower group acc);
    [reflexivity | apply IH].
Qed.

Lemma parse_group_ok (items : list str) (specs acc : list RunSpec) :
  Forall2 (fun item spec => _parse_run item = inr spec) items specs →
  parse_group items acc = inr (acc ++ specs).
Proof.
  intros Hall. revert acc. induction Hall as [|item spec items specs Hitem _ IH];
    intros acc; simpl.
  - rewrite app_nil_r. reflexivity.
  - rewrite Hitem, IH, <- app_assoc. reflexivity.
Qed.

(** X14: the comparator parses the runs of all the [--runs] groups in
    order; when all are valid it goes on as [main] does on their
    specifications, in this order; when one is not, it ends with the
    message of the first that is not, before it has created the directory
    or launched any sub-run. *)
Theorem main_cli_spec (runs : list (list str)) (w : World) :
  (∀ specs, Forall2 (fun item spec => _parse_run item = inr spec) (concat runs) specs →
     main_cli' runs w
     = (Ended (fst (fst (main' specs w))), snd (fst (main' specs w)), snd (main' specs w)))
  ∧ (∀ good bad rest specs msg,
       concat runs = good ++ bad :: rest →
       Forall2 (fun item spec => _parse_run item = inr spec) good specs →
       _parse_run bad = inl msg →
       main_cli' runs w = (InvalidRun msg, [], w)).
Proof.
  unfold main_cli. rewrite parse_runs_concat. split.
  - intros specs Hall. rewrite (parse_group_ok _ _ [] Hall). simpl.
    destruct (main unicode_lower repo_dir python World subprocess_run read_json
                args specs w) as [[how tr] w']. reflexivity.
  - intros good bad rest specs msg -> Hgood Hbad.
    rewrite parse_group_app, (parse_group_ok _ _ [] Hgood). simpl.
    rewrite Hbad. reflexivity.
Qed.

End CommandLineFacts.

(** ** The rows and their order *)

Lemma ranks_before_spec (r1 r2 : Row) (a1 b1 a2 b2 : Q) :
  ok_rate r1 = Finite a1 → avg_latency_ms r1 = Finite b1 →
  ok_rate r2 = Finite a2 → avg_latency_ms r2 = Finite b2 →
  ranks_before r1 r2 ↔ (a2 < a1 ∨ (a1 == a2 ∧ b1 < b2))%Q.
Proof.
  intros Ha1 Hb1 Ha2 Hb2. unfold ranks_before, key_ltb, sort_key.
  rewrite Ha1, Hb1, Ha2, Hb2. simpl.
  destruct (Qeq_bool (- a1) (- a2)) eqn:Heq.
  - apply Qeq_bool_iff in Heq. rewrite negb_true_iff.
    destruct (Qle_bool b2 b1) eqn:Hle.
    + apply Qle_bool_iff in Hle. split; [discriminate|]. intros [Hlt | [_ Hlt]]; lra.
    + assert (Hnle : ¬ (b2 <= b1)%Q) by (rewrite <- Qle_bool_iff, Hle; discriminate).
      split; [|reflexivity]. intros _. right. split; lra.
  - apply Qeq_bool_neq in Heq. rewrite negb_true_iff.
    destruct (Qle_bool (- a2) (- a1)) eqn:Hle.
    + apply Qle_bool_iff in Hle. split; [discriminate|]. intros [Hlt | [Hq _]]; [lra|].
      exfalso. apply Heq. lra.
    + assert (Hnle : ¬ (- a2 <= - a1)%Q) by (rewrite <- Qle_bool_iff, Hle; discriminate).
      split; [|reflexivity]. intros _. left. lra.
Qed.

Lemma lex_asym (ax bx ay by' : Q) :
  (ay < ax ∨ (ax == ay ∧ bx < by'))%Q → ¬ (ax < ay ∨ (ay == ax ∧ by' < bx))%Q.
Proof. intros [? | [? ?]] [? | [? ?]]; lra. Qed.

Lemma lex_lt_le (ax bx ay by' az bz : Q) :
  (ay < ax ∨ (ax == ay ∧ bx < by'))%Q →
  ¬ (ay < az ∨ (az == ay ∧ bz < by'))%Q →
  (az < ax ∨ (ax == az ∧ bx < bz))%Q.
Proof.
  intros Hxy Hzy.
  destruct (Qlt_le_dec az ax) as [Hlt | Hge]; [left; exact Hlt | right].
  destruct (Qlt_le_dec ay az) as [Hlt' | Hge']; [exfalso; apply Hzy; left; exact Hlt'|].
  destruct Hxy as [Hlt | [Heq Hb]]; [lra|].
  split; [lra|].
  destruct (Qlt_le_dec bx bz) as [Hlt' | Hge'']; [exact Hlt'|].
  exfalso. apply Hzy. right. split; lra.
Qed.

Lemma ranks_asym (x y : Row) :
  finite_row x → finite_row y → ranks_before x y → ¬ ranks_before y x.
Proof.
  intros (ax & bx & Hax & Hbx) (ay & by' & Hay & Hby).
  rewrite (ranks_before_spec x y ax bx ay by'), (ranks_before_spec y x ay by' ax bx)
    by assumption.
  apply lex_asym.
Qed.

Lemma ranks_lt_le (x y z : Row) :
  finite_row x → finite_row y → finite_row z →
  ranks_before x y → ¬ ranks_before z y → ranks_before x z.
Proof.
  intros (ax & bx & Hax & Hbx) (ay & by' & Hay & Hby) (az & bz & Haz & Hbz).
  rewrite (ranks_before_spec x y ax bx ay by'), (ranks_before_spec z y az bz ay by'),
    (ranks_before_spec x z ax bx az bz) by assumption.
  apply lex_lt_le.
Qed.

Lemma ranks_dec (x y : Row) : ranks_before x y ∨ ¬ ranks_before x y.
Proof.
  unfold ranks_before. destruct (key_ltb (sort_key x) (sort_key y));
    [left; reflexivity | right; discriminate].
Qed.

Lemma ranks_le_lt (x y z : Row) :
  finite_row x → finite_row y → finite_row z →
  ¬ ranks_before y x → ranks_before y z → ranks_before x z.
Proof.
  intros Hx Hy Hz Hyx Hyz. destruct (ranks_dec x z) as [Hxz | Hxz]; [exact Hxz|].
  exfalso. apply Hyx. apply (ranks_lt_le y z x); assumption.
Qed.

Lemma ranks_le_trans (x y z : Row) :
  finite_row x → finite_row y → finite_row z →
  ¬ ranks_before y x → ¬ ranks_before z y → ¬ ranks_before z x.
Proof.
  intros Hx Hy Hz Hyx Hzy Hzx. apply Hzy. apply (ranks_lt_le z x y); assumption.
Qed.

Lemma insert_row_perm (r : Row) (l : list Row) : insert_row r l ≡ₚ r :: l.
Proof.
  induction l as [|x rest IH]; simpl; [reflexivity|].
  destruct (key_ltb (sort_key r) (sort_key x)); [reflexivity|].
  rewrite IH. apply perm_swap.
Qed.

Lemma insert_row_sorted (r : Row) (l : list Row) :
  finite_row r → Forall finite_row l →
  StronglySorted (fun r1 r2 => ¬ ranks_before r2 r1) l →
  StronglySorted (fun r1 r2 => ¬ ranks_before r2 r1) (insert_row r l).
Proof.
  intros Hr Hfin Hsorted. induction Hsorted as [|x rest Hrest IH Hx]; simpl.
  - repeat constructor.
  - inversion Hfin as [|? ? Hfx Hfrest]; subst.
    destruct (key_ltb (sort_key r) (sort_key x)) eqn:Hlt.
    + constructor; [constructor; assumption|].
      assert (Hrx : ranks_before r x) by exact Hlt.
      constructor; [apply ranks_asym; assumption|].
      rewrite Forall_forall in Hx, Hfrest. apply Forall_forall. intros y Hy.
      apply ranks_asym; [assumption | apply Hfrest; exact Hy|].
      apply (ranks_lt_le r x y); auto.
    + constructor; [apply IH; exact Hfrest|].
      rewrite insert_row_perm. constructor; [|exact Hx].
      unfold ranks_before. rewrite Hlt. discriminate.
Qed.

Lemma filter_none {A : Type} (P : A → Prop) `{∀ x, Decision (P x)} (l : list A) :
  Forall (fun x => ¬ P x) l → filter P l = [].
Proof.
  induction 1 as [|x l Hx _ IH]; [reflexivity|].
  rewrite filter_cons_False by exact Hx. exact IH.
Qed.

Lemma insert_row_stable (k r : Row) (l : list Row) :
  finite_row k → finite_row r → Forall finite_row l →
  StronglySorted (fun r1 r2 => ¬ ranks_before r2 r1) l →
  filter (same_rank k) (insert_row r l)
  = filter (same_rank k) l ++ filter (same_rank k) [r].
Proof.
  intros Hk Hr Hfin Hsorted. induction Hsorted as [|x rest Hrest IH Hx]; simpl.
  - reflexivity.
  - inversion Hfin as [|? ? Hfx Hfrest]; subst.
    destruct (key_ltb (sort_key r) (sort_key x)) eqn:Hlt.
    + destruct (decide (same_rank k r)) as [Hkr | Hkr].
      * assert (Hnone : filter (same_rank k) (x :: rest) = []).
        { apply filter_none. apply Forall_forall. intros y Hy [Hky _].
          assert (Hfy : finite_row y).
          { rewrite Forall_forall in Hfin. apply Hfin. exact Hy. }
          assert (Hry : ranks_before r y).
          { apply elem_of_cons in Hy as [-> | Hy]; [exact Hlt|].
            apply (ranks_lt_le r x y); auto.
            rewrite Forall_forall in Hx. apply Hx. exact Hy. }
          destruct Hkr as [_ Hkr].
          assert (Hk_y : ranks_before k y).
          { apply (ranks_le_lt k r y); auto.
            unfold ranks_before. rewrite Hkr. discriminate. }
          unfold ranks_before in Hk_y. congruence. }
        rewrite (filter_cons_True _ r (x :: rest)), (filter_cons_True _ r [])
          by exact Hkr.
        rewrite Hnone, filter_nil. reflexivity.
      * rewrite (filter_cons_False _ r (x :: rest)), (filter_cons_False _ r [])
          by exact Hkr.
        rewrite filter_nil, app_nil_r. reflexivity.
    + rewrite filter_cons, IH by exact Hfrest. rewrite (filter_cons _ x rest).
      destruct (decide (same_rank k x)); reflexivity.
Qed.

Lemma sort_fold_perm (rows acc : list Row) :
  fold_left (fun sorted r => insert_row r sorted) rows acc ≡ₚ acc ++ rows.
Proof.
  revert acc. induction rows as [|r rows IH]; intros acc; simpl.
  - rewrite app_nil_r. reflexivity.
  - rewrite IH, insert_row_perm. rewrite (Permutation_middle acc rows r). reflexivity.
Qed.

Lemma sort_fold_sorted (rows acc : list Row) :
  Forall finite_row rows → Forall finite_row acc →
  StronglySorted (fun r1 r2 => ¬ ranks_before r2 r1) acc →
  StronglySorted (fun r1 r2 => ¬ ranks_before r2 r1)
                 (fold_left (fun sorted r => insert_row r sorted) rows acc).
Proof.
  intros Hrows. revert acc. induction Hrows as [|r rows Hr _ IH]; intros acc Hacc Hsorted;
    simpl; [exact Hsorted|].
  apply IH.
  - rewrite insert_row_perm. constructor; assumption.
  - apply insert_row_sorted; assumption.
Qed.

Lemma sort_fold_stable (k : Row) (rows acc : list Row) :
  finite_row k → Forall finite_row rows → Forall finite_row acc →
  StronglySorted (fun r1 r2 => ¬ ranks_before r2 r1) acc →
  filter (same_rank k) (fold_left (fun sorted r => insert_row r sorted) rows acc)
  = filter (same_rank k) acc ++ filter (same_rank k) rows.
Proof.
  intros Hk Hrows. revert acc. induction Hrows as [|r rows Hr _ IH]; intros acc Hacc Hsorted;
    simpl.
  - rewrite filter_nil, app_nil_r. reflexivity.
  - rewrite IH.
    + rewrite insert_row_stable by assumption. rewrite <- app_assoc. f_equal.
      change (r :: rows) with ([r] ++ rows). rewrite filter_app. reflexivity.
    + rewrite insert_row_perm. constructor; assumption.
    + apply insert_row_sorted; assumption.
Qed.

(** X15: the rows sorted for the summary are the rows given, each as many
    times; when every row has numbers for [ok_rate] and [avg_latency_ms],
    no row is followed by one that ranks strictly before it, a row ranking
    before another when its [ok_rate] is greater or, the rates being
    equal, its [avg_latency_ms] is smaller; and the rows of a same rank
    stay in the order they were given in. *)
Theorem sort_rows_spec (rows : list Row) :
  sort_rows rows ≡ₚ rows
  ∧ (Forall finite_row rows →
     StronglySorted (fun r1 r2 => ¬ ranks_before r2 r1) (sort_rows rows)
     ∧ (∀ k, finite_row k →
          filter (same_rank k) (sort_rows rows) = filter (same_rank k) rows))
  ∧ (∀ r1 r2 a1 b1 a2 b2,
       ok_rate r1 = Finite a1 → avg_latency_ms r1 = Finite b1 →
       ok_rate r2 = Finite a2 → avg_latency_ms r2 = Finite b2 →
       ranks_before r1 r2 ↔ (a2 < a1 ∨ (a1 == a2 ∧ b1 < b2))%Q).
Proof.
  unfold sort_rows. split; [|split].
  - rewrite sort_fold_perm. reflexivity.
  - intros Hfin. split.
    + apply sort_fold_sorted; [exact Hfin | constructor | constructor].
    + intros k Hk. rewrite (sort_fold_stable k rows []); [reflexivity|..];
        try assumption; constructor.
  - apply ranks_before_spec.
Qed.

(** ** Reading an artifact *)

Section RowFacts.
Context `{PyBuiltins}.

Lemma int_or_zero (n : Z) : py_int (py_or (JInt n) (JInt 0)) = Ok n.
Proof.
  unfold py_or. simpl. destruct (Z.eqb_spec n 0) as [-> | Hn]; reflexivity.
Qed.

Lemma float_or_zero (q : Q) :
  ∃ q', py_float (py_or (JFloat (Finite q)) (JFloat (Finite 0))) = Ok (Finite q')
        ∧ (q' == q)%Q.
Proof.
  unfold py_or. simpl. destruct (Z.eqb_spec (Qnum q) 0) as [Hz | Hz]; simpl.
  - exists 0%Q. split; [reflexivity|]. unfold Qeq. simpl. rewrite Hz. reflexivity.
  - exists q. split; reflexivity.
Qed.

(** X16: the row the comparator builds from the result [run_eval]
    returns, as [main] of [eval.py] writes it, has the [ok_calls] and the
    [total_calls] of its summary and numbers equal to its [ok_rate] and
    [avg_latency_ms], with the provider and the model of the
    configuration and the path of the artifact. *)
Theorem row_of_eval_result (spec : RunSpec) (run_out : str) (res : Eval.RunResult) :
  ∃ rate lat,
    row_of spec run_out (Eval.result_to_json res)
    = Ok {| row_provider := provider spec;
            row_model := model spec;
            ok_calls := Eval.ok_calls (Eval.summary res);
            total_calls := Eval.total_calls (Eval.summary res);
            ok_rate := Finite rate;
            avg_latency_ms := Finite lat;
            out := run_out |}
    ∧ (rate == Eval.ok_rate (Eval.summary res))%Q
    ∧ (lat == Eval.avg_latency_ms (Eval.summary res))%Q.
Proof.
  destruct (float_or_zero (Eval.ok_rate (Eval.summary res))) as (rate & Hrate & Hr).
  destruct (float_or_zero (Eval.avg_latency_ms (Eval.summary res))) as (lat & Hlat & Hl).
  exists rate, lat. split; [|split; assumption].
  unfold row_of, Eval.result_to_json, Eval.summary_to_json. simpl.
  change (dict_get _ "summary") with
    (JDict {[ "total_calls" := JInt (Eval.total_calls (Eval.summary res));
              "ok_calls" := JInt (Eval.ok_calls (Eval.summary res));
              "ok_rate" := JFloat (Finite (Eval.ok_rate (Eval.summary res)));
              "avg_latency_ms" := JFloat (Finite (Eval.avg_latency_ms (Eval.summary res))) ]}).
  change (py_or (JDict ?d) (JDict ∅)) with (JDict d). simpl.
  change (dict_get _ "ok_calls") with (JInt (Eval.ok_calls (Eval.summary res))).
  change (dict_get _ "total_calls") with (JInt (Eval.total_calls (Eval.summary res))).
  change (dict_get _ "ok_rate") with (JFloat (Finite (Eval.ok_rate (Eval.summary res)))).
  change (dict_get _ "avg_latency_ms")
    with (JFloat (Finite (Eval.avg_latency_ms (Eval.summary res)))).
  rewrite !int_or_zero, Hrate, Hlat. reflexivity.
Qed.

(** X17: an artifact that is an object without summary (or with one that
    is null or empty) gives the row of zeros, and so does every missing
    number; an artifact that is not an object, or whose summary is not
    one, makes the reading raise [AttributeError]. *)
Theorem row_of_partial_artifact (spec : RunSpec) (run_out : str) :
  (∀ p, truthy (dict_get p "summary") = false →
     row_of spec run_out (JDict p) = Ok (zero_row spec run_out))
  ∧ (∀ p s row, p !! "summary" = Some (JDict s) → s ≠ ∅ →
       row_of spec run_out (JDict p) = Ok row →
       (s !! "ok_calls" = None → ok_calls row = 0)
       ∧ (s !! "total_calls" = None → total_calls row = 0)
       ∧ (s !! "ok_rate" = None → ok_rate row = Finite 0)
       ∧ (s !! "avg_latency_ms" = None → avg_latency_ms row = Finite 0))
  ∧ (∀ v, is_dict v = false →
       row_of spec run_out v
       = Raise (AttributeError ("'" ++ type_name v ++ "' object has no attribute 'get'")))
  ∧ (∀ p v, p !! "summary" = Some v → truthy v = true → is_dict v = false →
       row_of spec run_out (JDict p)
       = Raise (AttributeError ("'" ++ type_name v ++ "' object has no attribute 'get'"))).
Proof.
  split; [|split; [|split]].
  - intros p Hfalsy. unfold row_of, py_or. simpl. rewrite Hfalsy. reflexivity.
  - intros p s row Hp Hs. unfold row_of. simpl.
    assert (Hget : dict_get p "summary" = JDict s)
      by (unfold dict_get; rewrite Hp; reflexivity).
    rewrite Hget.
    assert (Htruthy : py_or (JDict s) (JDict ∅) = JDict s).
    { unfold py_or. simpl. destruct (size s) eqn:Hsize; [|reflexivity].
      apply map_size_empty_iff in Hsize. contradiction. }
    rewrite Htruthy. simpl.
    destruct (py_int (py_or (dict_get s "ok_calls") (JInt 0))) as [okc|] eqn:Hokc;
      simpl; [|discriminate].
    destruct (py_int (py_or (dict_get s "total_calls") (JInt 0))) as [tot|] eqn:Htot;
      simpl; [|discriminate].
    destruct (py_float (py_or (dict_get s "ok_rate") (JFloat (Finite 0)))) as [rate|] eqn:Hrate;
      simpl; [|discriminate].
    destruct (py_float (py_or (dict_get s "avg_latency_ms") (JFloat (Finite 0))))
      as [lat|] eqn:Hlat; simpl; [|discriminate].
    intros [= <-]. simpl. unfold dict_get in *.
    repeat split; intros Hnone; rewrite Hnone in *; simpl in *; congruence.
  - intros v Hv. destruct v; try discriminate; reflexivity.
  - intros p v Hp Htruthy Hv. unfold row_of. simpl.
    assert (Hget : dict_get p "summary" = v)
      by (unfold dict_get; rewrite Hp; reflexivity).
    rewrite Hget. unfold py_or. rewrite Htruthy. destruct v; try discriminate; reflexivity.
Qed.

End RowFacts.

(** ** The row of a configuration *)

Section RowOf.
Context `{PyBuiltins}.

Lemma row_of_fields (spec : RunSpec) (run_out : str) (payload : json) (row : Row) :
  row_of spec run_out payload = Ok row →
  row_provider row = provider spec ∧ row_model row = model spec ∧ out row = run_out.
Proof.
  unfold row_of.
  destruct (as_dict payload) as [p|]; simpl; [|discriminate].
  destruct (as_dict (py_or (dict_get p "summary") (JDict ∅))) as [s|]; simpl; [|discriminate].
  destruct (py_int (py_or (dict_get s "ok_calls") (JInt 0))); simpl; [|discriminate].
  destruct (py_int (py_or (dict_get s "total_calls") (JInt 0))); simpl; [|discriminate].
  destruct (py_float (py_or (dict_get s "ok_rate") (JFloat (Finite 0)))); simpl;
    [|discriminate].
  destruct (py_float (py_or (dict_get s "avg_latency_ms") (JFloat (Finite 0)))); simpl;
    [|discriminate].
  intros [= <-]. repeat split.
Qed.

End RowOf.

(** ** The slug as a file name *)

Lemma re_sub_from_in_set (b : bool) (s : str) :
  Forall (fun c => in_set c = true) (re_sub_from b s).
Proof.
  revert b. induction s as [|c rest IH]; intros b; simpl; [constructor|].
  destruct (in_set c) eqn:Hc; [constructor; [exact Hc | apply IH]|].
  destruct b; [apply IH | constructor; [reflexivity | apply IH]].
Qed.

Lemma re_sub_from_keeps (b : bool) (s : str) (c : N) :
  in_set c = true → c ∈ s → c ∈ re_sub_from b s.
Proof.
  intros Hc. revert b. induction s as [|x rest IH]; intros b Hin; [inversion Hin|].
  apply elem_of_cons in Hin as [<- | Hin]; simpl.
  - rewrite Hc. left.
  - destruct (in_set x); [right; apply IH; exact Hin|].
    destruct b; [apply IH; exact Hin | right; apply IH; exact Hin].
Qed.

Lemma re_sub_from_length (b : bool) (s : str) :
  (length (re_sub_from b s) ≤ length s)%nat.
Proof.
  revert b. induction s as [|c rest IH]; intros b; simpl; [lia|].
  destruct (in_set c); simpl; [specialize (IH false); lia|].
  destruct b; simpl; [specialize (IH true); lia | specialize (IH true); lia].
Qed.

Lemma re_sub_from_fixed (s : str) :
  Forall (fun c => in_set c = true) s → re_sub_from false s = s.
Proof.
  induction 1 as [|c rest Hc _ IH]; simpl; [reflexivity|]. rewrite Hc, IH. reflexivity.
Qed.

Lemma lower_from_keeps_ascii (unicode_lower : str → N → str → str)
    (before s : str) (c : N) :
  (c < 128)%N → c ∈ s → lower_ascii c ∈ lower_from unicode_lower before s.
Proof.
  intros Hc. revert before. induction s as [|x rest IH]; intros before Hin; [inversion Hin|].
  simpl. apply elem_of_app. apply elem_of_cons in Hin as [<- | Hin].
  - left. apply N.ltb_lt in Hc. rewrite Hc. left.
  - right. apply IH. exact Hin.
Qed.

(** X19: the slug of a run specification is a file name: it is not empty,
    as it keeps an underscore of the separator, it has no slash, no white
    space and no upper case ASCII letter, it is not longer than the
    lowercased text it is made from, and making a slug of it again, by the
    same replacement, leaves it as it is. *)
Theorem slug_is_file_name (unicode_lower : str → N → str → str) (spec : RunSpec) :
  slug unicode_lower spec ≠ []
  ∧ 95%N ∈ slug unicode_lower spec
  ∧ (47%N ∉ slug unicode_lower spec)
  ∧ Forall (fun c => is_space c = false ∧ ¬ (65 <= c <= 90)%N) (slug unicode_lower spec)
  ∧ (length (slug unicode_lower spec)
     ≤ length (lower unicode_lower (provider spec ++ cps "__" ++ model spec)))%nat
  ∧ re_sub (slug unicode_lower spec) = slug unicode_lower spec.
Proof.
  assert (Hin : 95%N ∈ slug unicode_lower spec).
  { unfold slug, re_sub. apply re_sub_from_keeps; [reflexivity|].
    apply (lower_from_keeps_ascii unicode_lower [] _ 95%N); [reflexivity|].
    rewrite !elem_of_app. right. left. left. }
  pose proof (re_sub_from_in_set false
                (lower unicode_lower (provider spec ++ cps "__" ++ model spec))) as Hset.
  fold (re_sub (lower unicode_lower (provider spec ++ cps "__" ++ model spec))) in Hset.
  fold (slug unicode_lower spec) in Hset.
  split; [|split; [exact Hin|split; [|split; [|split]]]].
  - intros Hnil. rewrite Hnil in Hin. inversion Hin.
  - intros H47. rewrite Forall_forall in Hset. apply Hset in H47. discriminate.
  - eapply Forall_impl; [exact Hset|]. intros c Hc. unfold in_set in Hc.
    rewrite !orb_true_iff, !andb_true_iff, !N.leb_le, !N.eqb_eq in Hc.
    split; [|lia].
    destruct (is_space c) eqn:Hs; [exfalso | reflexivity]. unfold is_space in Hs.
    rewrite !orb_true_iff, !andb_true_iff, !N.leb_le, !N.eqb_eq in Hs. lia.
  - unfold slug, re_sub. apply re_sub_from_length.
  - unfold re_sub at 1. apply re_sub_from_fixed. exact Hset.
Qed.

(** ** The properties on concrete inputs *)

Section Concrete.
#[local] Existing Instance Eval.example_builtins.

Lemma parse_run_round_trip_witness :
  _parse_run no_unicode (cps " openai : gpt-5.2  ")
  = inr {| provider := cps "openai"; model := cps "gpt-5.2" |}.
Proof.
  refine (parse_run_round_trip no_unicode (cps "openai") (cps "gpt-5.2")
            (cps " ") (cps " ") (cps " ") (cps "  ") _ _ _ _ _ _ _).
  - discriminate.
  - discriminate.
  - split; [reflexivity|]. exists 105%N. split; reflexivity.
  - split; [reflexivity|]. exists 50%N. split; reflexivity.
  - vm_compute. repeat constructor.
  - apply (bool_decide_unpack _). vm_compute. exact I.
  - vm_compute. repeat constructor.
Defined.

End Concrete.

End CompareExtra.

(** * Further properties of [compare_eval.py]: all that [main] does *)

Module CompareIOProofs.
Import Py Compare CompareIO.
Local Open Scope list_scope.

Section TraceFacts.
Context `{PyBuiltins}.
Variable unicode_lower : str → N → str → str.
Variables (repo_dir python : str).
Variable World : Type.
Variable mkdir : World → str → option exn * World.
Variable print : World → str → option exn * World.
Variable subprocess_run : World → Command → str → str → result Z * World.
Variable read_json : World → str → result json.
Variable write_text : World → str → list Row → option exn * World.
Variable format_row : Row → str.
Variable args : Args.

Abbreviation run_loop' :=
  (run_loop unicode_lower repo_dir python World print subprocess_run read_json args).
Abbreviation print_all' := (print_all World print).
Abbreviation main' :=
  (main unicode_lower repo_dir python World mkdir print subprocess_run read_json
        write_text format_row args).
Abbreviation run_out_of := (Compare.run_out_of unicode_lower repo_dir).
Abbreviation launch_of := (CompareIO.launch_of unicode_lower repo_dir python args).
Abbreviation run_effects := (CompareIO.run_effects unicode_lower repo_dir python args).
Abbreviation row_for := (Compare.row_for unicode_lower repo_dir).
Abbreviation summary_lines := (CompareIO.summary_lines repo_dir format_row).

Lemma io_run_loop_cons (spec : RunSpec) (rest : list RunSpec) (rows : list Row)
    (tr : list effect) (w : World) :
  run_loop' (spec :: rest) rows tr w
  = let run_out := run_out_of spec in
    let cmd := command_of repo_dir python args run_out in
    let tr0 := tr ++ [Print (banner spec)] in
    match fst (print w (banner spec)) with
    | Some e => (inr (Uncaught e), tr0, snd (print w (banner spec)))
    | None =>
        let ran := subprocess_run (snd (print w (banner spec))) cmd
                     (provider spec) (model spec) in
        let tr1 := tr0 ++ [Run cmd (provider spec) (model spec)] in
        match fst ran with
        | Raise e => (inr (Uncaught e), tr1, snd ran)
        | Ok returncode =>
            if negb (Z.eqb returncode 0) then (inr (SystemExit returncode), tr1, snd ran)
            else
              match payload ← read_json (snd ran) run_out; row_of spec run_out payload with
              | Raise e => (inr (Uncaught e), tr1 ++ [ReadText run_out], snd ran)
              | Ok row => run_loop' rest (rows ++ [row]) (tr1 ++ [ReadText run_out]) (snd ran)
              end
        end
    end.
Proof.
  simpl. destruct (print w (banner spec)) as [[e|] w0]; [reflexivity|]. simpl.
  destruct (subprocess_run w0 _ (provider spec) (model spec)) as [[code|e] w1]; reflexivity.
Qed.

(** The loop, however it ends: [n] configurations had their banner
    printed, their sub-run launched and exiting with 0, and their artifact
    read; then the loop ended with the rows of all, or on the artifact of
    the last of the [n], or on the banner or the sub-run of the next
    one. *)
Lemma io_run_loop_effects (run_specs : list RunSpec) (rows : list Row) (tr : list effect)
    (w : World) (res : list Row + outcome) (tr' : list effect) (w' : World) :
  run_loop' run_specs rows tr w = (res, tr', w') →
  ∃ n tail,
    tr' = tr ++ flat_map run_effects (take n run_specs) ++ tail
    ∧ (n ≤ length run_specs)%nat
    ∧ match res with
      | inl rows' =>
          n = length run_specs ∧ tail = []
          ∧ ∃ new, rows' = rows ++ new ∧ Forall2 row_for run_specs new
      | inr (SystemExit code) =>
          code ≠ 0
          ∧ ∃ spec, run_specs !! n = Some spec ∧ tail = [Print (banner spec); launch_of spec]
      | inr (Uncaught e) =>
          (tail = [] ∧ (0 < n)%nat)
          ∨ ∃ spec, run_specs !! n = Some spec
                    ∧ (tail = [Print (banner spec)]
                       ∨ tail = [Print (banner spec); launch_of spec])
      | inr Returned => False
      end.
Proof.
  revert rows tr w. induction run_specs as [|spec rest IH]; intros rows tr w.
  - simpl. intros [= <- <- <-]. exists 0%nat, []. simpl. rewrite app_nil_r.
    repeat split; try reflexivity. exists []. rewrite app_nil_r.
    split; [reflexivity | constructor].
  - rewrite io_run_loop_cons. cbv zeta.
    destruct (print w (banner spec)) as [[e|] w0]; simpl fst; simpl snd; cbv iota.
    { intros [= <- <- <-]. exists 0%nat, [Print (banner spec)]. simpl.
      split; [reflexivity|]. split; [lia|]. right. exists spec.
      split; [reflexivity | left; reflexivity]. }
    destruct (subprocess_run w0 _ (provider spec) (model spec)) as [[returncode|e] w1];
      simpl fst; simpl snd; cbv iota.
    2: { intros [= <- <- <-]. exists 0%nat, [Print (banner spec); launch_of spec]. simpl.
         rewrite <- app_assoc. split; [reflexivity|]. split; [lia|]. right. exists spec.
         split; [reflexivity | right; reflexivity]. }
    destruct (Z.eqb_spec returncode 0) as [-> | Hcode]; simpl negb; cbv iota.
    + destruct (read_json w1 (run_out_of spec)) as [payload|e] eqn:Hread; simpl.
      * destruct (row_of spec (run_out_of spec) payload) as [row|e] eqn:Hrow.
        -- intros Hloop. destruct (IH _ _ _ Hloop) as (n & tail & -> & Hn & Hres).
           exists (S n), tail. simpl. rewrite <- !app_assoc. simpl.
           split; [reflexivity|]. split; [lia|].
           destruct res as [rows'|[|code|e]]; try exact Hres.
           ++ destruct Hres as (-> & -> & new & -> & Hnew). repeat split.
              exists (row :: new). rewrite <- app_assoc. split; [reflexivity|].
              constructor; [|exact Hnew].
              apply (CompareExtra.row_of_fields _ _ _ _ Hrow).
           ++ destruct Hres as [[? ?] | Hnext]; [left; split; [assumption | lia]|].
              right. exact Hnext.
        -- intros [= <- <- <-]. exists 1%nat, []. simpl. rewrite <- !app_assoc. simpl.
           split; [reflexivity|]. split; [lia|]. left. split; [reflexivity | lia].
      * intros [= <- <- <-]. exists 1%nat, []. simpl. rewrite <- !app_assoc. simpl.
        split; [reflexivity|]. split; [lia|]. left. split; [reflexivity | lia].
    + intros [= <- <- <-]. exists 0%nat, [Print (banner spec); launch_of spec]. simpl.
      rewrite <- app_assoc. split; [reflexivity|]. split; [lia|]. split; [exact Hcode|].
      exists spec. split; reflexivity.
Qed.

(** The lines are printed in order, up to the first that raises. *)
Lemma print_all_effects (lines : list str) (tr : list effect) (w : World)
    (res : option exn) (tr' : list effect) (w' : World) :
  print_all' lines tr w = (res, tr', w') →
  ∃ k, tr' = tr ++ map Print (take k lines)
       ∧ (k ≤ length lines)%nat
       ∧ (res = None → k = length lines)
       ∧ (is_Some res → (0 < k)%nat).
Proof.
  revert tr w. induction lines as [|line rest IH]; intros tr w; simpl.
  - intros [= <- <- <-]. exists 0%nat. rewrite app_nil_r.
    repeat split; try reflexivity. intros [? [=]].
  - destruct (print w line) as [[e|] w0].
    + intros [= <- <- <-]. exists 1%nat. simpl.
      split; [reflexivity|]. split; [lia|]. split; [discriminate | lia].
    + intros Hrest. destruct (IH _ _ Hrest) as (k & -> & Hk & Hnone & Hsome).
      exists (S k). simpl. rewrite <- app_assoc. split; [reflexivity|].
      split; [lia|]. split; [intros Hres; rewrite (Hnone Hres); reflexivity | lia].
Qed.


(** [Compare.main] is this [main] in surroundings where only the reading
    of an artifact raises: same outcome, same world, and the same effects
    once what is printed is left out. *)
Lemma main_without_failures
    (run0 : World → Command → str → str → Z * World) :
  (∀ w0 path, mkdir w0 path = (None, w0)) →
  (∀ w0 text, print w0 text = (None, w0)) →
  (∀ w0 path rows, write_text w0 path rows = (None, w0)) →
  (∀ w0 cmd a b, subprocess_run w0 cmd a b = (Ok (fst (run0 w0 cmd a b)), snd (run0 w0 cmd a b))) →
  ∀ run_specs w,
    Compare.main unicode_lower repo_dir python World run0 read_json args run_specs w
    = (fst (fst (main' run_specs w)), file_effects (snd (fst (main' run_specs w))),
       snd (main' run_specs w)).
Proof.
  intros Hmk Hpr Hwr Hrun run_specs w.
  assert (Happ : ∀ t1 t2, file_effects (t1 ++ t2) = file_effects t1 ++ file_effects t2)
    by (intros; apply omap_app).
  assert (Hloop : ∀ specs rows tr w0,
            Compare.run_loop unicode_lower repo_dir python World run0 read_json args
              specs rows (file_effects tr) w0
            = (fst (fst (run_loop' specs rows tr w0)),
               file_effects (snd (fst (run_loop' specs rows tr w0))),
               snd (run_loop' specs rows tr w0))).
  { induction specs as [|spec rest IH]; intros rows tr w0; [reflexivity|].
    rewrite CompareProofs.run_loop_cons, io_run_loop_cons. cbv zeta.
    rewrite Hpr. simpl fst. simpl snd. cbv iota. rewrite Hrun. simpl fst. simpl snd.
    cbv iota.
    destruct (run0 w0 _ (provider spec) (model spec)) as [code w1]. simpl fst. simpl snd.
    assert (Hp : ∀ text, file_effects [Print text] = []) by reflexivity.
    assert (Hr : ∀ cmd a b, file_effects [Run cmd a b] = [Compare.Run cmd a b])
      by reflexivity.
    assert (Hd : ∀ path, file_effects [ReadText path] = [Compare.ReadText path])
      by reflexivity.
    destruct (negb (Z.eqb code 0)).
    - simpl fst. simpl snd. rewrite !Happ, Hp, Hr, app_nil_r. reflexivity.
    - destruct (payload ← read_json w1 (run_out_of spec);
                row_of spec (run_out_of spec) payload) as [row|e].
      + rewrite <- IH. rewrite !Happ, Hp, Hr, Hd, app_nil_r. reflexivity.
      + simpl fst. simpl snd. rewrite !Happ, Hp, Hr, Hd, app_nil_r. reflexivity. }
  assert (Hprint : ∀ lines tr w0,
            print_all' lines tr w0 = (None, tr ++ map Print lines, w0)).
  { induction lines as [|line rest IH]; intros tr w0; simpl.
    - rewrite app_nil_r. reflexivity.
    - rewrite Hpr, IH, <- app_assoc. reflexivity. }
  assert (Hquiet : ∀ lines, file_effects (map Print lines) = []).
  { induction lines as [|line rest IH]; [reflexivity | exact IH]. }
  unfold Compare.main, main. rewrite Hmk. cbv beta match zeta.
  change [Compare.Mkdir (out_dir repo_dir)] with (file_effects [Mkdir (out_dir repo_dir)]).
  rewrite Hloop.
  destruct (run_loop' run_specs [] [Mkdir (out_dir repo_dir)] w) as [[[rows|how] tr1] w1];
    cbv beta match zeta delta [fst snd]; [|reflexivity].
  rewrite Hwr. cbv beta match zeta. rewrite Hprint. cbv beta match zeta delta [fst snd].
  rewrite !Happ, Hquiet, app_nil_r. reflexivity.
Qed.

End TraceFacts.

(** ** The properties on concrete inputs *)

Section Concrete.
#[local] Existing Instance Eval.example_builtins.


End Concrete.

End CompareIOProofs.

(** * Properties of [pricing.py] *)

Module PricingProofs.
Import Py Compare Pricing.
Local Open Scope list_scope.

Lemma starts_with_spec (pre m : str) :
  starts_with pre m = true ↔ ∃ suffix, m = pre ++ suffix.
Proof.
  revert m. induction pre as [|c pre IH]; intros m; simpl.
  - split; [intros _; exists m; reflexivity | reflexivity].
  - destruct m as [|d m'].
    + split; [discriminate | intros [suffix Heq]; discriminate].
    + rewrite andb_true_iff, N.eqb_eq, IH. split.
      * intros [-> [suffix ->]]. exists suffix. reflexivity.
      * intros [suffix [= -> ->]]. split; [reflexivity | exists suffix; reflexivity].
Qed.

Lemma matches_spec (m base : str) :
  matches m base = true ↔ m = base ∨ ∃ suffix, m = base ++ cps "-" ++ suffix.
Proof.
  unfold matches. rewrite orb_true_iff, bool_decide_eq_true, starts_with_spec.
  split; (intros [Heq | [suffix Heq]]; [left; exact Heq | right; exists suffix]).
  - rewrite Heq, <- app_assoc. reflexivity.
  - rewrite Heq, <- app_assoc. reflexivity.
Qed.

Lemma first_match_Some (m base : str) (bases : list str) :
  first_match m bases = Some base → base ∈ bases ∧ matches m base = true.
Proof.
  induction bases as [|b rest IH]; simpl; [discriminate|].
  destruct (matches m b) eqn:Hb.
  - intros [= <-]. split; [left | exact Hb].
  - intros Hrest. destruct (IH Hrest) as [Hin Hm]. split; [right; exact Hin | exact Hm].
Qed.

Lemma first_match_None (m : str) (bases : list str) :
  first_match m bases = None ↔ Forall (fun b => matches m b = false) bases.
Proof.
  induction bases as [|b rest IH]; simpl.
  - split; [constructor | reflexivity].
  - destruct (matches m b) eqn:Hb.
    + split; [discriminate|]. intros Hall. inversion Hall; subst. congruence.
    + rewrite IH. split; [intros Hall; constructor; assumption|].
      intros Hall. inversion Hall; subst. assumption.
Qed.

Lemma decreasing_len_head (k : str) (rest : list str) :
  decreasing_len (k :: rest) = true →
  Forall (fun k' => (length k' ≤ length k)%nat) rest ∧ decreasing_len rest = true.
Proof.
  revert k. induction rest as [|k2 rest IH]; intros k; [split; [constructor | reflexivity]|].
  change (decreasing_len (k :: k2 :: rest))
    with (Nat.leb (length k2) (length k) && decreasing_len (k2 :: rest)).
  rewrite andb_true_iff, Nat.leb_le. intros [Hle Hrest].
  split; [|exact Hrest]. constructor; [exact Hle|].
  destruct (IH k2 Hrest) as [Hall _]. eapply Forall_impl; [exact Hall|].
  intros k' Hk'. simpl in Hk'. lia.
Qed.

(** The first match in a list sorted by decreasing length is a longest
    match. *)
Lemma first_match_longest (m base : str) (bases : list str) :
  decreasing_len bases = true →
  first_match m bases = Some base →
  ∀ k, k ∈ bases → matches m k = true → (length k ≤ length base)%nat.
Proof.
  induction bases as [|b rest IH]; intros Hdec Hfirst k Hin Hk; [inversion Hin|].
  destruct (decreasing_len_head _ _ Hdec) as [Hall Hrest]. simpl in Hfirst.
  destruct (matches m b) eqn:Hb.
  - injection Hfirst as <-. apply elem_of_cons in Hin as [-> | Hin]; [lia|].
    rewrite Forall_forall in Hall. apply Hall. exact Hin.
  - apply elem_of_cons in Hin as [-> | Hin]; [congruence|].
    apply (IH Hrest Hfirst k Hin Hk).
Qed.

Lemma insert_by_len_perm (k : str) (l : list str) : insert_by_len k l ≡ₚ k :: l.
Proof.
  induction l as [|x rest IH]; simpl; [reflexivity|].
  destruct (Nat.ltb (length x) (length k)); [reflexivity|].
  rewrite IH. apply perm_swap.
Qed.

Lemma sorted_by_len_perm (keys : list str) : sorted_by_len keys ≡ₚ keys.
Proof.
  unfold sorted_by_len.
  assert (Hgen : ∀ acc, fold_left (fun sorted k => insert_by_len k sorted) keys acc
                        ≡ₚ acc ++ keys).
  { induction keys as [|k keys IH]; intros acc; simpl.
    - rewrite app_nil_r. reflexivity.
    - rewrite IH, insert_by_len_perm, (Permutation_middle acc keys k). reflexivity. }
  apply (Hgen []).
Qed.

Lemma sorted_keys_decreasing : decreasing_len (sorted_by_len price_keys) = true.
Proof. vm_compute. reflexivity. Qed.

Lemma prices_get_Some (table : list (str * ModelPrice)) (m : str) :
  is_Some (prices_get table m) ↔ m ∈ map fst table.
Proof.
  induction table as [|[k price] rest IH]; simpl.
  - split; [intros [? [=]] | intros Hin; inversion Hin].
  - destruct (decide (k = m)) as [-> | Hne].
    + rewrite bool_decide_eq_true_2 by reflexivity. split; [intros _; left | eauto].
    + rewrite bool_decide_eq_false_2 by exact Hne. rewrite IH. split.
      * intros Hin. right. exact Hin.
      * intros Hin. apply elem_of_cons in Hin as [Heq | Hin]; [congruence | exact Hin].
Qed.

Lemma prices_get_elem (table : list (str * ModelPrice)) (m : str) (price : ModelPrice) :
  prices_get table m = Some price → (m, price) ∈ table.
Proof.
  induction table as [|[k p] rest IH]; simpl; [discriminate|].
  destruct (decide (k = m)) as [-> | Hne].
  - rewrite bool_decide_eq_true_2 by reflexivity. intros [= ->]. left.
  - rewrite bool_decide_eq_false_2 by exact Hne. intros Hget. right. apply IH. exact Hget.
Qed.

Section NormalizeFacts.
Variable unicode_lower : str → N → str → str.

Abbreviation clean := (Pricing.clean unicode_lower).
Abbreviation _normalize_model := (Pricing._normalize_model unicode_lower).
Abbreviation price_for_model := (Pricing.price_for_model unicode_lower).

Lemma normalize_cases (model : option str) :
  (_normalize_model model ∈ price_keys
   ∧ matches (clean model) (_normalize_model model) = true
   ∧ ∀ k, k ∈ price_keys → matches (clean model) k = true →
          (length k ≤ length (_normalize_model model))%nat)
  ∨ (_normalize_model model = clean model
     ∧ ∀ k, k ∈ price_keys → matches (clean model) k = false).
Proof.
  unfold Pricing._normalize_model.
  destruct (first_match (clean model) (sorted_by_len price_keys)) as [base|] eqn:Hfirst.
  - left. destruct (first_match_Some _ _ _ Hfirst) as [Hin Hm].
    split; [rewrite <- (sorted_by_len_perm price_keys); exact Hin|].
    split; [exact Hm|]. intros k Hk Hmk.
    apply (first_match_longest _ _ _ sorted_keys_decreasing Hfirst k); [|exact Hmk].
    rewrite (sorted_by_len_perm price_keys). exact Hk.
  - right. split; [reflexivity|]. intros k Hk.
    apply first_match_None in Hfirst. rewrite Forall_forall in Hfirst. apply Hfirst.
    rewrite (sorted_by_len_perm price_keys). exact Hk.
Qed.

(** X20: the normal form of a model identifier, cleaned of the white
    space at its ends and lowercased, is the longest identifier of the
    table that the cleaned text equals or extends with [-] and a suffix;
    it is the cleaned text itself when there is none; and every
    identifier of the table is its own normal form. *)
Theorem normalize_model_spec (model : option str) :
  ((_normalize_model model ∈ price_keys
    ∧ (clean model = _normalize_model model
       ∨ ∃ suffix, clean model = _normalize_model model ++ cps "-" ++ suffix)
    ∧ ∀ k suffix, k ∈ price_keys →
        clean model = k ∨ clean model = k ++ cps "-" ++ suffix →
        (length k ≤ length (_normalize_model model))%nat)
   ∨ (_normalize_model model = clean model
      ∧ ∀ k suffix, k ∈ price_keys →
          clean model ≠ k ∧ clean model ≠ k ++ cps "-" ++ suffix))
  ∧ Forall (fun k => _normalize_model (Some k) = k) price_keys.
Proof.
  split.
  - destruct (normalize_cases model) as [(Hin & Hm & Hlong) | (Heq & Hnone)].
    + left. split; [exact Hin|]. split; [apply matches_spec; exact Hm|].
      intros k suffix Hk Hcase. apply Hlong; [exact Hk|]. apply matches_spec.
      destruct Hcase as [Heq | Heq]; [left; exact Heq | right; exists suffix; exact Heq].
    + right. split; [exact Heq|]. intros k suffix Hk.
      specialize (Hnone k Hk).
      split; intros Hcase;
        (assert (Hyes : matches (clean model) k = true);
         [apply matches_spec | congruence]).
      * left. exact Hcase.
      * right. exists suffix. exact Hcase.
  - apply Forall_forall. intros k Hk. apply list_elem_of_In in Hk.
    vm_compute in Hk.
    repeat (destruct Hk as [<- | Hk]; [vm_compute; reflexivity|]).
    destruct Hk.
Qed.

(** X21: a model has a price exactly when its cleaned identifier equals
    an identifier of the table or extends one with [-] and a suffix; the
    price is then the one the table gives for its normal form. *)
Theorem price_for_model_spec (model : option str) :
  (is_Some (price_for_model model)
   ↔ ∃ k, k ∈ price_keys
          ∧ (clean model = k ∨ ∃ suffix, clean model = k ++ cps "-" ++ suffix))
  ∧ (∀ price, price_for_model model = Some price →
       (_normalize_model model, price) ∈ _PRICES).
Proof.
  unfold Pricing.price_for_model. split.
  - rewrite prices_get_Some. fold price_keys. split.
    + intros Hin. destruct (normalize_cases model) as [(_ & Hm & _) | (Heq & Hnone)].
      * exists (_normalize_model model). split; [exact Hin|]. apply matches_spec. exact Hm.
      * exfalso. specialize (Hnone _ Hin). rewrite <- Heq in Hnone.
        assert (Hyes : matches (_normalize_model model) (_normalize_model model) = true)
          by (apply matches_spec; left; reflexivity).
        congruence.
    + intros (k & Hk & Hcase). apply matches_spec in Hcase.
      destruct (normalize_cases model) as [(Hin & _) | (_ & Hnone)]; [exact Hin|].
      specialize (Hnone k Hk). congruence.
  - intros price. apply prices_get_elem.
Qed.

End NormalizeFacts.

Local Open Scope Q_scope.

Lemma prices_positive :
  Forall (fun kp => 0 < input_per_1m kp.2 ∧ 0 < output_per_1m kp.2) _PRICES.
Proof. unfold _PRICES. repeat (constructor; [split; reflexivity|]). constructor. Qed.

Lemma millionth_nonneg (n : Z) : (0 ≤ n)%Z → 0 <= inject_Z n / 1000000.
Proof.
  intros Hn. assert (Ha : 0 <= inject_Z n)
    by (change 0 with (inject_Z 0); rewrite <- Zle_Qle; exact Hn).
  apply Qmult_le_0_compat; [exact Ha | discriminate].
Qed.

Lemma millionth_zero (n : Z) : inject_Z n / 1000000 == 0 ↔ n = 0%Z.
Proof.
  split.
  - intros Heq. apply (inject_Z_injective n 0%Z). change (inject_Z 0) with 0.
    apply Qmult_integral in Heq. destruct Heq as [Heq | Heq]; [exact Heq | discriminate].
  - intros ->. reflexivity.
Qed.

Lemma weighted_sum_nonneg (pt ct : Z) (i o : Q) :
  (0 ≤ pt)%Z → (0 ≤ ct)%Z → 0 < i → 0 < o →
  0 <= (inject_Z pt / 1000000) * i + (inject_Z ct / 1000000) * o
  ∧ ((inject_Z pt / 1000000) * i + (inject_Z ct / 1000000) * o == 0
     ↔ pt = 0%Z ∧ ct = 0%Z).
Proof.
  intros Hp Hc Hi Ho.
  pose proof (millionth_nonneg pt Hp) as Ha. pose proof (millionth_nonneg ct Hc) as Hb.
  rewrite <- (millionth_zero pt), <- (millionth_zero ct).
  generalize dependent (inject_Z pt / 1000000). generalize dependent (inject_Z ct / 1000000).
  intros b Hb a Ha.
  assert (Hai : 0 <= a * i) by (apply Qmult_le_0_compat; lra).
  assert (Hbo : 0 <= b * o) by (apply Qmult_le_0_compat; lra).
  split; [lra|]. split.
  - intros Heq. assert (Hai0 : a * i == 0) by lra. assert (Hbo0 : b * o == 0) by lra.
    apply Qmult_integral in Hai0, Hbo0. split; [destruct Hai0 | destruct Hbo0]; lra.
  - intros [-> ->]. lra.
Qed.

Lemma per_million_ok (n : Z) :
  (Z.abs n < float_int_limit)%Z → per_million n = Ok (inject_Z n / 1000000).
Proof.
  intros Hn. unfold per_million.
  destruct (Z.ltb_spec (Z.abs n) float_int_limit) as [_ | Hge]; [reflexivity | lia].
Qed.

Lemma per_million_raise (n : Z) :
  (float_int_limit ≤ Z.abs n)%Z →
  per_million n = Raise (OverflowError "int too large to convert to float").
Proof.
  intros Hn. unfold per_million.
  destruct (Z.ltb_spec (Z.abs n) float_int_limit) as [Hlt | _]; [lia | reflexivity].
Qed.

Section CostFacts.
Variable unicode_lower : str → N → str → str.
Context `{PyBuiltins}.

Abbreviation _normalize_model := (Pricing._normalize_model unicode_lower).
Abbreviation price_for_model := (Pricing.price_for_model unicode_lower).
Abbreviation estimate_cost_usd := (Pricing.estimate_cost_usd unicode_lower).

Lemma estimate_cost_unfold (model : option str) (usage : gmap string json) (pt ct : Z) :
  token_count usage "prompt_tokens" = Ok pt →
  token_count usage "completion_tokens" = Ok ct →
  estimate_cost_usd model usage
  = match price_for_model model with
    | None => Ok (0, UnknownModel (default (cps "None") model) pt ct)
    | Some price =>
        a ← per_million pt;
        b ← per_million ct;
        mret (a * input_per_1m price + b * output_per_1m price,
              Priced (_normalize_model model) pt ct
                     (input_per_1m price) (output_per_1m price))
    end.
Proof.
  unfold token_count, Pricing.estimate_cost_usd. intros -> ->. reflexivity.
Qed.

(** X22: with token counts that [int] reads and that are not negative
    (and small enough for a float), the estimate returns; the cost is 0
    for a model without a price, and [(pt * input_per_1m + ct *
    output_per_1m) / 1000000] at the prices the table gives the model's
    normal form otherwise; it is never negative, and it is 0 only for a
    model without a price or when no token was counted.  (Floats are the
    rationals they denote.) *)
Theorem estimate_cost_spec (model : option str) (usage : gmap string json) (pt ct : Z) :
  token_count usage "prompt_tokens" = Ok pt →
  token_count usage "completion_tokens" = Ok ct →
  (0 ≤ pt < float_int_limit)%Z →
  (0 ≤ ct < float_int_limit)%Z →
  ∃ cost d,
    estimate_cost_usd model usage = Ok (cost, d)
    ∧ 0 <= cost
    ∧ (cost == 0 ↔ price_for_model model = None ∨ (pt = 0%Z ∧ ct = 0%Z))
    ∧ match price_for_model model with
      | None => cost = 0 ∧ d = UnknownModel (default (cps "None") model) pt ct
      | Some price =>
          (_normalize_model model, price) ∈ _PRICES
          ∧ cost == (inject_Z pt * input_per_1m price
                     + inject_Z ct * output_per_1m price) / 1000000
          ∧ d = Priced (_normalize_model model) pt ct
                       (input_per_1m price) (output_per_1m price)
      end.
Proof.
  intros Hpt Hct Hp Hc. rewrite (estimate_cost_unfold model usage pt ct Hpt Hct).
  destruct (price_for_model model) as [price|] eqn:Hprice.
  - rewrite (per_million_ok pt), (per_million_ok ct) by lia.
    pose proof (prices_get_elem _ _ _ Hprice) as Hin.
    pose proof prices_positive as Hpos. rewrite Forall_forall in Hpos.
    destruct (Hpos _ Hin) as [Hi Ho]. simpl in Hi, Ho.
    destruct (weighted_sum_nonneg pt ct _ _ (proj1 Hp) (proj1 Hc) Hi Ho) as [Hnn Hzero].
    eexists _, _. split; [reflexivity|]. split; [exact Hnn|]. split.
    + rewrite Hzero. split; [intros Hz; right; exact Hz|].
      intros [Hno | Hz]; [discriminate | exact Hz].
    + split; [exact Hin|]. split; [|reflexivity]. unfold Qdiv. ring.
  - eexists _, _. split; [reflexivity|]. split; [apply Qle_refl|]. split.
    + split; [intros _; left; reflexivity | reflexivity].
    + split; reflexivity.
Qed.

(** X23: the estimate raises exactly when [int] refuses one of the two
    token counts, or when the model has a price and a count is too large
    for a float; a count that [int] refuses is reported whatever the
    model, and for a model without a price the size of the counts is no
    obstacle. *)
Theorem estimate_cost_raises (model : option str) (usage : gmap string json) :
  ((∃ e, estimate_cost_usd model usage = Raise e)
   ↔ (∃ e, token_count usage "prompt_tokens" = Raise e)
     ∨ (∃ e, token_count usage "completion_tokens" = Raise e)
     ∨ (is_Some (price_for_model model)
        ∧ ∃ pt ct, token_count usage "prompt_tokens" = Ok pt
                   ∧ token_count usage "completion_tokens" = Ok ct
                   ∧ (float_int_limit ≤ Z.abs pt ∨ float_int_limit ≤ Z.abs ct)%Z))
  ∧ (∀ e, token_count usage "prompt_tokens" = Raise e →
          estimate_cost_usd model usage = Raise e)
  ∧ (∀ pt e, token_count usage "prompt_tokens" = Ok pt →
             token_count usage "completion_tokens" = Raise e →
             estimate_cost_usd model usage = Raise e).
Proof.
  split; [|split].
  - destruct (token_count usage "prompt_tokens") as [pt | e1] eqn:Hpt.
    2: { split; [intros _; left; exists e1; reflexivity|]. intros _. exists e1.
         unfold token_count in Hpt. unfold Pricing.estimate_cost_usd.
         rewrite Hpt. reflexivity. }
    destruct (token_count usage "completion_tokens") as [ct | e2] eqn:Hct.
    2: { split; [intros _; right; left; exists e2; reflexivity|]. intros _. exists e2.
         unfold token_count in Hpt, Hct. unfold Pricing.estimate_cost_usd.
         rewrite Hpt, Hct. reflexivity. }
    rewrite (estimate_cost_unfold model usage pt ct Hpt Hct).
    destruct (price_for_model model) as [price|] eqn:Hprice.
    + destruct (Z.lt_ge_cases (Z.abs pt) float_int_limit) as [Hp | Hp].
      * rewrite (per_million_ok pt Hp).
        destruct (Z.lt_ge_cases (Z.abs ct) float_int_limit) as [Hc | Hc].
        -- rewrite (per_million_ok ct Hc). split; [intros [e [=]]|].
           intros [[e [=]] | [[e [=]] | [_ (pt' & ct' & [= <-] & [= <-] & Hbig)]]]. lia.
        -- rewrite (per_million_raise ct Hc). split; [|intros _; eexists; reflexivity].
           intros _. right. right. split; [eauto|]. exists pt, ct. auto.
      * rewrite (per_million_raise pt Hp). split; [|intros _; eexists; reflexivity].
        intros _. right. right. split; [eauto|]. exists pt, ct. auto.
    + split; [intros [e [=]]|].
      intros [[e [=]] | [[e [=]] | [[price [=]] _]]].
  - intros e Hpt. unfold token_count in Hpt. unfold Pricing.estimate_cost_usd.
    rewrite Hpt. reflexivity.
  - intros pt e Hpt Hct. unfold token_count in Hpt, Hct. unfold Pricing.estimate_cost_usd.
    rewrite Hpt, Hct. reflexivity.
Qed.

End CostFacts.

(** ** The cost of an example *)

Section Concrete.
#[local] Existing Instance Eval.example_builtins.

Lemma estimate_cost_spec_witness :
  ∃ cost d,
    estimate_cost_usd no_unicode (Some (cps " GPT-4o-Mini-2024-07-18 ")) example_usage
    = Ok (cost, d)
    ∧ 0 <= cost
    ∧ d = Priced (cps "gpt-4o-mini") 1000000 2000000 0.15 0.60.
Proof.
  destruct (estimate_cost_spec no_unicode (Some (cps " GPT-4o-Mini-2024-07-18 "))
              example_usage 1000000 2000000)
    as (cost & d & Hrun & Hnn & _ & Hcase).
  - reflexivity.
  - reflexivity.
  - split; [discriminate | reflexivity].
  - split; [discriminate | reflexivity].
  - exists cost, d. split; [exact Hrun|]. split; [exact Hnn|].
    change (Pricing.price_for_model no_unicode (Some (cps " GPT-4o-Mini-2024-07-18 ")))
      with (Some (mk_ModelPrice 0.15 0.60)) in Hcase.
    destruct Hcase as (_ & _ & Hd). exact Hd.
Defined.
End Concrete.

End PricingProofs.

(** * Properties of [llm_gateway.py] *)

Module GatewayProofs.
Import Py Compare Gateway.
Local Open Scope list_scope.

Lemma url_rstrip_slashes (k : nat) : rstrip_slash (replicate k 47%N) = [].
Proof. induction k as [|k IH]; simpl; [reflexivity | rewrite IH; reflexivity]. Qed.

Lemma url_rstrip_app_slashes (s : str) (k : nat) :
  rstrip_slash (s ++ replicate k 47%N) = rstrip_slash s.
Proof.
  induction s as [|c rest IH]; simpl; [apply url_rstrip_slashes|].
  rewrite IH. reflexivity.
Qed.

Lemma url_rstrip_last (s : str) : last (rstrip_slash s) ≠ Some 47%N.
Proof.
  induction s as [|c rest IH]; simpl; [discriminate|].
  destruct (rstrip_slash rest) as [|x kept] eqn:Hrest.
  - destruct (N.eqb_spec c 47) as [-> | Hne]; simpl; [discriminate | congruence].
  - exact IH.
Qed.

Lemma url_rstrip_decomp (s : str) : ∃ k, s = rstrip_slash s ++ replicate k 47%N.
Proof.
  induction s as [|c rest [k IH]]; simpl; [exists 0%nat; reflexivity|].
  destruct (rstrip_slash rest) as [|x kept] eqn:Hrest.
  - simpl in IH. destruct (N.eqb_spec c 47) as [-> | Hne].
    + exists (S k). rewrite IH at 1. reflexivity.
    + exists k. rewrite IH at 1. reflexivity.
  - exists k. rewrite IH at 1. reflexivity.
Qed.

Lemma gateway_headers_auth (task_id : str) (api_key : option str) (value : str) :
  ("Authorization", value) ∈ gateway_headers task_id api_key
  ↔ ∃ key, api_key = Some key ∧ key ≠ [] ∧ value = cps "Bearer " ++ key.
Proof.
  unfold gateway_headers, IWA_TASK_ID_HEADER.
  destruct api_key as [[|c key]|]; rewrite ?app_nil_r;
    rewrite ?elem_of_app, !elem_of_cons, ?elem_of_nil.
  - split; [intros [[=] | [[=] | []]] | intros (key & [= <-] & Hne & _); congruence].
  - split.
    + intros [[[=] | [[=] | []]] | [[= ->] | []]]. exists (c :: key).
      split; [reflexivity | split; [discriminate | reflexivity]].
    + intros (key' & [= <-] & _ & ->). right. left. reflexivity.
  - split; [intros [[=] | [[=] | []]] | intros (key & [=] & _)].
Qed.

(** X24: the headers of a call always carry [Content-Type:
    application/json] and the task identifier under [IWA-Task-ID]; they
    carry [Authorization] exactly when a key that is not empty is given,
    as [Bearer <key>]; no header is set twice and there is no other. *)
Theorem gateway_headers_spec (task_id : str) (api_key : option str) :
  let headers := gateway_headers task_id api_key in
  ("Content-Type", cps "application/json") ∈ headers
  ∧ (∀ value, (IWA_TASK_ID_HEADER, value) ∈ headers ↔ value = task_id)
  ∧ (∀ value, ("Authorization", value) ∈ headers
       ↔ ∃ key, api_key = Some key ∧ key ≠ [] ∧ value = cps "Bearer " ++ key)
  ∧ NoDup (map fst headers)
  ∧ (∀ name, name ∈ map fst headers →
       name = "Content-Type" ∨ name = IWA_TASK_ID_HEADER ∨ name = "Authorization")
  ∧ gateway_headers task_id (Some []) = gateway_headers task_id None.
Proof.
  intros headers. split; [left|]. split; [|split; [|split; [|split]]].
  - intros value. subst headers. unfold gateway_headers, IWA_TASK_ID_HEADER.
    rewrite elem_of_app, !elem_of_cons, elem_of_nil. split.
    + intros [[[=] | [[= ->] | []]] | Hauth]; [reflexivity|].
      destruct api_key as [[|c key]|]; try (inversion Hauth; fail).
      apply elem_of_cons in Hauth as [[=] | Hnil]. inversion Hnil.
    + intros ->. left. right. left. reflexivity.
  - intros value. apply gateway_headers_auth.
  - subst headers. unfold gateway_headers, IWA_TASK_ID_HEADER.
    destruct api_key as [[|c key]|]; simpl;
      repeat (constructor; [rewrite ?elem_of_cons, ?elem_of_nil; intros Hin;
                            repeat (destruct Hin as [[=] | Hin]); try destruct Hin|]);
      constructor.
  - subst headers. unfold gateway_headers, IWA_TASK_ID_HEADER. intros name.
    destruct api_key as [[|c key]|]; simpl;
      rewrite ?elem_of_cons, ?elem_of_nil; intuition.
  - reflexivity.
Qed.

Section CallFacts.
Variable unicode_lower : str → N → str → str.
Variable url_host : str → result str.
Variable getenv : string → option str.
Variable is_error_status : Z → bool.
Variable World : Type.
Variable client_post : World → Request → result Response * World.

Abbreviation is_sandbox_gateway_base_url :=
  (Gateway.is_sandbox_gateway_base_url unicode_lower url_host).
Abbreviation resolve_base_url := (Gateway.resolve_base_url getenv).
Abbreviation resolve_api_key := (Gateway.resolve_api_key getenv).
Abbreviation chat_completions :=
  (Gateway.chat_completions unicode_lower url_host getenv is_error_status World client_post).

(** X25: [chat_completions] is refused, before any request and leaving
    the network as it was, exactly when the resolved key is empty and the
    resolved base address is not a sandbox gateway; otherwise it makes
    exactly one request, to the resolved base address (which never ends
    with a slash) followed by [/chat/completions], with the given body,
    the gateway headers and the time limit.  What it returns is the JSON
    of a response whose status is no error; an error status fails with
    that status and the first 300 characters at most of the response's
    text; an exception of the client or of the decoding comes out as it
    is. *)
Theorem chat_completions_spec (w : World) (task_id : str) (body : json)
    (base_url api_key : option str) (timeout_seconds : Q) :
  let base := resolve_base_url base_url in
  let key := resolve_api_key api_key in
  let request :=
    {| req_url := base ++ cps "/chat/completions";
       req_body := body;
       req_headers := gateway_headers task_id (if is_empty key then None else Some key);
       req_timeout := timeout_seconds |} in
  last base ≠ Some 47%N
  ∧ match chat_completions w task_id body base_url api_key timeout_seconds with
    | (inl MissingKey, requests, w') =>
        key = [] ∧ is_sandbox_gateway_base_url (Some base) = false
        ∧ requests = [] ∧ w' = w
    | (outcome, requests, w') =>
        (key ≠ [] ∨ is_sandbox_gateway_base_url (Some base) = true)
        ∧ requests = [request]
        ∧ w' = snd (client_post w request)
        ∧ match outcome with
          | inr v =>
              ∃ resp, fst (client_post w request) = Ok resp
                      ∧ is_error_status (resp_status resp) = false
                      ∧ resp_json resp = Ok v
          | inl (Failed status snippet) =>
              ∃ resp, fst (client_post w request) = Ok resp
                      ∧ status = resp_status resp
                      ∧ is_error_status status = true
                      ∧ snippet = take 300 (resp_text resp)
                      ∧ (length snippet ≤ 300)%nat
          | inl (ClientError e) =>
              fst (client_post w request) = Raise e
              ∨ ∃ resp, fst (client_post w request) = Ok resp
                        ∧ is_error_status (resp_status resp) = false
                        ∧ resp_json resp = Raise e
          | inl MissingKey => False
          end
    end.
Proof.
  intros base key request. split; [apply url_rstrip_last|].
  unfold Gateway.chat_completions. fold base. fold key. fold request.
  assert (Hguard : is_empty key = true ↔ key = [])
    by (destruct key; simpl; split; congruence).
  destruct (is_empty key) eqn:Hkey;
    destruct (is_sandbox_gateway_base_url (Some base)) eqn:Hsand; simpl.
  2: { split; [apply Hguard; reflexivity|]. auto. }
  all: assert (Hpass : key ≠ [] ∨ true = true ∨ False)
         by (first [ left; intros Hk; apply Hguard in Hk; discriminate
                   | right; left; reflexivity ]);
       assert (Hpass' : key ≠ [] ∨ is_sandbox_gateway_base_url (Some base) = true)
         by (first [ left; intros Hk; apply Hguard in Hk; discriminate
                   | right; exact Hsand ]);
       clear Hpass; rewrite ?Hsand in Hpass';
       destruct (client_post w request) as [[resp | e] w'] eqn:Hpost; simpl;
       [ destruct (is_error_status (resp_status resp)) eqn:Herr;
         [ split; [exact Hpass'|]; split; [reflexivity|]; split; [reflexivity|];
           exists resp; split; [reflexivity|]; split; [reflexivity|];
           split; [exact Herr|]; split; [reflexivity|];
           rewrite length_take; apply Nat.le_min_l
         | destruct (resp_json resp) as [v | e] eqn:Hjson;
           (split; [exact Hpass'|]; split; [reflexivity|]; split; [reflexivity|]);
           [ exists resp; auto | right; exists resp; auto ] ]
       | split; [exact Hpass'|]; split; [reflexivity|]; split; [reflexivity|];
         left; reflexivity ].
Qed.

(** X26: trailing slashes of a base address do not change the call, an
    empty base address is the same as none (the environment, then the
    OpenAI address, is used), while a key given as the empty text is not
    replaced with the one of the environment: outside a sandbox gateway
    the call is then refused. *)
Theorem chat_completions_resolution (w : World) (task_id : str) (body : json)
    (address : str) (k : nat) (api_key : option str) (timeout_seconds : Q) :
  address ≠ [] →
  chat_completions w task_id body (Some (address ++ replicate k 47%N)) api_key timeout_seconds
  = chat_completions w task_id body (Some address) api_key timeout_seconds
  ∧ chat_completions w task_id body (Some []) api_key timeout_seconds
    = chat_completions w task_id body None api_key timeout_seconds
  ∧ (is_sandbox_gateway_base_url (Some (resolve_base_url (Some address))) = false →
     chat_completions w task_id body (Some address) (Some []) timeout_seconds
     = (inl MissingKey, [], w)).
Proof.
  intros Hne. split; [|split].
  - unfold Gateway.chat_completions.
    assert (Hbase : resolve_base_url (Some (address ++ replicate k 47%N))
                    = resolve_base_url (Some address)).
    { unfold Gateway.resolve_base_url. destruct address as [|c rest]; [congruence|].
      simpl text_or. apply (url_rstrip_app_slashes (c :: rest) k). }
    rewrite Hbase. reflexivity.
  - reflexivity.
  - intros Hsand. unfold Gateway.chat_completions. rewrite Hsand. reflexivity.
Qed.

End CallFacts.

(** An instance of X26: the address of a local gateway, with two slashes
    at its end. *)
Lemma chat_completions_resolution_witness :
  Gateway.chat_completions no_unicode local_host empty_env error_from_400 unit null_post
    tt (cps "task-0") JNull (Some (cps "http://localhost:8080/v1//")) None 30
  = Gateway.chat_completions no_unicode local_host empty_env error_from_400 unit null_post
      tt (cps "task-0") JNull (Some (cps "http://localhost:8080/v1")) None 30.
Proof.
  refine (proj1 (chat_completions_resolution no_unicode local_host empty_env error_from_400
                   unit null_post tt (cps "task-0") JNull
                   (cps "http://localhost:8080/v1") 2 None 30 _)).
  discriminate.
Defined.

End GatewayProofs.
